(** * faunadb-go: values and their wire encoding

    A shallow embedding of [faunadb/values.go] and of the response path of
    [faunadb/client.go], together with the parts of Go's [time] and
    [encoding/json] packages that the [MarshalJSON] methods call.

    Go strings are byte sequences: they are modelled as [string] (a list of
    8-bit [ascii] characters).  Go maps are modelled as association lists
    whose order stands for the unspecified iteration order of the map; a
    well-formed map has pairwise distinct keys.  A slice or a map of Go is
    nil or allocated, and an interface value may be nil: the values of the
    model have a constructor for each of these.

    The two files call into files of the package that are not among the
    sources at hand: the value decoder, the field extractors and
    [parseJSON].  These are modelled from the specification, and every
    definition that is says so. *)

From Stdlib Require Import ZArith List String Ascii Bool Lia Permutation Sorted.
From Stdlib Require Import Floats.SpecFloat.
Import ListNotations.

Set Warnings "-register-all".

Local Open Scope string_scope.
Local Open Scope list_scope.
Local Open Scope Z_scope.

(** Concatenation of byte strings. *)
Infix "+++" := String.append (right associativity, at level 60).

(* ------------------------------------------------------------------ *)
(** ** Small utilities on byte strings *)

Definition byte_of (z : Z) : ascii := ascii_of_N (Z.to_N z).
Definition code (c : ascii) : Z := Z.of_N (N_of_ascii c).

(** ['0' + d] for a decimal digit [d]. *)
Definition digit (d : Z) : ascii := byte_of (48 + d).

(** The double quote character, and a helper that lets expected JSON
    documents be written with apostrophes in place of double quotes. *)
Definition DQ : ascii := "034"%char.

Fixpoint dq (s : string) : string :=
  match s with
  | EmptyString => EmptyString
  | String c r => String (if Ascii.eqb c "'"%char then DQ else c) (dq r)
  end.

Fixpoint repeat_char (c : ascii) (n : nat) : string :=
  match n with
  | O => EmptyString
  | S k => String c (repeat_char c k)
  end.

(** Every character of a string passes a test. *)
Fixpoint all_chars (p : ascii -> bool) (s : string) : bool :=
  match s with
  | EmptyString => true
  | String c r => p c && all_chars p r
  end.

Definition is_digit (c : ascii) : bool := (48 <=? code c) && (code c <=? 57).

(* ------------------------------------------------------------------ *)
(** ** Go's [time] package: the parts used by [Format] *)

Module GoTime.

(** A [time.Time]: an instant (seconds since the Unix epoch and a
    nanosecond offset in [0, 999999999]) together with a location.  The
    location enters [Format] only through its offset east of UTC at that
    instant, which is what the record keeps; [offset = 0] is UTC. *)
Record Time : Type := mkTime {
  unix : Z;
  nsec : Z;
  offset : Z
}.

Definition secondsPerMinute : Z := 60.
Definition secondsPerHour : Z := 60 * 60.
Definition secondsPerDay : Z := 24 * secondsPerHour.
Definition daysPer400Years : Z := 365 * 400 + 97.
Definition daysPer100Years : Z := 365 * 100 + 24.
Definition daysPer4Years : Z := 365 * 4 + 1.

Definition absoluteZeroYear : Z := -292277022399.
Definition unixToInternal : Z :=
  (1969 * 365 + 1969 / 4 - 1969 / 100 + 1969 / 400) * secondsPerDay.
(** [(absoluteZeroYear - internalYear) * 365.2425 * secondsPerDay],
    negated. *)
Definition internalToAbsolute : Z := 9223371966579724800.
Definition unixToAbsolute : Z := unixToInternal + internalToAbsolute.

Definition uint64 (z : Z) : Z := z mod 2 ^ 64.

(** [Time.abs]: seconds since the absolute zero year, in the time's
    location, as a [uint64]. *)
Definition abs (t : Time) : Z := uint64 (unix t + offset t + unixToAbsolute).

Definition isLeap (year : Z) : bool :=
  (year mod 4 =? 0) && (negb (year mod 100 =? 0) || (year mod 400 =? 0)).

(** [daysBefore[m]]: days in a non-leap year before month [m + 1]. *)
Definition daysBefore (m : Z) : Z :=
  nth (Z.to_nat m)
    [0; 31; 59; 90; 120; 151; 181; 212; 243; 273; 304; 334; 365] 0.

(** [absDate(abs, true)]: year, month (January = 1) and day of month. *)
Definition absDate (a : Z) : Z * Z * Z :=
  let d := a / secondsPerDay in
  (* 400-year cycles *)
  let n := d / daysPer400Years in
  let y := 400 * n in
  let d := d - daysPer400Years * n in
  (* 100-year cycles; the last one has an extra leap day *)
  let n := d / daysPer100Years in
  let n := n - Z.shiftr n 2 in
  let y := y + 100 * n in
  let d := d - daysPer100Years * n in
  (* 4-year cycles *)
  let n := d / daysPer4Years in
  let y := y + 4 * n in
  let d := d - daysPer4Years * n in
  (* years within a 4-year cycle *)
  let n := d / 365 in
  let n := n - Z.shiftr n 2 in
  let y := y + n in
  let d := d - 365 * n in
  let year := y + absoluteZeroYear in
  let day := d in
  if isLeap year && (day =? 31 + 29 - 1) then (year, 2, 29)
  else
    let day := if isLeap year && (31 + 29 - 1 <? day) then day - 1 else day in
    let month := day / 31 in
    let e := daysBefore (month + 1) in
    if e <=? day then (year, month + 1 + 1, day - e + 1)
    else (year, month + 1, day - daysBefore month + 1).

(** [absClock]: hour, minute and second of the day. *)
Definition absClock (a : Z) : Z * Z * Z :=
  let sec := a mod secondsPerDay in
  let hour := sec / secondsPerHour in
  let sec := sec - hour * secondsPerHour in
  let min := sec / secondsPerMinute in
  let sec := sec - min * secondsPerMinute in
  (hour, min, sec).

(** The digit loop of [appendInt]: decimal digits of [u], most
    significant first; the buffer of the source holds 20 digits. *)
Fixpoint digits_loop (fuel : nat) (u : Z) (acc : string) : string :=
  match fuel with
  | O => acc
  | S k =>
      if 10 <=? u then digits_loop k (u / 10) (String (digit (u mod 10)) acc)
      else String (digit u) acc
  end.

Definition utoa (u : Z) : string := digits_loop 20 u EmptyString.

(** [appendInt(b, x, width)]: sign, zero padding up to [width], digits. *)
Definition appendInt (x : Z) (width : nat) : string :=
  let sign := if x <? 0 then "-" else EmptyString in
  let ds := utoa (Z.abs x) in
  sign +++ repeat_char "0"%char (width - String.length ds) +++ ds.

(** The nine-digit buffer filled by [formatNano]. *)
Fixpoint fixed_digits (n : nat) (u : Z) (acc : string) : string :=
  match n with
  | O => acc
  | S k => fixed_digits k (u / 10) (String (digit (u mod 10)) acc)
  end.

(** Drop the trailing ['0'] characters of a digit buffer given in
    reverse order. *)
Fixpoint drop_zeros (rev_buf : list ascii) : list ascii :=
  match rev_buf with
  | c :: r => if Ascii.eqb c "0"%char then drop_zeros r else rev_buf
  | [] => []
  end.

(** [formatNano] for the layout element [.999999999]: trailing zeros are
    trimmed, and nothing at all is written when every digit is trimmed. *)
Definition formatNano9 (nanosec : Z) : string :=
  let buf := fixed_digits 9 nanosec EmptyString in
  let kept := rev (drop_zeros (rev (list_ascii_of_string buf))) in
  match kept with
  | [] => EmptyString
  | _ => String "."%char (string_of_list_ascii kept)
  end.

(** [t.Format("2006-01-02")]. *)
Definition Format_date (t : Time) : string :=
  let '(year, month, day) := absDate (abs t) in
  appendInt year 4 +++ "-" +++ appendInt month 2 +++ "-" +++ appendInt day 2.

(** [t.Format("2006-01-02T15:04:05")], the common prefix of the
    timestamp layouts. *)
Definition Format_seconds (t : Time) : string :=
  let '(hour, min, sec) := absClock (abs t) in
  Format_date t +++ "T" +++ appendInt hour 2 +++ ":" +++ appendInt min 2
    +++ ":" +++ appendInt sec 2.

(** [t.Format("2006-01-02T15:04:05.999999999Z")]: the trailing [Z] of the
    layout is literal text, not a zone element. *)
Definition Format_ts (t : Time) : string :=
  Format_seconds t +++ formatNano9 (nsec t) +++ "Z".

(** The days of a month. *)
Definition daysIn (month year : Z) : Z :=
  if (month =? 2) && isLeap year then 29
  else daysBefore month - daysBefore (month - 1).

(** [time.Date(year, month, day, hour, min, sec, 0, time.UTC)], as Unix
    seconds: the days since the absolute epoch are counted by cycles of
    400, 100, 4 and 1 years, then the days before the month and the day. *)
Definition Date (year month day hour min sec : Z) : Z :=
  let y := year - absoluteZeroYear in
  let n := y / 400 in
  let y := y - 400 * n in
  let d := daysPer400Years * n in
  let n := y / 100 in
  let y := y - 100 * n in
  let d := d + daysPer100Years * n in
  let n := y / 4 in
  let y := y - 4 * n in
  let d := d + daysPer4Years * n in
  let d := d + 365 * y in
  let d := d + daysBefore (month - 1) in
  let d := if isLeap year && (3 <=? month) then d + 1 else d in
  let d := d + (day - 1) in
  let a := d * secondsPerDay
           + (hour * secondsPerHour + min * secondsPerMinute + sec) in
  a - unixToAbsolute.

End GoTime.

Import GoTime.

(* ------------------------------------------------------------------ *)
(** ** Errors

    Every failure of the Go code is a value of the interface [error]; the
    embedding keeps one constructor per kind of failure. *)

Inductive PathError : Type :=
| NotTransversable
| KeyNotFound (key : string)
| IndexOutOfRange (index : Z).

Inductive Variant : Type :=
| VString | VInteger | VDouble | VBoolean | VDate | VTime | VReference
| VSetReference | VObject | VArray | VNull.

(** The integer types of Go other than [int64], by their kind. *)
Inductive IntKind : Type :=
| KInt | KInt8 | KInt16 | KInt32
| KUint | KUint8 | KUint16 | KUint32 | KUint64.

Inductive Shape : Type :=
| SString | SInt64 | SFloat64 | SBool | STime | SValue
| SOptional (elem : Shape)
| SSeq (elem : Shape)
| SMap (elem : Shape)
| SInt (kind : IntKind)
| SFloat32.

(** [MarshalerError] is the error in which [json.Marshal] wraps the error
    that a [MarshalJSON] method returns; it names the type of the value.
    [NilDereference] stands for the run-time panic of a method call on a
    nil interface value. *)
Inductive error : Type :=
| UnsupportedValueError (f : spec_float)
| SyntaxError
| WireFormatError (tag payload : string)
| TraversalError (e : PathError)
| TypeMismatch (requested : Shape) (actual : Variant)
| PrecisionLoss (f : spec_float)
| TransportError (status : Z)
| MarshalerError (type : Variant) (err : error)
| NilDereference.

Inductive result (A : Type) : Type :=
| Ok (a : A)
| Err (e : error).
Arguments Ok {A} a.
Arguments Err {A} e.

Definition bind {A B} (r : result A) (k : A -> result B) : result B :=
  match r with
  | Ok a => k a
  | Err e => Err e
  end.

Notation "'do' x <- r ; k" := (bind r (fun x => k))
  (at level 10, x pattern, r at level 100, k at level 200).

(** Run the computations of a list from left to right and stop at the
    first failure. *)
Fixpoint sequence {A} (l : list (result A)) : result (list A) :=
  match l with
  | [] => Ok []
  | r :: rest => do a <- r; do az <- sequence rest; Ok (a :: az)
  end.

(* ------------------------------------------------------------------ *)
(** ** Go's [encoding/json] package: the encoder *)

Module GoJSON.

Definition hex (n : Z) : ascii :=
  nth (Z.to_nat n) (list_ascii_of_string "0123456789abcdef") "0"%char.

(** [htmlSafeSet[b]] for a byte below [utf8.RuneSelf]: every byte from
    the space on, except the double quote, the backslash and the three
    characters that [Marshal] escapes for HTML. *)
Definition htmlSafe (b : Z) : bool :=
  (32 <=? b) && negb (b =? 34) && negb (b =? 92)
  && negb (b =? 38) && negb (b =? 60) && negb (b =? 62).

(** What the encoder writes for a byte below [utf8.RuneSelf] that is not
    in [htmlSafeSet]: the short escapes are those of the Go releases that
    the package was written for (later releases also shorten the
    backspace and the form feed, which the reader below accepts in either
    form). *)
Definition escape_byte (b : ascii) : string :=
  let n := code b in
  if (n =? 92) || (n =? 34) then String "\"%char (String b EmptyString)
  else if n =? 10 then "\n"
  else if n =? 13 then "\r"
  else if n =? 9 then "\t"
  else "\u00" +++ String (hex (Z.shiftr n 4)) (String (hex (Z.land n 15)) EmptyString).

(** [utf8.DecodeRuneInString], as far as the encoder needs it: the size
    of the encoding that starts the string, [None] for [RuneError] with
    size 1.  [first] gives the size and the accepted range of the second
    byte; the later bytes are continuation bytes. *)
Definition first (s0 : Z) : option (nat * Z * Z) :=
  if s0 <? 194 then None
  else if s0 <=? 223 then Some (2%nat, 128, 191)
  else if s0 =? 224 then Some (3%nat, 160, 191)
  else if s0 <=? 236 then Some (3%nat, 128, 191)
  else if s0 =? 237 then Some (3%nat, 128, 159)
  else if s0 <=? 239 then Some (3%nat, 128, 191)
  else if s0 =? 240 then Some (4%nat, 144, 191)
  else if s0 <=? 243 then Some (4%nat, 128, 191)
  else if s0 =? 244 then Some (4%nat, 128, 143)
  else None.

Definition continuation (b : Z) : bool := (128 <=? b) && (b <=? 191).

Definition rune_size (s : string) : option nat :=
  match s with
  | EmptyString => None
  | String c0 r =>
      match first (code c0), r with
      | Some (sz, lo, hi), String c1 r1 =>
          if (lo <=? code c1) && (code c1 <=? hi) then
            match sz, r1 with
            | 2%nat, _ => Some 2%nat
            | 3%nat, String c2 _ =>
                if continuation (code c2) then Some 3%nat else None
            | 4%nat, String c2 (String c3 _) =>
                if continuation (code c2) && continuation (code c3)
                then Some 4%nat else None
            | _, _ => None
            end
          else None
      | _, _ => None
      end
  end.

(** The runes U+2028 and U+2029 are [E2 80 A8] and [E2 80 A9]. *)
Definition line_separator (s : string) : option ascii :=
  match s with
  | String c0 (String c1 (String c2 _)) =>
      if (code c0 =? 226) && (code c1 =? 128)
         && ((code c2 =? 168) || (code c2 =? 169))
      then Some (hex (Z.land (code c2) 15)) else None
  | _ => None
  end.

(** The loop of [encodeState.string] with [escapeHTML] set.  [pending]
    counts the bytes of the current rune that are still to be passed
    over: copied when [copy] holds, dropped after an escaped line
    separator. *)
Fixpoint string_body (pending : nat) (copy : bool) (s : string) : string :=
  match s with
  | EmptyString => EmptyString
  | String b r =>
      match pending with
      | S k => (if copy then String b EmptyString else EmptyString)
                 +++ string_body k copy r
      | O =>
          if code b <? 128 then
            (if htmlSafe (code b) then String b EmptyString else escape_byte b)
              +++ string_body 0 true r
          else
            match rune_size s with
            | None => "\ufffd" +++ string_body 0 true r
            | Some sz =>
                match line_separator s with
                | Some h => "\u202" +++ String h (string_body (sz - 1) false r)
                | None => String b (string_body (sz - 1) true r)
                end
            end
      end
  end.

(** A Go string as a JSON string literal. *)
Definition quote (s : string) : string :=
  String DQ (string_body 0 true s) +++ String DQ EmptyString.

(** [strconv.AppendInt(b, n, 10)]. *)
Definition formatInt (n : Z) : string :=
  (if n <? 0 then "-" else EmptyString) +++ utoa (Z.abs n).

Fixpoint join (sep : string) (l : list string) : string :=
  match l with
  | [] => EmptyString
  | [x] => x
  | x :: rest => x +++ sep +++ join sep rest
  end.

(** The encoder sorts the keys of a map as byte strings before it writes
    the entries. *)
Fixpoint insert_entry {A} (e : string * A) (l : list (string * A))
  : list (string * A) :=
  match l with
  | [] => [e]
  | x :: rest =>
      if String.leb (fst e) (fst x) then e :: l
      else x :: insert_entry e rest
  end.

Fixpoint sort_entries {A} (l : list (string * A)) : list (string * A) :=
  match l with
  | [] => []
  | e :: rest => insert_entry e (sort_entries rest)
  end.

Definition member (e : string * string) : string :=
  quote (fst e) +++ ":" +++ snd e.

(** The map encoder, given the encoder's outcome for each value: entries
    in key order, and the first failure in that order aborts. *)
Definition marshal_map (entries : list (string * result string))
  : result string :=
  do encoded <- sequence (map (fun e => do x <- snd e; Ok (fst e, x))
                              (sort_entries entries));
  Ok ("{" +++ join "," (map member encoded) +++ "}").

Definition marshal_array (elems : list (result string)) : result string :=
  do encoded <- sequence elems;
  Ok ("[" +++ join "," encoded +++ "]").

(** The encoders of a map and of a slice: a nil one is written as
    [null]. *)
Definition mapEncoder (m : option (list (string * result string)))
  : result string :=
  match m with
  | None => Ok "null"
  | Some entries => marshal_map entries
  end.

Definition sliceEncoder (s : option (list (result string))) : result string :=
  match s with
  | None => Ok "null"
  | Some elems => marshal_array elems
  end.

(** The encoder of a value whose type has a [MarshalJSON] method: the
    bytes that the method returns, or its error wrapped in a
    [MarshalerError] with the type of the value. *)
Definition marshalerEncoder (type : Variant) (r : result string)
  : result string :=
  match r with
  | Ok b => Ok b
  | Err err => Err (MarshalerError type err)
  end.

End GoJSON.

Import GoJSON.

(* ------------------------------------------------------------------ *)
(** ** [faunadb/values.go]: the values *)

(** The values of the interface [Value]: the types that implement it,
    and the nil interface.  [LongV] holds an [int64] and [DoubleV] a
    [float64].  A map or a slice of Go is nil or allocated: [SetRefV],
    [ObjectV] and [ArrayV] hold an allocated one, and [SetRefV_nil],
    [ObjectV_nil] and [ArrayV_nil] are [SetRefV{}], [ObjectV(nil)] and
    [ArrayV(nil)].  [nil_Value] is the nil interface value, which may stand
    wherever a [Value] is expected: as an element of an array, as the value
    of an entry, or as an expression. *)
Inductive Value : Type :=
| StringV (str : string)
| LongV (num : Z)
| DoubleV (num : spec_float)
| BooleanV (boolean : bool)
| DateV (date : Time)
| TimeV (localTime : Time)
| RefV (ID : string)
| SetRefV (Parameters : list (string * Value))
| ObjectV (obj : list (string * Value))
| ArrayV (arr : list Value)
| NullV
| SetRefV_nil
| ObjectV_nil
| ArrayV_nil
| nil_Value.

(** The variant of a value; the nil interface has none. *)
Definition variant (v : Value) : option Variant :=
  match v with
  | StringV _ => Some VString
  | LongV _ => Some VInteger
  | DoubleV _ => Some VDouble
  | BooleanV _ => Some VBoolean
  | DateV _ => Some VDate
  | TimeV _ => Some VTime
  | RefV _ => Some VReference
  | SetRefV _ | SetRefV_nil => Some VSetReference
  | ObjectV _ | ObjectV_nil => Some VObject
  | ArrayV _ | ArrayV_nil => Some VArray
  | NullV => Some VNull
  | nil_Value => None
  end.

Section Encoding.

(** [strconv.AppendFloat(b, f, 'g', -1, 64)] for a finite [f]: the
    shortest decimal text that reads back as [f].  Its digits are not
    modelled: the encoder is stated for any such function. *)
Variable formatFloat : spec_float -> string.

(** The float encoder of [encoding/json] refuses what JSON cannot
    write. *)
Definition floatEncoder (f : spec_float) : result string :=
  match f with
  | S754_nan | S754_infinity _ => Err (UnsupportedValueError f)
  | _ => Ok (formatFloat f)
  end.

(** [escape(key, value)] is [json.Marshal(map[string]interface{}{key:
    value})]; [value] comes as the encoder's outcome for it. *)
Definition escape (key : string) (value : result string) : result string :=
  marshal_map [(key, value)].

Definition DateV_MarshalJSON (date : Time) : result string :=
  escape "@date" (Ok (quote (Format_date date))).

Definition TimeV_MarshalJSON (localTime : Time) : result string :=
  escape "@ts" (Ok (quote (Format_ts localTime))).

Definition RefV_MarshalJSON (ID : string) : result string :=
  escape "@ref" (Ok (quote ID)).

Definition NullV_MarshalJSON : result string := Ok "null".

(** The encoder's outcome for each value of a [map[string]Value]. *)
Definition entries (marshal : Value -> result string)
    (m : list (string * Value)) : list (string * result string) :=
  map (fun e => let '(k, v) := e in (k, marshal v)) m.

(** The two methods below take the map as Go has it: [None] is the nil
    map. *)
Definition SetRefV_MarshalJSON (marshal : Value -> result string)
    (Parameters : option (list (string * Value))) : result string :=
  escape "@set" (mapEncoder (option_map (entries marshal) Parameters)).

Definition ObjectV_MarshalJSON (marshal : Value -> result string)
    (obj : option (list (string * Value))) : result string :=
  escape "object" (mapEncoder (option_map (entries marshal) obj)).

(** [json.Marshal] of a [Value]: the type's [MarshalJSON] method where it
    has one, its error wrapped; the encoder of the underlying kind where
    it has none ([StringV], [LongV], [DoubleV], [BooleanV], [ArrayV]);
    [null] for the nil interface. *)
Fixpoint Marshal (v : Value) : result string :=
  match v with
  | StringV str => Ok (quote str)
  | LongV num => Ok (formatInt num)
  | DoubleV num => floatEncoder num
  | BooleanV boolean => Ok (if boolean then "true" else "false")
  | DateV date => marshalerEncoder VDate (DateV_MarshalJSON date)
  | TimeV localTime => marshalerEncoder VTime (TimeV_MarshalJSON localTime)
  | RefV ID => marshalerEncoder VReference (RefV_MarshalJSON ID)
  | SetRefV Parameters =>
      marshalerEncoder VSetReference
        (SetRefV_MarshalJSON Marshal (Some Parameters))
  | SetRefV_nil =>
      marshalerEncoder VSetReference (SetRefV_MarshalJSON Marshal None)
  | ObjectV obj =>
      marshalerEncoder VObject (ObjectV_MarshalJSON Marshal (Some obj))
  | ObjectV_nil => marshalerEncoder VObject (ObjectV_MarshalJSON Marshal None)
  | ArrayV arr => sliceEncoder (Some (map Marshal arr))
  | ArrayV_nil => sliceEncoder None
  | NullV => marshalerEncoder VNull NullV_MarshalJSON
  | nil_Value => Ok "null"
  end.

End Encoding.

(** The bytes that the encoder copies into a string literal unchanged. *)
Definition safe_char (c : ascii) : bool := (code c <? 128) && htmlSafe (code c).

(** The characters of a formatted date or timestamp. *)
Definition ts_char (c : ascii) : bool :=
  is_digit c || existsb (Ascii.eqb c) (list_ascii_of_string "-T:.Z").

(* ------------------------------------------------------------------ *)
(** ** The fractional second written by [formatNano] *)

(** The number that a list of decimal digits denotes. *)
Definition digits_value (ds : list ascii) : Z :=
  fold_left (fun a c => 10 * a + (code c - 48)) ds 0.

(** What the layout element [.999999999] yields for [n] nanoseconds:
    nothing for zero, otherwise a point and the digits of [n / 10^9] up to
    the last one that is not zero. *)
Definition trimmed_fraction (n : Z) (frac : string) : Prop :=
  (n = 0 /\ frac = EmptyString) \/
  (n <> 0 /\
   exists ds : list ascii,
     frac = String "."%char (string_of_list_ascii ds) /\
     forallb is_digit ds = true /\
     (1 <= List.length ds <= 9)%nat /\
     digits_value ds * 10 ^ (9 - Z.of_nat (List.length ds)) = n /\
     hd_error (rev ds) <> Some "0"%char).

(** What fixed-point nanosecond precision asks for: a point and exactly
    nine digits that denote [n]. *)
Definition fixed_fraction (n : Z) (frac : string) : Prop :=
  exists ds : list ascii,
    frac = String "."%char (string_of_list_ascii ds) /\
    forallb is_digit ds = true /\
    List.length ds = 9%nat /\
    digits_value ds = n.

(* ------------------------------------------------------------------ *)
(** ** Decoding into native destinations

    [values.go] gives every variant a [Get] method.  All but [NullV.Get]
    hand over to the value decoder ([newValueDecoder(i).assign],
    [.decodeMap], [.decodeArray]), whose file is not part of the sources at
    hand; it is modelled from the specification.  A destination is the
    variable that the caller's pointer designates: its shape and its
    current content. *)

(** Modelled from the spec: the native types that a destination can
    have (section 4.3): strings, integers, floating-point numbers,
    booleans, times, a [Value], pointers, slices and maps with string
    keys.  [NInt64] is an [int64] and [NFloat64] a [float64], the types
    that match [LongV] and [DoubleV]; [NInt] is an integer of another
    type of Go, and [NFloat32] a [float32]. *)
Inductive Native : Type :=
| NString (s : string)
| NInt64 (n : Z)
| NFloat64 (f : spec_float)
| NBool (b : bool)
| NTime (t : Time)
| NValue (v : option Value)
| NOptional (o : option Native)
| NSeq (l : list Native)
| NMap (m : list (string * Native))
| NInt (kind : IntKind) (n : Z)
| NFloat32 (f : spec_float).

(** Modelled from the spec: the variable behind the pointer that [Get]
    receives. *)
Record Dest : Type := mkDest {
  shape : Shape;
  content : Native
}.

(** The zero time of Go: January 1, year 1, 00:00:00 UTC. *)
Definition zeroTime : Time := mkTime (- unixToInternal) 0 0.

(** Modelled from the spec: the zero, empty or "no value" state of a
    destination. *)
Definition zero (sh : Shape) : Native :=
  match sh with
  | SString => NString EmptyString
  | SInt64 => NInt64 0
  | SFloat64 => NFloat64 (S754_zero false)
  | SBool => NBool false
  | STime => NTime zeroTime
  | SValue => NValue None
  | SOptional _ => NOptional None
  | SSeq _ => NSeq []
  | SMap _ => NMap []
  | SInt kind => NInt kind 0
  | SFloat32 => NFloat32 (S754_zero false)
  end.

(** The conversion of an integer to [int64], with its wrap-around. *)
Definition int64 (z : Z) : Z := (z + 2 ^ 63) mod 2 ^ 64 - 2 ^ 63.

(** The size in bits of an integer type ([int] and [uint] on a 64-bit
    platform), and whether it is signed. *)
Definition bits (kind : IntKind) : Z :=
  match kind with
  | KInt8 | KUint8 => 8
  | KInt16 | KUint16 => 16
  | KInt32 | KUint32 => 32
  | KInt | KUint | KUint64 => 64
  end.

Definition signed (kind : IntKind) : bool :=
  match kind with
  | KInt | KInt8 | KInt16 | KInt32 => true
  | KUint | KUint8 | KUint16 | KUint32 | KUint64 => false
  end.

(** The conversion of an integer to an integer type, with its
    wrap-around. *)
Definition convert (kind : IntKind) (z : Z) : Z :=
  if signed kind
  then (z + 2 ^ (bits kind - 1)) mod 2 ^ bits kind - 2 ^ (bits kind - 1)
  else z mod 2 ^ bits kind.


(** The conversion [float64(n)]: the [float64] nearest to an integer
    (ties to even). *)
Definition float_of_int (n : Z) : spec_float := binary_normalize 53 1024 n 0 false.

(** The conversions [float32(n)] of an integer and [float32(f)] of a
    [float64]: the nearest [float32] (ties to even). *)
Definition float32_of_int (n : Z) : spec_float := binary_normalize 24 128 n 0 false.

Definition float32 (f : spec_float) : spec_float :=
  match f with
  | S754_finite s m e => binary_normalize 24 128 (cond_Zopp s (Zpos m)) e s
  | _ => f
  end.

(** The integer that a [float64] holds, when it has no fractional
    component. *)
Definition integral (f : spec_float) : option Z :=
  match f with
  | S754_zero _ => Some 0
  | S754_finite s m e =>
      if 0 <=? e then Some (cond_Zopp s (Zpos m * 2 ^ e))
      else if Zpos m mod 2 ^ (- e) =? 0
           then Some (cond_Zopp s (Zpos m / 2 ^ (- e)))
           else None
  | S754_infinity _ | S754_nan => None
  end.

(** Modelled from the spec: the value decoder's [assign] (the decoder's
    file is missing from the sources).  Section 4.3: a native type that
    matches the variant always succeeds; an Integer widens to a native
    floating-point type; a Double narrows to a native integer type only
    when it has no fractional component, and fails with a precision-loss
    error otherwise; any other request is a type mismatch that names the
    requested shape and the actual variant.  The section names the 64-bit
    types; a number that goes to a numeric type of another size is
    converted as Go converts it.  The nil interface has no variant to
    name: it is not decoded. *)
Definition assign (sh : Shape) (v : Value) : result Native :=
  match sh, v with
  | _, nil_Value => Err NilDereference
  | SValue, _ => Ok (NValue (Some v))
  | SString, StringV s => Ok (NString s)
  | SInt64, LongV n => Ok (NInt64 n)
  | SInt64, DoubleV f =>
      match integral f with
      | Some z => Ok (NInt64 (int64 z))
      | None => Err (PrecisionLoss f)
      end
  | SInt kind, LongV n => Ok (NInt kind (convert kind n))
  | SInt kind, DoubleV f =>
      match integral f with
      | Some z => Ok (NInt kind (convert kind z))
      | None => Err (PrecisionLoss f)
      end
  | SFloat64, DoubleV f => Ok (NFloat64 f)
  | SFloat64, LongV n => Ok (NFloat64 (float_of_int n))
  | SFloat32, DoubleV f => Ok (NFloat32 (float32 f))
  | SFloat32, LongV n => Ok (NFloat32 (float32_of_int n))
  | SBool, BooleanV b => Ok (NBool b)
  | STime, TimeV t => Ok (NTime t)
  | STime, DateV t => Ok (NTime t)
  | _, _ =>
      match variant v with
      | Some actual => Err (TypeMismatch sh actual)
      | None => Err NilDereference
      end
  end.

(** Modelled from the spec: the value decoder's [decodeArray] (missing
    from the sources).  Section 4.3: every element is decoded recursively
    and in order into a fresh sequence, and the first element that fails
    makes the whole decoding fail.  The array is the slice as Go has it:
    [None] is the nil slice, which has no element. *)
Definition decodeArray (elem : Value -> Shape -> result Native)
    (sh : Shape) (arr : option (list Value)) : result Native :=
  match sh with
  | SSeq e =>
      do l <- sequence (map (fun x => elem x e)
                            (match arr with Some l => l | None => [] end));
      Ok (NSeq l)
  | SValue =>
      Ok (NValue (Some (match arr with
                        | Some l => ArrayV l
                        | None => ArrayV_nil
                        end)))
  | _ => Err (TypeMismatch sh VArray)
  end.

(** Modelled from the spec: the value decoder's [decodeMap] (missing from
    the sources).  Section 4.3: every entry is decoded recursively into a
    fresh mapping, keys copied verbatim, and an entry that fails makes the
    whole decoding fail.  The object is the map as Go has it: [None] is
    the nil map, which has no entry. *)
Definition decodeMap (elem : Value -> Shape -> result Native)
    (sh : Shape) (obj : option (list (string * Value))) : result Native :=
  match sh with
  | SMap e =>
      do m <- sequence (map (fun kv => let '(k, x) := kv in
                                       do n <- elem x e; Ok (k, n))
                            (match obj with Some l => l | None => [] end));
      Ok (NMap m)
  | SValue =>
      Ok (NValue (Some (match obj with
                        | Some l => ObjectV l
                        | None => ObjectV_nil
                        end)))
  | _ => Err (TypeMismatch sh VObject)
  end.

(** Modelled from the spec: an optional destination (a pointer) receives
    a fresh cell that holds what its element shape receives. *)
Fixpoint through_optional (f : Shape -> result Native) (sh : Shape)
  : result Native :=
  match sh with
  | SOptional e => do x <- through_optional f e; Ok (NOptional (Some x))
  | _ => f sh
  end.

(** Modelled from the spec: the content that decoding [v] computes for a
    fresh destination of shape [sh], the recursion of the container
    decoders; a Null leaves a fresh destination as it is, at zero. *)
Fixpoint decode (v : Value) (sh : Shape) {struct v} : result Native :=
  match v with
  | NullV => Ok (zero sh)
  | ObjectV obj => through_optional (fun s => decodeMap decode s (Some obj)) sh
  | ObjectV_nil => through_optional (fun s => decodeMap decode s None) sh
  | ArrayV arr => through_optional (fun s => decodeArray decode s (Some arr)) sh
  | ArrayV_nil => through_optional (fun s => decodeArray decode s None) sh
  | nil_Value => Err NilDereference
  | _ => through_optional (fun s => assign s v) sh
  end.

(** Modelled from the spec: the decoder writes to the caller's variable
    once, after the whole value has been decoded; a failure writes
    nothing (section 4.3). *)
Definition commit (i : Dest) (r : result Native) : Dest * option error :=
  match r with
  | Ok n => (mkDest (shape i) n, None)
  | Err e => (i, Some e)
  end.

(** Modelled from the spec: the three entry points of the value decoder
    that [values.go] calls, [newValueDecoder(i).assign(v)],
    [.decodeMap(obj)] and [.decodeArray(arr)]. *)
Definition valueDecoder_assign (i : Dest) (v : Value) : Dest * option error :=
  commit i (through_optional (fun s => assign s v) (shape i)).

Definition valueDecoder_decodeMap (i : Dest)
    (obj : option (list (string * Value))) : Dest * option error :=
  commit i (through_optional (fun s => decodeMap decode s obj) (shape i)).

Definition valueDecoder_decodeArray (i : Dest) (arr : option (list Value))
  : Dest * option error :=
  commit i (through_optional (fun s => decodeArray decode s arr) (shape i)).

(** The [Get] methods of [values.go]: the destination before the call
    goes in, the destination after the call and the returned error come
    out.  [NullV.Get] is [return nil].  The nil interface has no method
    to call: the call panics, and nothing is written. *)
Definition Get (v : Value) (i : Dest) : Dest * option error :=
  match v with
  | StringV _ | LongV _ | DoubleV _ | BooleanV _ | DateV _ | TimeV _
  | RefV _ | SetRefV _ | SetRefV_nil => valueDecoder_assign i v
  | ObjectV obj => valueDecoder_decodeMap i (Some obj)
  | ObjectV_nil => valueDecoder_decodeMap i None
  | ArrayV arr => valueDecoder_decodeArray i (Some arr)
  | ArrayV_nil => valueDecoder_decodeArray i None
  | NullV => (i, None)
  | nil_Value => (i, Some NilDereference)
  end.

(* ------------------------------------------------------------------ *)
(** ** Field paths

    [values.go] gives every variant an [At] method that hands the value to
    the field: [field.get(value)].  The file of the field extractors is
    not part of the sources at hand; they are modelled from the
    specification and from the way the sources build them
    ([ObjKey("emails").AtIndex(0)]): a field is a path, an ordered list
    of steps (section 6), which may be empty. *)

(** Modelled from the spec: a step of a path, by key or by index. *)
Inductive Segment : Type :=
| ObjectSegment (key : string)
| ArraySegment (index : Z).

(** Modelled from the spec: a field is its path, the steps outermost
    first (section 6: an ordered list of "by key" and "by index"
    steps). *)
Record Field : Type := mkField {
  path : list Segment
}.

(** Modelled from the spec: the field extractors, named as the sources
    use them; [AtKey] and [AtIndex] add a step to a field. *)
Definition ObjKey (key : string) : Field := mkField [ObjectSegment key].

Definition ArrIndex (index : Z) : Field := mkField [ArraySegment index].

Definition AtKey (f : Field) (key : string) : Field :=
  mkField (path f ++ [ObjectSegment key]).

Definition AtIndex (f : Field) (index : Z) : Field :=
  mkField (path f ++ [ArraySegment index]).

(** Modelled from the spec: the result of a traversal, the value it
    reached or why it did not. *)
Inductive FieldValue : Type :=
| validField (value : Value)
| invalidField (err : error).

(** The map index [m[key]]. *)
Fixpoint lookup {A} (key : string) (m : list (string * A)) : option A :=
  match m with
  | [] => None
  | (k, x) :: rest => if String.eqb k key then Some x else lookup key rest
  end.

(** Modelled from the spec: one step of a field path (the field
    extractors are missing from the sources).  Sections 3 and 4.1: an
    Object looks up the requested key and an Array the requested index;
    the failures are a missing key, an index out of range, and "not
    transversable" for a step into a variant that is not a container.  A
    nil map has no key and a nil slice no index. *)
Definition segment_get (s : Segment) (v : Value) : result Value :=
  match v with
  | ObjectV obj =>
      match s with
      | ObjectSegment key =>
          match lookup key obj with
          | Some x => Ok x
          | None => Err (TraversalError (KeyNotFound key))
          end
      | ArraySegment index => Err (TraversalError (IndexOutOfRange index))
      end
  | ObjectV_nil =>
      match s with
      | ObjectSegment key => Err (TraversalError (KeyNotFound key))
      | ArraySegment index => Err (TraversalError (IndexOutOfRange index))
      end
  | ArrayV arr =>
      match s with
      | ArraySegment index =>
          if index <? 0 then Err (TraversalError (IndexOutOfRange index))
          else match nth_error arr (Z.to_nat index) with
               | Some x => Ok x
               | None => Err (TraversalError (IndexOutOfRange index))
               end
      | ObjectSegment key => Err (TraversalError (KeyNotFound key))
      end
  | ArrayV_nil =>
      match s with
      | ArraySegment index => Err (TraversalError (IndexOutOfRange index))
      | ObjectSegment key => Err (TraversalError (KeyNotFound key))
      end
  | _ => Err (TraversalError NotTransversable)
  end.

(** Modelled from the spec: the steps are taken in order, each against
    the value that the one before reached. *)
Fixpoint walk (segments : list Segment) (v : Value) : result Value :=
  match segments with
  | [] => Ok v
  | s :: rest => do x <- segment_get s v; walk rest x
  end.

(** Modelled from the spec: [field.get] walks the path against the value
    and stops at the first step that fails. *)
Definition field_get (f : Field) (v : Value) : FieldValue :=
  match walk (path f) v with
  | Ok x => validField x
  | Err e => invalidField e
  end.

(** The [At] methods of [values.go]: [return field.get(v)] for every
    variant.  The nil interface has no method to call: the call panics,
    and no value is reached. *)
Definition At (v : Value) (field : Field) : FieldValue :=
  match v with
  | nil_Value => invalidField NilDereference
  | _ => field_get field v
  end.

(** Modelled from the spec: [FieldValue.GetValue] gives the value that the
    path resolved to, or the failure of the path. *)
Definition GetValue (fv : FieldValue) : result Value :=
  match fv with
  | validField value => Ok value
  | invalidField err => Err err
  end.

(** Modelled from the spec: [FieldValue.Get] decodes the value that the
    path resolved to; a path that failed reports its own failure and
    leaves the destination alone. *)
Definition FieldValue_Get (fv : FieldValue) (i : Dest) : Dest * option error :=
  match fv with
  | validField value => Get value i
  | invalidField err => (i, Some err)
  end.

(* ------------------------------------------------------------------ *)
(** ** Reading dates and timestamps

    The payloads of [@date] and [@ts] are read by [parseJSON], whose file
    is not part of the sources at hand; the two readers are modelled from
    the formats that the specification gives (section 3). *)

Notation "'let?' p ':=' e 'in' k" :=
  (match e with
   | Some p => k
   | None => None
   end) (at level 10, p pattern, e at level 100, k at level 200).

Module TimeParse.

(** Modelled from the spec: exactly [n] decimal digits, read as a
    number. *)
Fixpoint take_digits (n : nat) (acc : Z) (s : string) : option (Z * string) :=
  match n with
  | O => Some (acc, s)
  | S k =>
      match s with
      | String c r =>
          if is_digit c then take_digits k (10 * acc + (code c - 48)) r
          else None
      | EmptyString => None
      end
  end.

Definition expect (c : ascii) (s : string) : option string :=
  match s with
  | String x r => if Ascii.eqb x c then Some r else None
  | EmptyString => None
  end.

(** Modelled from the spec: year, month and day of a calendar date
    [YYYY-MM-DD], validated. *)
Definition read_date (s : string) : option (Z * Z * Z * string) :=
  let? (year, s) := take_digits 4 0 s in
  let? s := expect "-" s in
  let? (month, s) := take_digits 2 0 s in
  let? s := expect "-" s in
  let? (day, s) := take_digits 2 0 s in
  if (1 <=? month) && (month <=? 12) && (1 <=? day) && (day <=? daysIn month year)
  then Some (year, month, day, s)
  else None.

(** Modelled from the spec: up to nine digits of a fractional second,
    as nanoseconds. *)
Fixpoint read_fraction (n : nat) (scale acc : Z) (s : string) : Z * string :=
  match n with
  | O => (acc * scale, s)
  | S k =>
      match s with
      | String c r =>
          if is_digit c
          then read_fraction k (scale / 10) (10 * acc + (code c - 48)) r
          else (acc * scale, s)
      | EmptyString => (acc * scale, s)
      end
  end.

(** Modelled from the spec: the payload of [@date], a calendar date
    [YYYY-MM-DD]; the value is that day at midnight UTC. *)
Definition parse_date (s : string) : option Time :=
  let? (year, month, day, s) := read_date s in
  match s with
  | EmptyString => Some (mkTime (Date year month day 0 0 0) 0 0)
  | _ => None
  end.

(** Modelled from the spec: the optional fraction of a second, a point
    and one to nine digits. *)
Definition read_nanos (s : string) : option (Z * string) :=
  match s with
  | String c r =>
      if Ascii.eqb c "."%char then
        match r with
        | String c1 _ =>
            if is_digit c1 then Some (read_fraction 9 (10 ^ 9) 0 r) else None
        | EmptyString => None
        end
      else Some (0, s)
  | EmptyString => None
  end.

(** Modelled from the spec: the payload of [@ts], an instant
    [YYYY-MM-DDTHH:MM:SS] with an optional fraction of one to nine digits
    and the suffix [Z]; the value is that instant, in UTC. *)
Definition parse_ts (s : string) : option Time :=
  let? (year, month, day, s) := read_date s in
  let? s := expect "T" s in
  let? (hour, s) := take_digits 2 0 s in
  let? s := expect ":" s in
  let? (min, s) := take_digits 2 0 s in
  let? s := expect ":" s in
  let? (sec, s) := take_digits 2 0 s in
  if (hour <? 24) && (min <? 60) && (sec <? 60) then
    let? (nanos, s) := read_nanos s in
    match s with
    | String c EmptyString =>
        if Ascii.eqb c "Z"%char
        then Some (mkTime (Date year month day hour min sec) nanos 0)
        else None
    | _ => None
    end
  else None.

End TimeParse.

Import TimeParse.

(* ------------------------------------------------------------------ *)
(** ** Reading JSON: the intermediate generic form

    [parseJSON] is called by [client.go] but its file is not part of the
    sources at hand.  The specification (section 4.2) has it parse the
    document into an intermediate generic form first; the reader below
    follows the JSON grammar.  Numbers keep their text. *)

Module JSONRead.

(** Modelled from the spec: the intermediate generic form of a
    document. *)
Inductive json : Type :=
| JNull
| JBool (b : bool)
| JNumber (lit : string)
| JString (s : string)
| JArray (elems : list json)
| JObject (members : list (string * json)).

Definition is_ws (c : ascii) : bool :=
  let n := code c in (n =? 32) || (n =? 9) || (n =? 10) || (n =? 13).

Fixpoint skip_ws (s : string) : string :=
  match s with
  | String c r => if is_ws c then skip_ws r else s
  | EmptyString => s
  end.

Definition hex_val (c : ascii) : option Z :=
  let n := code c in
  if (48 <=? n) && (n <=? 57) then Some (n - 48)
  else if (97 <=? n) && (n <=? 102) then Some (n - 87)
  else if (65 <=? n) && (n <=? 70) then Some (n - 55)
  else None.

Definition hex4 (a b c d : ascii) : option Z :=
  let? x := hex_val a in
  let? y := hex_val b in
  let? z := hex_val c in
  let? w := hex_val d in
  Some (((x * 16 + y) * 16 + z) * 16 + w).

(** The UTF-8 encoding of a code point. *)
Definition utf8_encode (cp : Z) : string :=
  if cp <? 128 then String (byte_of cp) EmptyString
  else if cp <? 2048 then
    String (byte_of (192 + cp / 64)) (String (byte_of (128 + cp mod 64)) EmptyString)
  else if cp <? 65536 then
    String (byte_of (224 + cp / 4096))
      (String (byte_of (128 + (cp / 64) mod 64))
         (String (byte_of (128 + cp mod 64)) EmptyString))
  else
    String (byte_of (240 + cp / 262144))
      (String (byte_of (128 + (cp / 4096) mod 64))
         (String (byte_of (128 + (cp / 64) mod 64))
            (String (byte_of (128 + cp mod 64)) EmptyString))).

Definition is_surrogate (cp : Z) : bool := (55296 <=? cp) && (cp <=? 57343).

(** Modelled from the spec: the characters of a JSON string literal
    after its opening quote, up to and without the closing quote, and what
    follows the literal.  An escaped surrogate is read as U+FFFD. *)
Fixpoint read_chars (s : string) : option (string * string) :=
  match s with
  | EmptyString => None
  | String c r =>
      if Ascii.eqb c DQ then Some (EmptyString, r)
      else if Ascii.eqb c "\"%char then
        match r with
        | String e r1 =>
            if Ascii.eqb e "u"%char then
              match r1 with
              | String h1 (String h2 (String h3 (String h4 r2))) =>
                  let? cp := hex4 h1 h2 h3 h4 in
                  let? (body, rest) := read_chars r2 in
                  Some (utf8_encode (if is_surrogate cp then 65533 else cp)
                          +++ body, rest)
              | _ => None
              end
            else
              let? x :=
                (if Ascii.eqb e DQ then Some e
                 else if Ascii.eqb e "\"%char then Some e
                 else if Ascii.eqb e "/"%char then Some e
                 else if Ascii.eqb e "b"%char then Some (byte_of 8)
                 else if Ascii.eqb e "f"%char then Some (byte_of 12)
                 else if Ascii.eqb e "n"%char then Some (byte_of 10)
                 else if Ascii.eqb e "r"%char then Some (byte_of 13)
                 else if Ascii.eqb e "t"%char then Some (byte_of 9)
                 else None) in
              let? (body, rest) := read_chars r1 in
              Some (String x body, rest)
        | EmptyString => None
        end
      else if code c <? 32 then None
      else
        let? (body, rest) := read_chars r in
        Some (String c body, rest)
  end.

Fixpoint span (p : ascii -> bool) (s : string) : string * string :=
  match s with
  | String c r =>
      if p c then let '(a, b) := span p r in (String c a, b)
      else (EmptyString, s)
  | EmptyString => (EmptyString, EmptyString)
  end.

Definition is_num_char (c : ascii) : bool :=
  is_digit c || existsb (Ascii.eqb c) (list_ascii_of_string "+-.eE").

Definition digits1 (s : string) : option string :=
  match span is_digit s with
  | (EmptyString, _) => None
  | (_, rest) => Some rest
  end.

(** Modelled from the spec: the grammar of a JSON number, an optional
    minus, an integer part without a leading zero, an optional fraction,
    an optional exponent. *)
Definition number_ok (tok : string) : bool :=
  let unsigned :=
    match tok with
    | String c r => if Ascii.eqb c "-"%char then r else tok
    | EmptyString => tok
    end in
  let after_int :=
    match unsigned with
    | String c r =>
        if Ascii.eqb c "0"%char then Some r else digits1 unsigned
    | EmptyString => None
    end in
  let after_frac :=
    let? s := after_int in
    match s with
    | String c r => if Ascii.eqb c "."%char then digits1 r else Some s
    | EmptyString => Some s
    end in
  let after_exp :=
    let? s := after_frac in
    match s with
    | String c r =>
        if Ascii.eqb c "e"%char || Ascii.eqb c "E"%char then
          match r with
          | String g r1 =>
              if Ascii.eqb g "+"%char || Ascii.eqb g "-"%char then digits1 r1
              else digits1 r
          | EmptyString => None
          end
        else Some s
    | EmptyString => Some s
    end in
  match after_exp with
  | Some EmptyString => true
  | _ => false
  end.

Definition literal (word : string) (j : json) (s : string) : option (json * string) :=
  if String.prefix word s
  then Some (j, String.substring (String.length word)
                  (String.length s - String.length word) s)
  else None.

(** Modelled from the spec: storing a member in the map of an object; a
    key that is already there gets the new value. *)
Fixpoint put {A} (key : string) (x : A) (m : list (string * A)) : list (string * A) :=
  match m with
  | [] => [(key, x)]
  | (k, y) :: rest =>
      if String.eqb k key then (k, x) :: rest else (k, y) :: put key x rest
  end.

Definition to_map {A} (members : list (string * A)) : list (string * A) :=
  fold_left (fun m kv => put (fst kv) (snd kv) m) members [].

(** Modelled from the spec: the reader proper, a recursive descent on
    the JSON grammar.  [fuel] bounds the depth of the calls; the length of
    the document is always enough. *)
Fixpoint read_value (fuel : nat) (s : string) {struct fuel} : option (json * string) :=
  match fuel with
  | O => None
  | S k =>
      match skip_ws s with
      | EmptyString => None
      | String c r =>
          if Ascii.eqb c "{"%char then
            match skip_ws r with
            | String c1 r1 =>
                if Ascii.eqb c1 "}"%char then Some (JObject [], r1)
                else let? (ms, rest) := read_members k r in
                     Some (JObject (to_map ms), rest)
            | EmptyString => None
            end
          else if Ascii.eqb c "["%char then
            match skip_ws r with
            | String c1 r1 =>
                if Ascii.eqb c1 "]"%char then Some (JArray [], r1)
                else let? (vs, rest) := read_elems k r in
                     Some (JArray vs, rest)
            | EmptyString => None
            end
          else if Ascii.eqb c DQ then
            let? (str, rest) := read_chars r in Some (JString str, rest)
          else if Ascii.eqb c "t"%char then literal "true" (JBool true) (String c r)
          else if Ascii.eqb c "f"%char then literal "false" (JBool false) (String c r)
          else if Ascii.eqb c "n"%char then literal "null" JNull (String c r)
          else
            let '(tok, rest) := span is_num_char (String c r) in
            if number_ok tok then Some (JNumber tok, rest) else None
      end
  end
with read_elems (fuel : nat) (s : string) {struct fuel} : option (list json * string) :=
  match fuel with
  | O => None
  | S k =>
      let? (v, r) := read_value k s in
      match skip_ws r with
      | String c r1 =>
          if Ascii.eqb c ","%char then
            let? (vs, rest) := read_elems k r1 in Some (v :: vs, rest)
          else if Ascii.eqb c "]"%char then Some ([v], r1)
          else None
      | EmptyString => None
      end
  end
with read_members (fuel : nat) (s : string) {struct fuel}
  : option (list (string * json) * string) :=
  match fuel with
  | O => None
  | S k =>
      match skip_ws s with
      | String q r =>
          if Ascii.eqb q DQ then
            let? (key, r1) := read_chars r in
            match skip_ws r1 with
            | String c r2 =>
                if Ascii.eqb c ":"%char then
                  let? (v, r3) := read_value k r2 in
                  match skip_ws r3 with
                  | String c3 r4 =>
                      if Ascii.eqb c3 ","%char then
                        let? (ms, rest) := read_members k r4 in
                        Some ((key, v) :: ms, rest)
                      else if Ascii.eqb c3 "}"%char then Some ([(key, v)], r4)
                      else None
                  | EmptyString => None
                  end
                else None
            | EmptyString => None
            end
          else None
      | EmptyString => None
      end
  end.

(** Modelled from the spec: a document is one value, with nothing but
    white space around it. *)
Definition read_document (s : string) : option json :=
  let? (j, rest) := read_value (S (String.length s)) s in
  match skip_ws rest with
  | EmptyString => Some j
  | _ => None
  end.

End JSONRead.

Import JSONRead.

(* ------------------------------------------------------------------ *)
(** ** Reading JSON: from the generic form to values *)

Definition in_int64 (z : Z) : bool := (- 2 ^ 63 <=? z) && (z <? 2 ^ 63).

(** [strconv.ParseInt(lit, 10, 64)] on a literal made of an optional minus
    and digits. *)
Definition atoi (lit : string) : Z :=
  match lit with
  | String c r =>
      if Ascii.eqb c "-"%char then - digits_value (list_ascii_of_string r)
      else digits_value (list_ascii_of_string lit)
  | EmptyString => 0
  end.

Definition integer_literal (lit : string) : bool :=
  all_chars (fun c => is_digit c || Ascii.eqb c "-"%char) lit.

Section Decoding.

(** [strconv.ParseFloat(lit, 64)]: the [float64] nearest to a decimal
    text.  Like [formatFloat], it is not modelled further. *)
Variable parseFloat : string -> option spec_float.

(** Modelled from the spec: a JSON number becomes its matching variant,
    an Integer when the text is that of a 64-bit integer and a Double
    otherwise. *)
Definition number_value (lit : string) : result Value :=
  if integer_literal lit && in_int64 (atoi lit) then Ok (LongV (atoi lit))
  else match parseFloat lit with
       | Some f => Ok (DoubleV f)
       | None => Err SyntaxError
       end.

(** Modelled from the spec: the members of a JSON object as the entries
    of a map of values. *)
Definition members_value (value : json -> result Value)
    (members : list (string * json)) : result (list (string * Value)) :=
  sequence (map (fun kv => let '(k, j) := kv in
                           do v <- value j; Ok (k, v)) members).

(** Modelled from the spec: the classification of a node of the generic
    form by its shape (section 4.2).  A single-key object whose key is a
    reserved tag becomes the typed variant, and a payload that does not
    have the tag's format is an error; a single-key object whose key is
    [object] and whose payload is a mapping becomes the Object of that
    mapping; any other object becomes an Object directly. *)
Fixpoint to_value (j : json) : result Value :=
  match j with
  | JNull => Ok NullV
  | JBool b => Ok (BooleanV b)
  | JNumber lit => number_value lit
  | JString s => Ok (StringV s)
  | JArray elems => do vs <- sequence (map to_value elems); Ok (ArrayV vs)
  | JObject members =>
      let permissive :=
        do m <- members_value to_value members; Ok (ObjectV m) in
      match members with
      | [(key, payload)] =>
          if String.eqb key "@date" then
            match payload with
            | JString s =>
                match parse_date s with
                | Some t => Ok (DateV t)
                | None => Err (WireFormatError key s)
                end
            | _ => Err (WireFormatError key EmptyString)
            end
          else if String.eqb key "@ts" then
            match payload with
            | JString s =>
                match parse_ts s with
                | Some t => Ok (TimeV t)
                | None => Err (WireFormatError key s)
                end
            | _ => Err (WireFormatError key EmptyString)
            end
          else if String.eqb key "@ref" then
            match payload with
            | JString s => Ok (RefV s)
            | _ => Err (WireFormatError key EmptyString)
            end
          else if String.eqb key "@set" then
            match payload with
            | JObject params =>
                do m <- members_value to_value params; Ok (SetRefV m)
            | _ => Err (WireFormatError key EmptyString)
            end
          else if String.eqb key "object" then
            match payload with
            | JObject inner =>
                do m <- members_value to_value inner; Ok (ObjectV m)
            | _ => permissive
            end
          else permissive
      | _ => permissive
      end
  end.

(** Modelled from the spec: [parseJSON], the reader of a response body
    (its file is missing from the sources). *)
Definition parseJSON (body : string) : result Value :=
  match read_document body with
  | Some j => to_value j
  | None => Err SyntaxError
  end.

(* ------------------------------------------------------------------ *)
(** ** [faunadb/client.go]: the response path *)

Record Response : Type := mkResponse {
  StatusCode : Z;
  Body : string
}.

(** [var resource = ObjKey("resource")]. *)
Definition resource : Field := ObjKey "resource".

(** [FaunaClient.parseResponse]. *)
Definition parseResponse (response : Response) : result Value :=
  match parseJSON (Body response) with
  | Err err => Err err
  | Ok value => GetValue (At value resource)
  end.

(** The transport.  [FaunaClient.performRequest] encodes the expression,
    posts it with [client.http.Do] and answers with the response or with
    the error: its outcome is the network's.  [checkForResponseErrors],
    which turns an error status into an error, is not part of the sources
    at hand.  Both are taken as they come. *)
Variable Expr : Type.
Variable performRequest : Expr -> result Response.
Variable checkForResponseErrors : Response -> option error.

(** [FaunaClient.Query]. *)
Definition Query (expr : Expr) : result Value :=
  match performRequest expr with
  | Err err => Err err
  | Ok response =>
      match checkForResponseErrors response with
      | Some err => Err err
      | None => parseResponse response
      end
  end.

End Decoding.

(* ------------------------------------------------------------------ *)
(** ** Vocabulary of the statements *)

(** The Object of the specification's scenario. *)
Definition bob : Value :=
  ObjectV [("name", StringV "Bob"); ("age", LongV 30)].




(** Every element of a container decodes into the shape [e]. *)
Definition decodes (e : Shape) (x : Value) : Prop :=
  exists n : Native, decode x e = Ok n.

(** The order in which the encoder writes the entries of a map. *)
Definition key_le {A} (x y : string * A) : Prop :=
  String.leb (fst x) (fst y) = true.

(** One Go value seen through two iteration orders of its maps, at any
    depth: the entries of a map may come in any order. *)
Inductive same_value : Value -> Value -> Prop :=
| same_refl v : same_value v v
| same_SetRefV m m' : same_entries m m' -> same_value (SetRefV m) (SetRefV m')
| same_ObjectV m m' : same_entries m m' -> same_value (ObjectV m) (ObjectV m')
| same_ArrayV l l' : same_elems l l' -> same_value (ArrayV l) (ArrayV l')
with same_entries : list (string * Value) -> list (string * Value) -> Prop :=
| same_entries_nil : same_entries [] []
| same_entries_cons k v v' m m' :
    same_value v v' -> same_entries m m' ->
    same_entries ((k, v) :: m) ((k, v') :: m')
| same_entries_swap e1 e2 m : same_entries (e1 :: e2 :: m) (e2 :: e1 :: m)
| same_entries_trans m1 m2 m3 :
    same_entries m1 m2 -> same_entries m2 m3 -> same_entries m1 m3
with same_elems : list Value -> list Value -> Prop :=
| same_elems_nil : same_elems [] []
| same_elems_cons v v' l l' :
    same_value v v' -> same_elems l l' -> same_elems (v :: l) (v' :: l').

Scheme same_value_min := Minimality for same_value Sort Prop
  with same_entries_min := Minimality for same_entries Sort Prop
  with same_elems_min := Minimality for same_elems Sort Prop.

Combined Scheme same_value_mutind
  from same_value_min, same_entries_min, same_elems_min.

Fixpoint distinct (keys : list string) : bool :=
  match keys with
  | [] => true
  | k :: rest => negb (existsb (String.eqb k) rest) && distinct rest
  end.

(** The keys of every map of a value are pairwise distinct, as they are
    in a Go map. *)
Fixpoint unique_keys (v : Value) : bool :=
  match v with
  | SetRefV m | ObjectV m =>
      distinct (map fst m) && forallb (fun e => unique_keys (snd e)) m
  | ArrayV l => forallb unique_keys l
  | _ => true
  end.

(** The two halves of [absDate]: the year and the day of the year that a
    number of days since the absolute epoch falls in, and the month and
    the day of the month of a day of the year. *)
Definition year_day (d : Z) : Z * Z :=
  let n := d / daysPer400Years in
  let y := 400 * n in
  let d := d - daysPer400Years * n in
  let n := d / daysPer100Years in
  let n := n - Z.shiftr n 2 in
  let y := y + 100 * n in
  let d := d - daysPer100Years * n in
  let n := d / daysPer4Years in
  let y := y + 4 * n in
  let d := d - daysPer4Years * n in
  let n := d / 365 in
  let n := n - Z.shiftr n 2 in
  let y := y + n in
  let d := d - 365 * n in
  (y, d).

Definition month_day (leap : bool) (day : Z) : Z * Z :=
  if leap && (day =? 31 + 29 - 1) then (2, 29)
  else
    let day := if leap && (31 + 29 - 1 <? day) then day - 1 else day in
    let month := day / 31 in
    let e := daysBefore (month + 1) in
    if e <=? day then (month + 1 + 1, day - e + 1)
    else (month + 1, day - daysBefore month + 1).

(** The days that [time.Date] counts before a year of the absolute
    calendar, and before a day of a year. *)
Definition days_before_year (y : Z) : Z :=
  let n := y / 400 in
  let y := y - 400 * n in
  let d := daysPer400Years * n in
  let n := y / 100 in
  let y := y - 100 * n in
  let d := d + daysPer100Years * n in
  let n := y / 4 in
  let y := y - 4 * n in
  let d := d + daysPer4Years * n in
  d + 365 * y.

Definition day_of_year (leap : bool) (month day : Z) : Z :=
  daysBefore (month - 1) + (if leap && (3 <=? month) then 1 else 0) + (day - 1).

(* ------------------------------------------------------------------ *)
(** ** Vocabulary of the round trip *)

(** The number that a string of decimal digits denotes. *)
Definition string_value (s : string) : Z := digits_value (list_ascii_of_string s).

(** A function applied to the value of an entry. *)
Definition on_value {A B} (f : A -> B) (kv : string * A) : string * B :=
  let '(k, a) := kv in (k, f a).

(** The text of a document of the generic form, written the way the
    encoder writes: no white space, members in the order of the list. *)
Fixpoint render (j : json) : string :=
  match j with
  | JNull => "null"
  | JBool b => if b then "true" else "false"
  | JNumber lit => lit
  | JString s => quote s
  | JArray elems => "[" +++ join "," (map render elems) +++ "]"
  | JObject members =>
      "{" +++ join "," (map (fun kv => let '(k, x) := kv in
                                       member (k, render x)) members)
          +++ "}"
  end.

(** Strings on which [utf8.DecodeRuneInString] never yields [RuneError]:
    valid UTF-8.  [pending] counts the bytes of the current rune that are
    still to come. *)
Fixpoint valid_utf8 (pending : nat) (s : string) : bool :=
  match s with
  | EmptyString => Nat.eqb pending 0
  | String b r =>
      match pending with
      | S k => valid_utf8 k r
      | O =>
          if code b <? 128 then valid_utf8 0 r
          else match rune_size s with
               | Some sz => valid_utf8 (sz - 1) r
               | None => false
               end
      end
  end.

Definition clean (s : string) : bool := valid_utf8 0 s.

Definition civil_year (t : Time) : Z := fst (fst (absDate (abs t))).

(** A Time that the wire format can carry: held in UTC, with a year of
    four digits. *)
Definition wire_time (t : Time) : bool :=
  (offset t =? 0) && (0 <=? nsec t) && (nsec t <? 10 ^ 9)
  && (0 <=? unix t + unixToAbsolute) && (unix t + unixToAbsolute <? 2 ^ 64)
  && (0 <=? civil_year t) && (civil_year t <=? 9999).

(** A Date that the wire format can carry: midnight UTC of a day of a
    year of four digits. *)
Definition wire_date (t : Time) : bool :=
  wire_time t && (nsec t =? 0) && (unix t mod secondsPerDay =? 0).

Definition finite (f : spec_float) : bool :=
  match f with
  | S754_zero _ | S754_finite _ _ _ => true
  | S754_infinity _ | S754_nan => false
  end.

Section RoundTrip.

Variable formatFloat : spec_float -> string.
Variable parseFloat : string -> option spec_float.

(** A Double that the wire format can carry: it is finite, and its text
    is a JSON number, not that of a 64-bit integer, that reads back as the
    same Double. *)
Definition wire_float (f : spec_float) : Prop :=
  finite f = true /\
  number_ok (formatFloat f) = true /\
  all_chars is_num_char (formatFloat f) = true /\
  integer_literal (formatFloat f) && in_int64 (atoi (formatFloat f)) = false /\
  parseFloat (formatFloat f) = Some f.

(** The values that the wire format can carry.  A nil slice, a nil map
    and a nil element are not among them: they are written as [null]. *)
Fixpoint wire_safe (v : Value) : Prop :=
  match v with
  | StringV str => clean str = true
  | LongV num => in_int64 num = true
  | DoubleV num => wire_float num
  | BooleanV _ => True
  | DateV date => wire_date date = true
  | TimeV localTime => wire_time localTime = true
  | RefV ID => clean ID = true
  | SetRefV m | ObjectV m =>
      distinct (map fst m) = true /\
      (fix all (m : list (string * Value)) : Prop :=
         match m with
         | [] => True
         | (k, x) :: rest => clean k = true /\ wire_safe x /\ all rest
         end) m
  | ArrayV l =>
      (fix all (l : list Value) : Prop :=
         match l with
         | [] => True
         | x :: rest => wire_safe x /\ all rest
         end) l
  | NullV => True
  | SetRefV_nil | ObjectV_nil | ArrayV_nil | nil_Value => False
  end.

(** The document, in the generic form, that the encoding of a value
    is the text of. *)
Fixpoint wire (v : Value) : json :=
  match v with
  | StringV str => JString str
  | LongV num => JNumber (formatInt num)
  | DoubleV num => JNumber (formatFloat num)
  | BooleanV boolean => JBool boolean
  | DateV date => JObject [("@date", JString (Format_date date))]
  | TimeV localTime => JObject [("@ts", JString (Format_ts localTime))]
  | RefV ID => JObject [("@ref", JString ID)]
  | SetRefV m =>
      JObject [("@set",
                JObject (sort_entries
                           (map (fun kv => let '(k, x) := kv in (k, wire x)) m)))]
  | ObjectV m =>
      JObject [("object",
                JObject (sort_entries
                           (map (fun kv => let '(k, x) := kv in (k, wire x)) m)))]
  | ArrayV l => JArray (map wire l)
  | NullV => JNull
  | SetRefV_nil => JObject [("@set", JNull)]
  | ObjectV_nil => JObject [("object", JNull)]
  | ArrayV_nil | nil_Value => JNull
  end.

End RoundTrip.

(** The value with the entries of its maps in the order of the keys, at
    every depth: the order in which a decoded document lists them. *)
Fixpoint canon (v : Value) : Value :=
  match v with
  | SetRefV m =>
      SetRefV (sort_entries (map (fun kv => let '(k, x) := kv in (k, canon x)) m))
  | ObjectV m =>
      ObjectV (sort_entries (map (fun kv => let '(k, x) := kv in (k, canon x)) m))
  | ArrayV l => ArrayV (map canon l)
  | _ => v
  end.

(** Induction on values and on documents, through their lists. *)
Fixpoint Value_nested_ind (P : Value -> Prop)
    (Hstr : forall s, P (StringV s)) (Hlong : forall n, P (LongV n))
    (Hdbl : forall f, P (DoubleV f)) (Hbool : forall b, P (BooleanV b))
    (Hdate : forall t, P (DateV t)) (Htime : forall t, P (TimeV t))
    (Href : forall s, P (RefV s))
    (Hset : forall m, Forall (fun kv => P (snd kv)) m -> P (SetRefV m))
    (Hobj : forall m, Forall (fun kv => P (snd kv)) m -> P (ObjectV m))
    (Harr : forall l, Forall P l -> P (ArrayV l))
    (Hnull : P NullV)
    (Hsetnil : P SetRefV_nil) (Hobjnil : P ObjectV_nil)
    (Harrnil : P ArrayV_nil) (Hnil : P nil_Value)
    (v : Value) {struct v} : P v :=
  let rec := Value_nested_ind P Hstr Hlong Hdbl Hbool Hdate Htime Href
               Hset Hobj Harr Hnull Hsetnil Hobjnil Harrnil Hnil in
  let entries_ind :=
    fix go (m : list (string * Value)) : Forall (fun kv => P (snd kv)) m :=
      match m with
      | [] => Forall_nil _
      | kv :: rest => Forall_cons kv (rec (snd kv)) (go rest)
      end in
  match v with
  | StringV s => Hstr s
  | LongV n => Hlong n
  | DoubleV f => Hdbl f
  | BooleanV b => Hbool b
  | DateV t => Hdate t
  | TimeV t => Htime t
  | RefV s => Href s
  | SetRefV m => Hset m (entries_ind m)
  | ObjectV m => Hobj m (entries_ind m)
  | ArrayV l =>
      Harr l ((fix go (l : list Value) : Forall P l :=
                 match l with
                 | [] => Forall_nil _
                 | x :: rest => Forall_cons x (rec x) (go rest)
                 end) l)
  | NullV => Hnull
  | SetRefV_nil => Hsetnil
  | ObjectV_nil => Hobjnil
  | ArrayV_nil => Harrnil
  | nil_Value => Hnil
  end.

Fixpoint json_nested_ind (P : json -> Prop)
    (Hnull : P JNull) (Hbool : forall b, P (JBool b))
    (Hnum : forall lit, P (JNumber lit)) (Hstr : forall s, P (JString s))
    (Harr : forall l, Forall P l -> P (JArray l))
    (Hobj : forall m, Forall (fun kv => P (snd kv)) m -> P (JObject m))
    (j : json) {struct j} : P j :=
  let rec := json_nested_ind P Hnull Hbool Hnum Hstr Harr Hobj in
  match j with
  | JNull => Hnull
  | JBool b => Hbool b
  | JNumber lit => Hnum lit
  | JString s => Hstr s
  | JArray l =>
      Harr l ((fix go (l : list json) : Forall P l :=
                 match l with
                 | [] => Forall_nil _
                 | x :: rest => Forall_cons x (rec x) (go rest)
                 end) l)
  | JObject m =>
      Hobj m ((fix go (m : list (string * json)) : Forall (fun kv => P (snd kv)) m :=
                 match m with
                 | [] => Forall_nil _
                 | kv :: rest => Forall_cons kv (rec (snd kv)) (go rest)
                 end) m)
  end.

(** [appendInt x w] is [w] digits that denote [x]. *)
Definition appendInt_exact (w : nat) (x : Z) : bool :=
  Nat.eqb (String.length (appendInt x w)) w
  && all_chars is_digit (appendInt x w)
  && (string_value (appendInt x w) =? x).

(** What the encoder writes for one byte below [utf8.RuneSelf]. *)
Definition ascii_piece (c : ascii) : string :=
  if htmlSafe (code c) then String c EmptyString else escape_byte c.

(** The first [k] bytes of a string are there and are not ASCII. *)
Fixpoint high_prefix (k : nat) (s : string) : bool :=
  match k with
  | O => true
  | S k' =>
      match s with
      | String b r => (128 <=? code b) && high_prefix k' r
      | EmptyString => false
      end
  end.

(** The documents that the reader reads back from their text. *)
Fixpoint readable (j : json) : Prop :=
  match j with
  | JNull | JBool _ => True
  | JNumber lit => number_ok lit = true /\ all_chars is_num_char lit = true
  | JString s => clean s = true
  | JArray l =>
      (fix all (l : list json) : Prop :=
         match l with
         | [] => True
         | x :: rest => readable x /\ all rest
         end) l
  | JObject m =>
      distinct (map fst m) = true /\
      (fix all (m : list (string * json)) : Prop :=
         match m with
         | [] => True
         | (k, x) :: rest => clean k = true /\ readable x /\ all rest
         end) m
  end.

(** The fuel that reading a document takes. *)
Fixpoint fuel_of (j : json) : nat :=
  match j with
  | JArray l =>
      S ((fix go (l : list json) : nat :=
            match l with
            | [] => O
            | x :: rest => S (Nat.max (fuel_of x) (go rest))
            end) l)
  | JObject m =>
      S ((fix go (m : list (string * json)) : nat :=
            match m with
            | [] => O
            | (_, x) :: rest => S (Nat.max (fuel_of x) (go rest))
            end) m)
  | _ => 1%nat
  end.

Definition fuel_of_elems (l : list json) : nat :=
  fold_right (fun x n => S (Nat.max (fuel_of x) n)) 0%nat l.

Definition fuel_of_members (m : list (string * json)) : nat :=
  fold_right (fun kv n => S (Nat.max (fuel_of (snd kv)) n)) 0%nat m.

(** What may follow a value in a text: nothing, or a character that does
    not continue a number. *)
Definition boundary (rest : string) : Prop :=
  match rest with
  | String c _ => is_num_char c = false
  | EmptyString => True
  end.

(** The characters that a value starts with. *)
Definition value_start (c : ascii) : bool :=
  is_digit c
  || existsb (Z.eqb (code c)) [123; 91; 34; 116; 102; 110; 45].

Definition render_member (kv : string * json) : string :=
  let '(k, x) := kv in member (k, render x).

(** The representative values of the round trip: an empty Object, an
    empty Array, a negative Integer, a Time at nanosecond precision, a
    Date at the last day of a year and one at a leap day, and nested
    maps. *)
Definition representatives : Value :=
  ArrayV [ObjectV []; ArrayV []; LongV (-42);
          TimeV (mkTime 1592216430 123456789 0);
          DateV (mkTime 1609372800 0 0); DateV (mkTime 951782400 0 0);
          ObjectV [("name", StringV "Bob"); ("age", LongV 30);
                   ("tags", ArrayV [StringV "a<b"; NullV; BooleanV true])];
          SetRefV [("match", RefV "indexes/spells_by_element");
                   ("terms", StringV "fire")]].

(** A Date that carries a time of day: June 15, 2020, 10:20:30 UTC. *)
Definition date_with_clock : Value := DateV (mkTime 1592216430 0 0).

(** A String that is not valid UTF-8: the single byte [0xff]. *)
Definition stray_byte : Value := StringV (String (byte_of 255) EmptyString).

(** The [float64] values 2 and 2.5, and the Doubles that hold a NaN, 2
    and 2.5. *)
Definition float_two : spec_float := S754_finite false 4503599627370496 (-51).
Definition float_two_and_a_half : spec_float :=
  S754_finite false 5629499534213120 (-51).

Definition not_a_number : Value := DoubleV S754_nan.
Definition whole_double : Value := DoubleV float_two.
Definition fractional_double : Value := DoubleV float_two_and_a_half.

(** A Time held in a location one hour east of UTC: June 15, 2020,
    10:20:30.5 UTC, which is 11:20:30.5 there. *)
Definition east_of_UTC : Time := mkTime 1592216430 500000000 3600.

(* ------------------------------------------------------------------ *)
(** ** Vocabulary of the encoder's further properties *)

(** Every Double of a value, at any depth, is finite. *)
Fixpoint all_finite (v : Value) : bool :=
  match v with
  | DoubleV num => finite num
  | SetRefV m | ObjectV m => forallb (fun e => all_finite (snd e)) m
  | ArrayV l => forallb all_finite l
  | _ => true
  end.

(** The error at the root of an error of [json.Marshal]: what is left
    when the [MarshalerError]s around it are taken off. *)
Fixpoint cause (e : error) : error :=
  match e with
  | MarshalerError _ err => cause err
  | _ => e
  end.

(** An encoding, or the refusal of a Double that is not finite: the error
    of the encoder has the error of that Double at its root. *)
Definition encodes_or_refuses (fmt : spec_float -> string) (v : Value) : Prop :=
  (all_finite v = true -> exists enc, Marshal fmt v = Ok enc) /\
  (all_finite v = false ->
   exists f err,
     finite f = false /\ Marshal fmt v = Err err /\
     cause err = UnsupportedValueError f).

(** The variant that the first bytes of an encoding announce. *)
Definition wire_variant (enc : string) : option Variant :=
  if prefix (dq "{'@date':") enc then Some VDate
  else if prefix (dq "{'@ts':") enc then Some VTime
  else if prefix (dq "{'@ref':") enc then Some VReference
  else if prefix (dq "{'@set':") enc then Some VSetReference
  else if prefix (dq "{'object':") enc then Some VObject
  else
    match enc with
    | String c _ =>
        if Ascii.eqb c "["%char then Some VArray
        else if Ascii.eqb c DQ then Some VString
        else if Ascii.eqb c "n"%char then Some VNull
        else if Ascii.eqb c "t"%char || Ascii.eqb c "f"%char then Some VBoolean
        else if is_digit c || Ascii.eqb c "-"%char then Some VInteger
        else None
    | EmptyString => None
    end.

(** The bytes that may stand in a text embedded in HTML or in a line of a
    log: no byte below the space (the control characters that JSON does
    not allow in a string), and none of [<], [>] and [&]. *)
Definition plain_byte (c : ascii) : bool :=
  (32 <=? code c)
  && negb (code c =? 38) && negb (code c =? 60) && negb (code c =? 62).

(** June 15, 2020, 10:20:30 UTC. *)
Definition date_with_clock_time : Time := mkTime 1592216430 0 0.

(** The Object of the scenario with its entries in the other order. *)
Definition bob_by_age : Value :=
  ObjectV [("age", LongV 30); ("name", StringV "Bob")].

(** A String with characters that HTML and line-oriented logs give a
    meaning to: [<b>], a line feed, [&] and the byte 1; and the bytes of
    its encoding. *)
Definition hostile_text : Value :=
  StringV ("<b>" +++ String (byte_of 10) ("&" +++ String (byte_of 1) EmptyString)).

Definition hostile_text_encoding : string :=
  String DQ ("\u003cb\u003e\n\u0026\u0001" +++ String DQ EmptyString).

(* ------------------------------------------------------------------ *)
(** ** Go's [encoding/base64] package: the encoder of [StdEncoding] *)

Module GoBase64.

Definition encodeStd : string :=
  "ABCDEFGHIJKLMNOPQRSTUVWXYZabcdefghijklmnopqrstuvwxyz0123456789+/".

(** [enc.encode[i]], the character of a six-bit value. *)
Definition encode (i : Z) : ascii :=
  nth (Z.to_nat i) (list_ascii_of_string encodeStd) "A"%char.

Definition StdPadding : ascii := "="%char.

(** [Encoding.Encode]: every three bytes of the source become four
    characters; a remainder of one or two bytes becomes two or three
    characters and padding up to four. *)
Fixpoint Encode (src : string) : string :=
  match src with
  | String s0 (String s1 (String s2 rest)) =>
      let val := Z.lor (Z.lor (Z.shiftl (code s0) 16) (Z.shiftl (code s1) 8))
                       (code s2) in
      String (encode (Z.land (Z.shiftr val 18) 63))
        (String (encode (Z.land (Z.shiftr val 12) 63))
           (String (encode (Z.land (Z.shiftr val 6) 63))
              (String (encode (Z.land val 63)) (Encode rest))))
  | String s0 (String s1 EmptyString) =>
      let val := Z.lor (Z.shiftl (code s0) 16) (Z.shiftl (code s1) 8) in
      String (encode (Z.land (Z.shiftr val 18) 63))
        (String (encode (Z.land (Z.shiftr val 12) 63))
           (String (encode (Z.land (Z.shiftr val 6) 63))
              (String StdPadding EmptyString)))
  | String s0 EmptyString =>
      let val := Z.shiftl (code s0) 16 in
      String (encode (Z.land (Z.shiftr val 18) 63))
        (String (encode (Z.land (Z.shiftr val 12) 63))
           (String StdPadding (String StdPadding EmptyString)))
  | EmptyString => EmptyString
  end.

(** [Encoding.EncodeToString] of [StdEncoding]. *)
Definition EncodeToString (src : string) : string := Encode src.

End GoBase64.

(* ------------------------------------------------------------------ *)
(** ** [faunadb/client.go]: the client *)

(** [basicAuth]: [fmt.Sprintf("Basic %s:", encoded)] on the base64 text of
    the secret. *)
Definition basicAuth (secret : string) : string :=
  let encoded := GoBase64.EncodeToString secret in
  "Basic " +++ encoded +++ ":".

(** A [time.Duration] counts nanoseconds. *)
Definition Second : Z := 1000000000.

Definition defaultEndpoint : string := "https://db.fauna.com".
Definition requestTimeout : Z := 60 * Second.

Module GoHTTP.

(** An [http.Client].  [Transport], [CheckRedirect] and [Jar] are
    interface and function values: they are kept as opaque handles, [None]
    for nil.  [Timeout] is a [time.Duration]. *)
Record Client : Type := mkClient {
  Transport : option nat;
  CheckRedirect : option nat;
  Jar : option nat;
  Timeout : Z
}.

(** An [http.Header]: the values of each key, in the order of their
    addition. *)
Definition Header : Type := list (string * list string).

(** [Header.Add(key, value)] appends the value to the values of the key.
    The key is put in canonical form first; the keys that the package
    adds, [Authorization] and [Content-Type], are in that form. *)
Fixpoint Add (key value : string) (h : Header) : Header :=
  match h with
  | [] => [(key, [value])]
  | (k, values) :: rest =>
      if String.eqb k key then (k, values ++ [value]) :: rest
      else (k, values) :: Add key value rest
  end.

(** The fields of an [http.Request] that [http.NewRequest] takes from its
    arguments, and its header. *)
Record Request : Type := mkRequest {
  Method : string;
  URL : string;
  Headers : Header;
  Body : string
}.

End GoHTTP.

Module FaunaClient.

(** The structure [FaunaClient]; the pointer [http] is modelled by what it
    points to, [None] for nil: the package never writes through it. *)
Record t : Type := mk {
  basicAuth : string;
  endpoint : string;
  http : option GoHTTP.Client
}.

End FaunaClient.

(** The type [ClientConfig], a function on a pointer to a client: what a
    configuration does to the client that it is given. *)
Definition ClientConfig : Type := FaunaClient.t -> FaunaClient.t.

(** [Endpoint(url)]: [cli.endpoint = url]. *)
Definition Endpoint (url : string) : ClientConfig :=
  fun cli =>
    FaunaClient.mk (FaunaClient.basicAuth cli) url (FaunaClient.http cli).

(** [HTTP(http)]: [cli.http = http]. *)
Definition HTTP (http : option GoHTTP.Client) : ClientConfig :=
  fun cli =>
    FaunaClient.mk (FaunaClient.basicAuth cli) (FaunaClient.endpoint cli) http.

(** [&http.Client{Timeout: requestTimeout}]. *)
Definition default_http : GoHTTP.Client :=
  GoHTTP.mkClient None None None requestTimeout.

(** [NewFaunaClient(secret, configs...)]. *)
Definition NewFaunaClient (secret : string) (configs : list ClientConfig)
  : FaunaClient.t :=
  let client := FaunaClient.mk (basicAuth secret) EmptyString None in
  let client := fold_left (fun cli config => config cli) configs client in
  let client :=
    if String.eqb (FaunaClient.endpoint client) EmptyString
    then FaunaClient.mk (FaunaClient.basicAuth client) defaultEndpoint
                        (FaunaClient.http client)
    else client in
  match FaunaClient.http client with
  | None =>
      FaunaClient.mk (FaunaClient.basicAuth client) (FaunaClient.endpoint client)
                     (Some default_http)
  | Some _ => client
  end.

(** [client.NewSessionClient(secret)]. *)
Definition NewSessionClient (client : FaunaClient.t) (secret : string)
  : FaunaClient.t :=
  FaunaClient.mk (basicAuth secret) (FaunaClient.endpoint client)
                 (FaunaClient.http client).

(** What a call returns, or the run-time panic of a nil dereference. *)
Inductive outcome (A : Type) : Type :=
| Returned (a : A)
| Panicked.
Arguments Returned {A} a.
Arguments Panicked {A}.

Section Transport.

Variable formatFloat : spec_float -> string.

(** [url.Parse], as [http.NewRequest] calls it: the error for a text that
    is not a URL.  [http.Client.Do]: the answer of the network to a
    request.  Both are taken as they come. *)
Variable url_Parse : string -> option error.
Variable Do : GoHTTP.Client -> GoHTTP.Request -> result Response.

(** [http.NewRequest(method, url, body)] for a method that is valid, as
    [POST] is: a request with an empty header, or the error of the URL. *)
Definition NewRequest (method url body : string) : result GoHTTP.Request :=
  match url_Parse url with
  | Some err => Err err
  | None => Ok (GoHTTP.mkRequest method url [] body)
  end.

(** [client.prepareRequest(expr)], for the expressions that are values. *)
Definition prepareRequest (client : FaunaClient.t) (expr : Value)
  : result GoHTTP.Request :=
  match Marshal formatFloat expr with
  | Err err => Err err
  | Ok body =>
      match NewRequest "POST" (FaunaClient.endpoint client) body with
      | Err err => Err err
      | Ok request =>
          let header := GoHTTP.Add "Authorization" (FaunaClient.basicAuth client)
                                   (GoHTTP.Headers request) in
          let header := GoHTTP.Add "Content-Type"
                                   "application/json; charset=utf-8" header in
          Ok (GoHTTP.mkRequest (GoHTTP.Method request) (GoHTTP.URL request)
                               header (GoHTTP.Body request))
      end
  end.

(** [client.performRequest(expr)]: the requests handed to the network, in
    order, and what the call returns.  [client.http.Do] on a nil client
    panics. *)
Definition performRequest (client : FaunaClient.t) (expr : Value)
  : list GoHTTP.Request * outcome (result Response) :=
  match prepareRequest client expr with
  | Err err => ([], Returned (Err err))
  | Ok request =>
      match FaunaClient.http client with
      | None => ([], Panicked)
      | Some http => ([request], Returned (Do http request))
      end
  end.

Variable parseFloat : string -> option spec_float.
Variable checkForResponseErrors : Response -> option error.

(** [client.Query(expr)] on top of [performRequest]: the requests handed
    to the network and what the call returns. *)
Definition client_Query (client : FaunaClient.t) (expr : Value)
  : list GoHTTP.Request * outcome (result Value) :=
  match performRequest client expr with
  | (sent, Panicked) => (sent, Panicked)
  | (sent, Returned (Err err)) => (sent, Returned (Err err))
  | (sent, Returned (Ok response)) =>
      (sent,
       Returned (match checkForResponseErrors response with
                 | Some err => Err err
                 | None => parseResponse parseFloat response
                 end))
  end.

End Transport.

(* ------------------------------------------------------------------ *)
(** ** Vocabulary of the client's properties *)

(** The characters of a base64 text. *)
Definition base64_char (c : ascii) : bool :=
  existsb (Ascii.eqb c) (list_ascii_of_string GoBase64.encodeStd)
  || Ascii.eqb c GoBase64.StdPadding.

(** The two configurations that the package offers. *)
Inductive Setting : Type :=
| SetEndpoint (url : string)
| SetHTTP (http : option GoHTTP.Client).

Definition config_of (s : Setting) : ClientConfig :=
  match s with
  | SetEndpoint url => Endpoint url
  | SetHTTP http => HTTP http
  end.

Definition sets_endpoint (s : Setting) : bool :=
  match s with
  | SetEndpoint _ => true
  | SetHTTP _ => false
  end.

Definition sets_http (s : Setting) : bool := negb (sets_endpoint s).

(** Reading a base64 text back, the way its receiver does: the six-bit
    value of a character, and the bytes of every group of four
    characters. *)
Fixpoint index_of (c : ascii) (l : list ascii) : option Z :=
  match l with
  | [] => None
  | x :: rest =>
      if Ascii.eqb x c then Some 0 else option_map Z.succ (index_of c rest)
  end.

Definition sextet (c : ascii) : option Z :=
  index_of c (list_ascii_of_string GoBase64.encodeStd).

Fixpoint base64_decode (s : string) : option string :=
  match s with
  | EmptyString => Some EmptyString
  | String c0 (String c1 (String c2 (String c3 rest))) =>
      let? x0 := sextet c0 in
      let? x1 := sextet c1 in
      if Ascii.eqb c3 GoBase64.StdPadding then
        match rest with
        | EmptyString =>
            if Ascii.eqb c2 GoBase64.StdPadding then
              let val := (x0 * 64 + x1) * 4096 in
              Some (String (byte_of (val / 65536)) EmptyString)
            else
              let? x2 := sextet c2 in
              let val := ((x0 * 64 + x1) * 64 + x2) * 64 in
              Some (String (byte_of (val / 65536))
                      (String (byte_of ((val / 256) mod 256)) EmptyString))
        | _ => None
        end
      else
        let? x2 := sextet c2 in
        let? x3 := sextet c3 in
        let? tail := base64_decode rest in
        let val := ((x0 * 64 + x1) * 64 + x2) * 64 + x3 in
        Some (String (byte_of (val / 65536))
                (String (byte_of ((val / 256) mod 256))
                   (String (byte_of (val mod 256)) tail)))
  | _ => None
  end.

(** The characters that may stand in the value of a header: the
    printable ASCII characters. *)
Definition printable (c : ascii) : bool := (32 <=? code c) && (code c <? 127).

(** The clients that the package's constructors make from the two
    configurations, with the secret that each one was made for. *)
Inductive built : string -> FaunaClient.t -> Prop :=
| built_new (secret : string) (settings : list Setting) :
    built secret (NewFaunaClient secret (map config_of settings))
| built_session (parent : string) (client : FaunaClient.t) (secret : string) :
    built parent client -> built secret (NewSessionClient client secret).

(** The header of every request of the package. *)
Definition request_header (authorization : string) : GoHTTP.Header :=
  [("Authorization", [authorization]);
   ("Content-Type", ["application/json; charset=utf-8"])].

(* ------------------------------------------------------------------ *)
(** ** The embedding at work: formatting and encoding *)

Example fmt1 : Format_ts (mkTime 1592216430 0 0) = "2020-06-15T10:20:30Z".
Proof. vm_compute. reflexivity. Qed.
Example fmt2 : Format_ts (mkTime 1592216430 123456789 0) = "2020-06-15T10:20:30.123456789Z".
Proof. vm_compute. reflexivity. Qed.
Example fmt3 : Format_ts (mkTime 1592216430 500000000 3600) = "2020-06-15T11:20:30.5Z".
Proof. vm_compute. reflexivity. Qed.
Example fmt4 : Format_date (mkTime 951782400 0 0) = "2000-02-29".
Proof. vm_compute. reflexivity. Qed.
Example fmt5 : Format_date (mkTime (-1) 0 0) = "1969-12-31".
Proof. vm_compute. reflexivity. Qed.
Example fmt6 : Format_date (mkTime 1609459199 0 0) = "2020-12-31".
Proof. vm_compute. reflexivity. Qed.

Example enc_bob (fmt : spec_float -> string) :
  Marshal fmt bob = Ok (dq "{'object':{'age':30,'name':'Bob'}}").
Proof. vm_compute. reflexivity. Qed.

Example enc_ts (fmt : spec_float -> string) :
  Marshal fmt (ArrayV [TimeV (mkTime 1592216430 120000000 0); NullV; LongV (-5); StringV "a<b"; DateV (mkTime 1592216430 120000000 0)])
  = Ok (dq "[{'@ts':'2020-06-15T10:20:30.12Z'},null,-5,'a\u003cb',{'@date':'2020-06-15'}]").
Proof. vm_compute. reflexivity. Qed.

(* ------------------------------------------------------------------ *)
(** ** Facts about byte strings *)

Lemma sapp_assoc (a b c : string) : (a +++ b) +++ c = a +++ (b +++ c).
Proof. induction a as [|x a IH]; simpl; [reflexivity | now rewrite IH]. Qed.

Lemma sapp_nil_r (a : string) : a +++ EmptyString = a.
Proof. induction a as [|x a IH]; simpl; [reflexivity | now rewrite IH]. Qed.

Lemma slength_app (a b : string) :
  String.length (a +++ b) = (String.length a + String.length b)%nat.
Proof. induction a as [|x a IH]; simpl; [reflexivity | now rewrite IH]. Qed.

Lemma all_chars_app p a b :
  all_chars p (a +++ b) = all_chars p a && all_chars p b.
Proof.
  induction a as [|x a IH]; simpl; [reflexivity|].
  now rewrite IH, andb_assoc.
Qed.

Lemma all_chars_weaken (p q : ascii -> bool) s :
  (forall c, p c = true -> q c = true) ->
  all_chars p s = true -> all_chars q s = true.
Proof.
  intros Hpq. induction s as [|c r IH]; simpl; [reflexivity|].
  rewrite !andb_true_iff. intros [Hc Hr]. split; auto.
Qed.

Lemma all_chars_of_list p l :
  all_chars p (string_of_list_ascii l) = forallb p l.
Proof. induction l as [|c l IH]; simpl; [reflexivity | now rewrite IH]. Qed.

Lemma all_chars_to_list p s :
  forallb p (list_ascii_of_string s) = all_chars p s.
Proof. induction s as [|c s IH]; simpl; [reflexivity | now rewrite IH]. Qed.

Lemma all_chars_repeat p c n : p c = true -> all_chars p (repeat_char c n) = true.
Proof. intros Hc. induction n; simpl; [reflexivity | now rewrite Hc]. Qed.

Lemma code_byte_of (z : Z) : 0 <= z < 256 -> code (byte_of z) = z.
Proof.
  intros Hz. unfold code, byte_of.
  rewrite N_ascii_embedding by lia. lia.
Qed.

Lemma code_digit (d : Z) : 0 <= d < 10 -> code (digit d) = 48 + d.
Proof. intros Hd. unfold digit. apply code_byte_of. lia. Qed.

Lemma digit_is_digit (d : Z) : 0 <= d < 10 -> is_digit (digit d) = true.
Proof.
  intros Hd. unfold is_digit. rewrite code_digit by assumption.
  apply andb_true_iff. split; [apply Z.leb_le | apply Z.leb_le]; lia.
Qed.

Lemma is_digit_safe (c : ascii) : is_digit c = true -> safe_char c = true.
Proof.
  unfold is_digit, safe_char, htmlSafe. intros H.
  apply andb_true_iff in H as [Hlo Hhi].
  apply Z.leb_le in Hlo, Hhi.
  rewrite !andb_true_iff, Z.ltb_lt, Z.leb_le, !negb_true_iff, !Z.eqb_neq. lia.
Qed.

Lemma string_body_safe (s : string) :
  all_chars safe_char s = true -> string_body 0 true s = s.
Proof.
  induction s as [|c r IH]; simpl; [reflexivity|].
  rewrite andb_true_iff. intros [Hc Hr].
  unfold safe_char in Hc. apply andb_true_iff in Hc as [H1 H2].
  rewrite H1, H2. simpl. now rewrite IH.
Qed.

Lemma quote_safe (s : string) :
  all_chars safe_char s = true ->
  quote s = String DQ (s +++ String DQ EmptyString).
Proof. intros H. unfold quote. now rewrite string_body_safe. Qed.

(** Digits written by the loops of [appendInt] and [formatNano]. *)

Lemma digits_loop_digits fuel u acc :
  0 <= u -> all_chars is_digit acc = true ->
  all_chars is_digit (digits_loop fuel u acc) = true.
Proof.
  revert u acc. induction fuel as [|k IH]; intros u acc Hu Hacc; simpl.
  - assumption.
  - destruct (10 <=? u) eqn:E.
    + apply IH.
      * apply Z.div_pos; lia.
      * simpl. rewrite Hacc, digit_is_digit; [reflexivity|].
        apply Z.mod_pos_bound. lia.
    + simpl. rewrite Hacc, digit_is_digit; [reflexivity|].
      apply Z.leb_gt in E. lia.
Qed.

Lemma fixed_digits_digits n u acc :
  all_chars is_digit acc = true ->
  all_chars is_digit (fixed_digits n u acc) = true.
Proof.
  revert u acc. induction n as [|k IH]; intros u acc Hacc; simpl.
  - assumption.
  - apply IH. simpl. rewrite Hacc, digit_is_digit; [reflexivity|].
    apply Z.mod_pos_bound. lia.
Qed.

Lemma fixed_digits_length n u acc :
  String.length (fixed_digits n u acc) = (n + String.length acc)%nat.
Proof.
  revert u acc. induction n as [|k IH]; intros u acc; simpl.
  - reflexivity.
  - rewrite IH. simpl. lia.
Qed.

Lemma ts_char_safe (c : ascii) : ts_char c = true -> safe_char c = true.
Proof.
  unfold ts_char. rewrite orb_true_iff. intros [H | H].
  - now apply is_digit_safe.
  - simpl in H. rewrite !orb_true_iff in H.
    repeat match goal with
           | H : _ \/ _ |- _ => destruct H as [H | H]
           | H : Ascii.eqb _ _ = true |- _ => apply Ascii.eqb_eq in H; subst c
           end; try reflexivity; discriminate.
Qed.

Lemma appendInt_chars x width : all_chars ts_char (appendInt x width) = true.
Proof.
  unfold appendInt. rewrite !all_chars_app.
  rewrite all_chars_repeat by reflexivity.
  assert (Hd : all_chars ts_char (utoa (Z.abs x)) = true).
  { apply all_chars_weaken with (p := is_digit).
    - intros c Hc. unfold ts_char. now rewrite Hc.
    - apply digits_loop_digits; [lia | reflexivity]. }
  rewrite Hd. now destruct (x <? 0).
Qed.

Lemma Format_date_chars t : all_chars ts_char (Format_date t) = true.
Proof.
  unfold Format_date. destruct (absDate (abs t)) as [[y m] d].
  rewrite !all_chars_app, !appendInt_chars. reflexivity.
Qed.

Lemma Format_seconds_chars t : all_chars ts_char (Format_seconds t) = true.
Proof.
  unfold Format_seconds. destruct (absClock (abs t)) as [[h m] s].
  rewrite !all_chars_app, Format_date_chars, !appendInt_chars. reflexivity.
Qed.

Lemma digits_value_snoc ds c :
  digits_value (ds ++ [c]) = 10 * digits_value ds + (code c - 48).
Proof. unfold digits_value. now rewrite fold_left_app. Qed.

Lemma digits_value_zeros ds j :
  digits_value (ds ++ repeat "0"%char j) = digits_value ds * 10 ^ Z.of_nat j.
Proof.
  induction j as [|j IH].
  - simpl. rewrite app_nil_r. lia.
  - change (repeat "0"%char (S j)) with ("0"%char :: repeat "0"%char j).
    rewrite repeat_cons, app_assoc, digits_value_snoc, IH.
    rewrite Nat2Z.inj_succ, Z.pow_succ_r by lia.
    change (code "0"%char) with 48. lia.
Qed.

Lemma digits_value_nonneg ds :
  forallb is_digit ds = true -> 0 <= digits_value ds.
Proof.
  induction ds as [|c ds IH] using rev_ind; intros H.
  - cbn. lia.
  - rewrite forallb_app in H. apply andb_true_iff in H as [H1 H2].
    simpl in H2. rewrite andb_true_r in H2. unfold is_digit in H2.
    apply andb_true_iff in H2 as [Hlo Hhi]. apply Z.leb_le in Hlo, Hhi.
    rewrite digits_value_snoc. specialize (IH H1). lia.
Qed.

Lemma fixed_digits_acc n u acc :
  fixed_digits n u acc = fixed_digits n u EmptyString +++ acc.
Proof.
  revert u acc. induction n as [|k IH]; intros u acc; simpl.
  - reflexivity.
  - rewrite IH. rewrite (IH _ (String _ EmptyString)).
    now rewrite sapp_assoc.
Qed.

Lemma list_of_sapp a b :
  list_ascii_of_string (a +++ b) = list_ascii_of_string a ++ list_ascii_of_string b.
Proof. induction a as [|x a IH]; simpl; [reflexivity | now rewrite IH]. Qed.

Lemma fixed_digits_value n u :
  0 <= u ->
  digits_value (list_ascii_of_string (fixed_digits n u EmptyString))
  = u mod 10 ^ Z.of_nat n.
Proof.
  revert u. induction n as [|k IH]; intros u Hu.
  - simpl. now rewrite Z.mod_1_r.
  - simpl fixed_digits. rewrite fixed_digits_acc, list_of_sapp.
    simpl list_ascii_of_string at 2.
    rewrite digits_value_snoc, IH by (apply Z.div_pos; lia).
    rewrite code_digit by (apply Z.mod_pos_bound; lia).
    rewrite Nat2Z.inj_succ, Z.pow_succ_r by lia.
    rewrite Z.rem_mul_r; [lia | lia | apply Z.pow_pos_nonneg; lia].
Qed.

Lemma drop_zeros_spec l :
  exists j, l = repeat "0"%char j ++ drop_zeros l
            /\ hd_error (drop_zeros l) <> Some "0"%char.
Proof.
  induction l as [|c r IH]; simpl.
  - exists 0%nat. split; [reflexivity | discriminate].
  - destruct (Ascii.eqb c "0") eqn:E.
    + apply Ascii.eqb_eq in E. subst c.
      destruct IH as [j [Hj Hh]]. exists (S j). split; [|assumption].
      simpl. now rewrite <- Hj.
    + exists 0%nat. split; [reflexivity|].
      simpl. intros H. injection H as ->. discriminate.
Qed.

Lemma drop_zeros_forallb p l :
  forallb p l = true -> forallb p (drop_zeros l) = true.
Proof.
  induction l as [|c r IH]; simpl; [reflexivity|].
  destruct (Ascii.eqb c "0"); simpl.
  - rewrite andb_true_iff. intros [_ H]. auto.
  - trivial.
Qed.

Lemma rev_repeat {A} (a : A) n : rev (repeat a n) = repeat a n.
Proof.
  induction n as [|n IH]; simpl; [reflexivity|].
  rewrite IH. symmetry. apply repeat_cons.
Qed.

Lemma forallb_rev {A} (p : A -> bool) l : forallb p (rev l) = forallb p l.
Proof.
  induction l as [|a l IH]; simpl; [reflexivity|].
  rewrite forallb_app, IH. simpl. rewrite andb_true_r. apply andb_comm.
Qed.

Lemma formatNano9_spec (n : Z) :
  0 <= n < 10 ^ 9 -> trimmed_fraction n (formatNano9 n).
Proof.
  intros Hn. unfold formatNano9, trimmed_fraction.
  set (buf := list_ascii_of_string (fixed_digits 9 n EmptyString)).
  assert (Hval : digits_value buf = n).
  { unfold buf. rewrite fixed_digits_value by lia.
    apply Z.mod_small. exact Hn. }
  assert (Hlen : List.length buf = 9%nat).
  { unfold buf. clear. generalize (fixed_digits_length 9 n EmptyString).
    generalize (fixed_digits 9 n EmptyString). intros s.
    replace (String.length s) with (List.length (list_ascii_of_string s)).
    - simpl. lia.
    - induction s; simpl; congruence. }
  assert (Hdig : forallb is_digit buf = true).
  { unfold buf. rewrite all_chars_to_list.
    now apply fixed_digits_digits. }
  destruct (drop_zeros_spec (rev buf)) as [j [Hj Hh]].
  assert (Hkd : forallb is_digit (drop_zeros (rev buf)) = true).
  { apply drop_zeros_forallb. rewrite forallb_rev. exact Hdig. }
  assert (Hbuf : buf = rev (drop_zeros (rev buf)) ++ repeat "0"%char j).
  { rewrite <- (rev_involutive buf) at 1.
    rewrite Hj at 1. rewrite rev_app_distr, rev_repeat. reflexivity. }
  destruct (drop_zeros (rev buf)) as [|d rest] eqn:Ed.
  - left. split; [|reflexivity].
    rewrite <- Hval, Hbuf, digits_value_zeros. cbn. lia.
  - right.
    assert (Hk : digits_value (rev (d :: rest)) * 10 ^ Z.of_nat j = n).
    { rewrite <- digits_value_zeros, <- Hbuf. exact Hval. }
    assert (Hl : (List.length (rev (d :: rest)) + j = 9)%nat).
    { rewrite <- Hlen, Hbuf at 1. rewrite length_app, repeat_length. reflexivity. }
    assert (Hpos : 0 < digits_value (rev (d :: rest))).
    { simpl rev. rewrite digits_value_snoc.
      simpl in Hkd. apply andb_true_iff in Hkd as [Hd Hrest].
      assert (H0 : 0 <= digits_value (rev rest)).
      { apply digits_value_nonneg. now rewrite forallb_rev. }
      assert (Hne : code d <> 48).
      { intros Hc. apply Hh. simpl. f_equal.
        unfold code in Hc. rewrite <- (ascii_N_embedding d).
        replace (N_of_ascii d) with 48%N by lia. reflexivity. }
      unfold is_digit in Hd. apply andb_true_iff in Hd as [Hlo Hhi].
      apply Z.leb_le in Hlo, Hhi. lia. }
    split; [nia|].
    exists (rev (d :: rest)). repeat split.
    + destruct (rev (d :: rest)) eqn:Er; [|reflexivity].
      cbn in Hpos. lia.
    + rewrite forallb_rev. exact Hkd.
    + rewrite length_rev. simpl. lia.
    + lia.
    + rewrite <- Hk. f_equal. f_equal. lia.
    + rewrite rev_involutive. exact Hh.
Qed.

(** A Null among the elements of an Array leaves its fresh cell at
    zero. *)
Example get_optional_strings :
  Get (ArrayV [StringV "a"; NullV]) (mkDest (SSeq (SOptional SString)) (NSeq []))
  = (mkDest (SSeq (SOptional SString))
            (NSeq [NOptional (Some (NString "a")); NOptional None]), None).
Proof. reflexivity. Qed.

(* ------------------------------------------------------------------ *)
(** ** The embedding at work: reading *)

Example parse_ts1 : parse_ts "2020-06-15T10:20:30.12Z" = Some (mkTime 1592216430 120000000 0).
Proof. vm_compute. reflexivity. Qed.
Example parse_ts2 : parse_ts "2020-06-15T10:20:30Z" = Some (mkTime 1592216430 0 0).
Proof. vm_compute. reflexivity. Qed.
Example parse_ts3 : parse_ts "2020-06-15T10:20:30.123456789Z" = Some (mkTime 1592216430 123456789 0).
Proof. vm_compute. reflexivity. Qed.
Example parse_ts4 : parse_ts "not-a-real-timestamp" = None.
Proof. vm_compute. reflexivity. Qed.
Example parse_d1 : parse_date "2020-12-31" = Some (mkTime 1609372800 0 0).
Proof. vm_compute. reflexivity. Qed.
Example parse_d2 : parse_date "2021-02-29" = None.
Proof. vm_compute. reflexivity. Qed.
Example parse_d3 : parse_date "2000-02-29" = Some (mkTime 951782400 0 0).
Proof. vm_compute. reflexivity. Qed.

Example read1 : read_document (dq "{'object':{'name':'Bob','age':30}}")
  = Some (JObject [("object", JObject [("name", JString "Bob"); ("age", JNumber "30")])]).
Proof. vm_compute. reflexivity. Qed.
Example read2 : read_document (dq " [1, -2.5e3 , true,false,null, 'a<b\n', [], {} , {'a':1,'b':[2],'a':3}] ")
  = Some (JArray [JNumber "1"; JNumber "-2.5e3"; JBool true; JBool false; JNull;
                  JString (String "a" (String "<" (String "b" (String (byte_of 10) EmptyString))));
                  JArray []; JObject []; JObject [("a", JNumber "3"); ("b", JArray [JNumber "2"])]]).
Proof. vm_compute. reflexivity. Qed.
Example read3 : read_document "[1,]" = None.
Proof. vm_compute. reflexivity. Qed.
Example read4 : read_document "01" = None.
Proof. vm_compute. reflexivity. Qed.
Example read5 : read_document "[[[[[[1]]]]]]" <> None.
Proof. vm_compute. discriminate. Qed.

Example parse_bob (pf : string -> option spec_float) :
  parseJSON pf (dq "{'object':{'name':'Bob','age':30}}") = Ok bob.
Proof. vm_compute. reflexivity. Qed.
Example parse_date_tag (pf : string -> option spec_float) :
  parseJSON pf (dq "{'@date':'2020-06-15'}") = Ok (DateV (mkTime 1592179200 0 0)).
Proof. vm_compute. reflexivity. Qed.
Example parse_bad_ts (pf : string -> option spec_float) :
  parseJSON pf (dq "{'@ts':'not-a-real-timestamp'}") = Err (WireFormatError "@ts" "not-a-real-timestamp").
Proof. vm_compute. reflexivity. Qed.
Example parse_resource (pf : string -> option spec_float) :
  parseResponse pf (mkResponse 200 (dq "{'resource':{'@ref':'classes/spells/1'}}")) = Ok (RefV "classes/spells/1").
Proof. vm_compute. reflexivity. Qed.

(* ------------------------------------------------------------------ *)
(** ** Decoding Null *)

(** C9: decoding a Null value returns success and leaves the
    caller-supplied destination exactly as it was, whatever it held:
    [NullV.Get] never writes to it. *)
Theorem NullV_Get_frame (i : Dest) : Get NullV i = (i, None).
Proof. reflexivity. Qed.

(** C3, as stated, fails on a destination that already holds something:
    the decoding succeeds but the destination is not at its zero state
    afterwards. *)
Lemma NullV_Get_not_reset :
  ~ (snd (Get NullV (mkDest SString (NString "kept"))) = None /\
     content (fst (Get NullV (mkDest SString (NString "kept")))) = zero SString).
Proof. simpl. intros [_ H]. discriminate H. Qed.

(** C3, amended: for every destination shape, decoding a Null value
    succeeds, and a destination that is at its zero, empty or "no value"
    state is left at it. *)
Theorem NullV_Get_succeeds :
  (forall i : Dest, snd (Get NullV i) = None) /\
  (forall sh : Shape,
     fst (Get NullV (mkDest sh (zero sh))) = mkDest sh (zero sh)).
Proof. split; intros; reflexivity. Qed.

(* ------------------------------------------------------------------ *)
(** ** Field paths on leaves *)

(** The fields that the extractors build have at least one step. *)
Lemma extractors_nonempty (f : Field) (key : string) (index : Z) :
  path (ObjKey key) <> [] /\ path (ArrIndex index) <> [] /\
  path (AtKey f key) <> [] /\ path (AtIndex f index) <> [].
Proof.
  repeat split; simpl; try discriminate;
    intros H; apply app_eq_nil in H; destruct H as [_ H]; discriminate H.
Qed.






(* ------------------------------------------------------------------ *)
(** ** Numbers into native numbers *)






(* ------------------------------------------------------------------ *)
(** ** Containers decode atomically *)

Lemma sequence_first_failure {A B} (f : A -> result B) pre x post err :
  Forall (fun y => exists b, f y = Ok b) pre ->
  f x = Err err ->
  sequence (map f (pre ++ x :: post)) = Err err.
Proof.
  intros Hpre Hx. induction Hpre as [|y pre [b Hy] _ IH]; simpl.
  - now rewrite Hx.
  - now rewrite Hy, IH.
Qed.

Lemma commit_failure (i : Dest) (r : result Native) (err : error) :
  snd (commit i r) = Some err -> commit i r = (i, Some err).
Proof. destruct r; simpl; [discriminate | now intros [= ->]]. Qed.

Lemma Get_failure_frame (v : Value) (i : Dest) (err : error) :
  snd (Get v i) = Some err -> Get v i = (i, Some err).
Proof.
  destruct v; simpl;
    unfold valueDecoder_assign, valueDecoder_decodeMap, valueDecoder_decodeArray;
    try apply commit_failure.
  - discriminate.
  - now intros [= ->].
Qed.

(** C7: decoding a container is atomic.  Any decoding that fails leaves
    the caller-supplied destination as it was.  When the elements of an
    Array before some element decode and that element fails, decoding the
    Array into a native sequence fails with that element's failure and
    populates nothing; the same holds for the entries of an Object decoded
    into a native mapping. *)
Theorem container_decoding_atomic :
  (forall (v : Value) (i : Dest) (err : error),
     snd (Get v i) = Some err -> fst (Get v i) = i) /\
  (forall (e : Shape) (c : Native) (pre post : list Value) (x : Value)
          (err : error),
     Forall (decodes e) pre ->
     decode x e = Err err ->
     Get (ArrayV (pre ++ x :: post)) (mkDest (SSeq e) c)
       = (mkDest (SSeq e) c, Some err)) /\
  (forall (e : Shape) (c : Native) (pre post : list (string * Value))
          (k : string) (x : Value) (err : error),
     Forall (fun kv => decodes e (snd kv)) pre ->
     decode x e = Err err ->
     Get (ObjectV (pre ++ (k, x) :: post)) (mkDest (SMap e) c)
       = (mkDest (SMap e) c, Some err)).
Proof.
  split; [|split].
  - intros v i err H. now rewrite (Get_failure_frame v i err H).
  - intros e c pre post x err Hpre Hx.
    unfold Get, valueDecoder_decodeArray. simpl.
    rewrite (sequence_first_failure (fun y => decode y e) pre x post err);
      [reflexivity | exact Hpre | exact Hx].
  - intros e c pre post k x err Hpre Hx.
    unfold Get, valueDecoder_decodeMap. simpl.
    rewrite (sequence_first_failure
               (fun kv : string * Value =>
                  let '(k0, y) := kv in do n <- decode y e; Ok (k0, n))
               pre (k, x) post err).
    + reflexivity.
    + eapply Forall_impl; [|exact Hpre].
      intros [k0 y] [n Hn]. simpl in Hn. rewrite Hn. simpl. eauto.
    + simpl. now rewrite Hx.
Qed.

(** An Array of five elements whose element at index 3 is malformed, and
    a destination that already holds a sequence. *)
Lemma container_decoding_atomic_witness :
  Forall (decodes SInt64) [LongV 1; LongV 2; LongV 3] /\
  decode (StringV "four") SInt64 = Err (TypeMismatch SInt64 VString) /\
  Get (ArrayV ([LongV 1; LongV 2; LongV 3] ++ StringV "four" :: [LongV 5]))
      (mkDest (SSeq SInt64) (NSeq [NInt64 7]))
    = (mkDest (SSeq SInt64) (NSeq [NInt64 7]),
       Some (TypeMismatch SInt64 VString)).
Proof.
  assert (H : Forall (decodes SInt64) [LongV 1; LongV 2; LongV 3]).
  { repeat constructor; eexists; reflexivity. }
  split; [exact H|]. split; [reflexivity|].
  apply (proj1 (proj2 container_decoding_atomic)
           SInt64 (NSeq [NInt64 7]) [LongV 1; LongV 2; LongV 3] [LongV 5]
           (StringV "four") (TypeMismatch SInt64 VString) H).
  reflexivity.
Defined.

(* ------------------------------------------------------------------ *)
(** ** Sorting the entries of a map *)

Lemma string_leb_trans (a b c : string) :
  String.leb a b = true -> String.leb b c = true -> String.leb a c = true.
Proof.
  unfold String.leb. revert b c.
  induction a as [|x a IH]; intros [|y b] [|z c]; simpl; try easy.
  unfold Ascii.compare.
  destruct (N.compare_spec (N_of_ascii x) (N_of_ascii y));
    destruct (N.compare_spec (N_of_ascii y) (N_of_ascii z));
    destruct (N.compare_spec (N_of_ascii x) (N_of_ascii z));
    try easy; try lia.
  apply IH.
Qed.

Lemma key_le_trans {A} (x y z : string * A) :
  key_le x y -> key_le y z -> key_le x z.
Proof. unfold key_le. apply string_leb_trans. Qed.

Lemma insert_entry_perm {A} (e : string * A) l :
  Permutation (insert_entry e l) (e :: l).
Proof.
  induction l as [|x l IH]; simpl.
  - reflexivity.
  - destruct (String.leb (fst e) (fst x)).
    + reflexivity.
    + rewrite IH. apply perm_swap.
Qed.

Lemma sort_entries_perm {A} (l : list (string * A)) :
  Permutation (sort_entries l) l.
Proof.
  induction l as [|e l IH]; simpl.
  - reflexivity.
  - rewrite insert_entry_perm. now constructor.
Qed.

Lemma insert_entry_sorted {A} (e : string * A) l :
  StronglySorted key_le l -> StronglySorted key_le (insert_entry e l).
Proof.
  induction 1 as [|x l Hs IH Hx]; simpl.
  - repeat constructor.
  - destruct (String.leb (fst e) (fst x)) eqn:E.
    + constructor; [now constructor|].
      constructor; [exact E|].
      eapply Forall_impl; [|exact Hx].
      intros y Hy. eapply key_le_trans; [exact E | exact Hy].
    + constructor; [exact IH|].
      rewrite insert_entry_perm. constructor; [|exact Hx].
      destruct (String.leb_total (fst e) (fst x)) as [H | H];
        [congruence | exact H].
Qed.

Lemma sort_entries_sorted {A} (l : list (string * A)) :
  StronglySorted key_le (sort_entries l).
Proof.
  induction l as [|e l IH]; simpl.
  - constructor.
  - now apply insert_entry_sorted.
Qed.

Lemma same_key_same_entry {A} (x y : string * A) l :
  NoDup (map fst l) -> In x l -> In y l -> fst x = fst y -> x = y.
Proof.
  induction l as [|z l IH]; simpl; intros Hnd Hx Hy Hk; [tauto|].
  inversion Hnd as [|? ? Hz Hnd']; subst.
  destruct Hx as [-> | Hx], Hy as [-> | Hy].
  - reflexivity.
  - exfalso. apply Hz. rewrite Hk. now apply in_map.
  - exfalso. apply Hz. rewrite <- Hk. now apply in_map.
  - now apply IH.
Qed.

(** A map has one sorted list of entries. *)
Lemma sorted_entries_unique {A} (l1 l2 : list (string * A)) :
  StronglySorted key_le l1 -> StronglySorted key_le l2 ->
  Permutation l1 l2 -> NoDup (map fst l1) -> l1 = l2.
Proof.
  intros H1. revert l2.
  induction H1 as [|x l1 Hs1 IH Hx]; intros l2 H2 Hp Hnd.
  - apply Permutation_nil in Hp. now subst.
  - destruct H2 as [|y l2 Hs2 Hy].
    + apply Permutation_sym, Permutation_nil in Hp. discriminate.
    + assert (Hxy : x = y).
      { apply (same_key_same_entry x y (x :: l1) Hnd).
        - now left.
        - apply (Permutation_in y (Permutation_sym Hp)). now left.
        - apply String.leb_antisym.
          + assert (Hin : In y (x :: l1)).
            { apply (Permutation_in y (Permutation_sym Hp)). now left. }
            destruct Hin as [<- | Hin].
            * destruct (String.leb_total (fst x) (fst x)); assumption.
            * rewrite Forall_forall in Hx. now apply Hx.
          + assert (Hin : In x (y :: l2)).
            { apply (Permutation_in x Hp). now left. }
            destruct Hin as [<- | Hin].
            * destruct (String.leb_total (fst y) (fst y)); assumption.
            * rewrite Forall_forall in Hy. now apply Hy. }
      subst y. f_equal. apply IH.
      * exact Hs2.
      * now apply Permutation_cons_inv in Hp.
      * simpl in Hnd. now inversion Hnd.
Qed.

Lemma sort_entries_order_free {A} (l l' : list (string * A)) :
  Permutation l l' -> NoDup (map fst l) -> sort_entries l = sort_entries l'.
Proof.
  intros Hp Hnd. apply sorted_entries_unique.
  - apply sort_entries_sorted.
  - apply sort_entries_sorted.
  - now rewrite !sort_entries_perm.
  - apply (Permutation_NoDup (l := map fst l)); [|exact Hnd].
    apply Permutation_map. symmetry. apply sort_entries_perm.
Qed.

(* ------------------------------------------------------------------ *)
(** ** Encoding does not depend on the iteration order of maps *)

Lemma distinct_NoDup (l : list string) : distinct l = true <-> NoDup l.
Proof.
  induction l as [|k l IH]; simpl.
  - split; [constructor | reflexivity].
  - rewrite andb_true_iff, negb_true_iff, IH. split.
    + intros [Hk Hl]. constructor; [|exact Hl].
      intros Hin. assert (Hex : existsb (String.eqb k) l = true).
      { apply existsb_exists. exists k. split; [exact Hin | apply String.eqb_refl]. }
      congruence.
    + intros H. inversion H as [|? ? Hk Hl]; subst. split; [|exact Hl].
      destruct (existsb (String.eqb k) l) eqn:E; [|reflexivity].
      apply existsb_exists in E as [x [Hx Hkx]].
      apply String.eqb_eq in Hkx. subst x. contradiction.
Qed.

Lemma distinct_perm (l l' : list string) :
  Permutation l l' -> distinct l = true -> distinct l' = true.
Proof.
  intros Hp H. apply distinct_NoDup. apply distinct_NoDup in H.
  exact (Permutation_NoDup Hp H).
Qed.

Lemma entries_keys marshal (m : list (string * Value)) :
  map fst (entries marshal m) = map fst m.
Proof.
  unfold entries. rewrite map_map. apply map_ext. now intros [k v].
Qed.

Lemma marshal_map_order_free (E E' : list (string * result string)) :
  Permutation E E' -> NoDup (map fst E) -> marshal_map E = marshal_map E'.
Proof.
  intros Hp Hnd. unfold marshal_map.
  now rewrite (sort_entries_order_free E E' Hp Hnd).
Qed.

Lemma same_value_Marshal :
  (forall v v', same_value v v' ->
     unique_keys v = true ->
     unique_keys v' = true /\
     forall fmt, Marshal fmt v = Marshal fmt v') /\
  (forall m m', same_entries m m' ->
     distinct (map fst m) = true ->
     forallb (fun e => unique_keys (snd e)) m = true ->
     forallb (fun e => unique_keys (snd e)) m' = true /\
     Permutation (map fst m) (map fst m') /\
     forall fmt, Permutation (entries (Marshal fmt) m) (entries (Marshal fmt) m')) /\
  (forall l l', same_elems l l' ->
     forallb unique_keys l = true ->
     forallb unique_keys l' = true /\
     forall fmt, map (Marshal fmt) l = map (Marshal fmt) l').
Proof.
  apply same_value_mutind.
  - (* same_refl *) intros v Hu. split; [exact Hu | reflexivity].
  - (* SetRefV *)
    intros m m' _ IH Hu. simpl in Hu. apply andb_true_iff in Hu as [Hd Hv].
    destruct (IH Hd Hv) as [Hv' [Hk Hp]]. split.
    + simpl. rewrite Hv', (distinct_perm _ _ Hk Hd). reflexivity.
    + intros fmt. cbn [Marshal]. unfold SetRefV_MarshalJSON.
      cbn [option_map mapEncoder].
      rewrite (marshal_map_order_free _ _ (Hp fmt)); [reflexivity|].
      rewrite entries_keys. now apply distinct_NoDup.
  - (* ObjectV *)
    intros m m' _ IH Hu. simpl in Hu. apply andb_true_iff in Hu as [Hd Hv].
    destruct (IH Hd Hv) as [Hv' [Hk Hp]]. split.
    + simpl. rewrite Hv', (distinct_perm _ _ Hk Hd). reflexivity.
    + intros fmt. cbn [Marshal]. unfold ObjectV_MarshalJSON.
      cbn [option_map mapEncoder].
      rewrite (marshal_map_order_free _ _ (Hp fmt)); [reflexivity|].
      rewrite entries_keys. now apply distinct_NoDup.
  - (* ArrayV *)
    intros l l' _ IH Hu. simpl in Hu. destruct (IH Hu) as [Hu' He]. split.
    + exact Hu'.
    + intros fmt. simpl. now rewrite He.
  - (* entries: nil *)
    intros _ _. repeat split; constructor.
  - (* entries: cons *)
    intros k v v' m m' _ IHv _ IHm Hd Hu. simpl in Hd, Hu.
    apply andb_true_iff in Hd as [Hk Hd]. apply andb_true_iff in Hu as [Huv Hum].
    destruct (IHv Huv) as [Huv' Hv]. destruct (IHm Hd Hum) as [Hum' [Hkm Hp]].
    repeat split.
    + simpl. now rewrite Huv', Hum'.
    + simpl. now constructor.
    + intros fmt. simpl. rewrite Hv. constructor. apply Hp.
  - (* entries: swap *)
    intros e1 e2 m Hd Hu. simpl in Hu.
    apply andb_true_iff in Hu as [H1 Hu]. apply andb_true_iff in Hu as [H2 Hu].
    repeat split.
    + simpl. now rewrite H1, H2, Hu.
    + simpl. apply perm_swap.
    + intros fmt. simpl. apply perm_swap.
  - (* entries: trans *)
    intros m1 m2 m3 _ IH12 _ IH23 Hd Hu.
    destruct (IH12 Hd Hu) as [Hu2 [Hk12 Hp12]].
    destruct (IH23 (distinct_perm _ _ Hk12 Hd) Hu2) as [Hu3 [Hk23 Hp23]].
    repeat split.
    + exact Hu3.
    + now rewrite Hk12.
    + intros fmt. now rewrite Hp12.
  - (* elems: nil *)
    intros _. split; reflexivity.
  - (* elems: cons *)
    intros v v' l l' _ IHv _ IHl Hu. simpl in Hu.
    apply andb_true_iff in Hu as [Huv Hul].
    destruct (IHv Huv) as [Huv' Hv]. destruct (IHl Hul) as [Hul' Hl].
    split.
    + simpl. now rewrite Huv', Hul'.
    + intros fmt. simpl. now rewrite Hv, Hl.
Qed.

(** C10: encoding is deterministic.  Two encodings of a value, whatever
    the order in which its maps (those of Object and SetReference values,
    at any depth) yield their entries, are the same bytes, because the
    encoder writes the entries of a map in the sorted order of the
    keys. *)
Theorem Marshal_deterministic (v v' : Value) :
  same_value v v' ->
  unique_keys v = true ->
  (forall fmt, Marshal fmt v = Marshal fmt v') /\
  (forall E : list (string * result string),
     StronglySorted key_le (sort_entries E) /\
     Permutation (sort_entries E) E).
Proof.
  intros Hs Hu. split.
  - apply (proj1 same_value_Marshal v v' Hs Hu).
  - intros E. split; [apply sort_entries_sorted | apply sort_entries_perm].
Qed.

Lemma Marshal_deterministic_witness :
  same_value
    (ObjectV [("name", StringV "Bob"); ("age", LongV 30)])
    (ObjectV [("age", LongV 30); ("name", StringV "Bob")]) /\
  unique_keys (ObjectV [("name", StringV "Bob"); ("age", LongV 30)]) = true /\
  (forall fmt,
     Marshal fmt (ObjectV [("name", StringV "Bob"); ("age", LongV 30)])
     = Marshal fmt (ObjectV [("age", LongV 30); ("name", StringV "Bob")])).
Proof.
  assert (Hs : same_value
                 (ObjectV [("name", StringV "Bob"); ("age", LongV 30)])
                 (ObjectV [("age", LongV 30); ("name", StringV "Bob")])).
  { apply same_ObjectV. apply same_entries_swap. }
  split; [exact Hs|]. split; [reflexivity|].
  apply (proj1 (Marshal_deterministic _ _ Hs eq_refl)).
Defined.

(* ------------------------------------------------------------------ *)
(** ** The wire shape of an Object *)

(** C4, as stated, fails on its example: the encoder writes the keys of
    the map in sorted order, [age] before [name]. *)
Lemma Marshal_bob_not_in_source_order :
  ~ (exists fmt, Marshal fmt bob = Ok (dq "{'object':{'name':'Bob','age':30}}")).
Proof. intros [fmt H]. vm_compute in H. discriminate H. Qed.

(** C4, amended: encoding an Object wraps the encoding of its mapping
    under the single key [object], and an error of the mapping comes out
    as the error of the Object's marshaler; an Object that is the nil map
    is written as [{"object":null}]; encoding the Object with [name] Bob
    and [age] 30 yields [{"object":{"age":30,"name":"Bob"}}], the keys in
    sorted order; decoding that document, or the same document with the
    keys in the other order, yields an Object with the two entries, a
    String under [name] and an Integer under [age]. *)
Theorem ObjectV_wire_shape :
  (forall fmt obj,
     Marshal fmt (ObjectV obj)
     = marshalerEncoder VObject
         (do inner <- marshal_map (entries (Marshal fmt) obj);
          Ok (dq "{'object':" +++ inner +++ "}"))) /\
  (forall fmt, Marshal fmt ObjectV_nil = Ok (dq "{'object':null}")) /\
  (forall fmt, Marshal fmt bob = Ok (dq "{'object':{'age':30,'name':'Bob'}}")) /\
  (forall pf,
     parseJSON pf (dq "{'object':{'age':30,'name':'Bob'}}")
       = Ok (ObjectV [("age", LongV 30); ("name", StringV "Bob")]) /\
     parseJSON pf (dq "{'object':{'name':'Bob','age':30}}")
       = Ok (ObjectV [("name", StringV "Bob"); ("age", LongV 30)])).
Proof.
  split; [|split; [|split]].
  - intros fmt obj. cbn [Marshal]. unfold ObjectV_MarshalJSON, escape.
    cbn [option_map mapEncoder].
    destruct (marshal_map (entries (Marshal fmt) obj)) as [inner | e];
      reflexivity.
  - intros fmt. reflexivity.
  - intros fmt. vm_compute. reflexivity.
  - intros pf. split; vm_compute; reflexivity.
Qed.

(* ------------------------------------------------------------------ *)
(** ** The response of a query *)

Lemma At_resource (m : list (string * Value)) (v : Value) :
  lookup "resource" m = Some v ->
  GetValue (At (ObjectV m) resource) = Ok v.
Proof.
  intros H. unfold At, field_get, resource. simpl. now rewrite H.
Qed.

(** C5: a successful query whose response body is a JSON document of the
    form [{"resource": <encoded-value>}] returns exactly the value decoded
    from what the document holds under the key [resource]. *)
Theorem Query_returns_resource
    (Expr : Type) (performRequest : Expr -> result Response)
    (checkForResponseErrors : Response -> option error)
    (expr : Expr) (response : Response) (j : json) (v : Value) :
  performRequest expr = Ok response ->
  checkForResponseErrors response = None ->
  read_document (Body response) = Some (JObject [("resource", j)]) ->
  forall parseFloat,
    to_value parseFloat j = Ok v ->
    Query parseFloat Expr performRequest checkForResponseErrors expr = Ok v.
Proof.
  intros Hreq Hok Hbody parseFloat Hv.
  unfold Query, parseResponse, parseJSON. rewrite Hreq, Hok, Hbody.
  cbn [to_value].
  change (String.eqb "resource" "@date") with false.
  change (String.eqb "resource" "@ts") with false.
  change (String.eqb "resource" "@ref") with false.
  change (String.eqb "resource" "@set") with false.
  change (String.eqb "resource" "object") with false.
  cbv iota. unfold members_value. cbn [map sequence]. rewrite Hv.
  cbn [bind]. now apply At_resource.
Qed.

Lemma Query_returns_resource_witness :
  (fun _ : Value =>
     Ok (mkResponse 200 (dq " { 'resource' : {'@ref':'classes/spells/1'} } ")))
    NullV
  = Ok (mkResponse 200 (dq " { 'resource' : {'@ref':'classes/spells/1'} } ")) /\
  (fun _ : Response => @None error)
    (mkResponse 200 (dq " { 'resource' : {'@ref':'classes/spells/1'} } ")) = None /\
  read_document
    (Body (mkResponse 200 (dq " { 'resource' : {'@ref':'classes/spells/1'} } ")))
  = Some (JObject [("resource", JObject [("@ref", JString "classes/spells/1")])]) /\
  (forall parseFloat,
     to_value parseFloat (JObject [("@ref", JString "classes/spells/1")])
     = Ok (RefV "classes/spells/1")) /\
  (forall parseFloat,
     Query parseFloat Value
       (fun _ =>
          Ok (mkResponse 200 (dq " { 'resource' : {'@ref':'classes/spells/1'} } ")))
       (fun _ => None) NullV
     = Ok (RefV "classes/spells/1")).
Proof.
  split; [reflexivity|]. split; [reflexivity|].
  split; [vm_compute; reflexivity|]. split; [reflexivity|].
  intros parseFloat.
  apply (Query_returns_resource Value
           (fun _ =>
              Ok (mkResponse 200 (dq " { 'resource' : {'@ref':'classes/spells/1'} } ")))
           (fun _ => None) NullV
           (mkResponse 200 (dq " { 'resource' : {'@ref':'classes/spells/1'} } "))
           (JObject [("@ref", JString "classes/spells/1")])
           (RefV "classes/spells/1")
           eq_refl eq_refl).
  - vm_compute. reflexivity.
  - reflexivity.
Defined.

(* ------------------------------------------------------------------ *)
(** ** The calendar of [absDate] and of [time.Date] agree *)

Lemma absDate_halves (a : Z) :
  absDate a =
  let '(y, yday) := year_day (a / secondsPerDay) in
  let '(m, d) := month_day (isLeap (y + absoluteZeroYear)) yday in
  (y + absoluteZeroYear, m, d).
Proof.
  unfold absDate, year_day, month_day. cbv zeta.
  repeat match goal with
         | |- context [if ?b then _ else _] => destruct b eqn:?
         end; reflexivity.
Qed.

Lemma Date_halves (year month day hour min sec : Z) :
  Date year month day hour min sec =
  (days_before_year (year - absoluteZeroYear)
   + day_of_year (isLeap year) month day) * secondsPerDay
  + (hour * secondsPerHour + min * secondsPerMinute + sec) - unixToAbsolute.
Proof.
  unfold Date, days_before_year, day_of_year. cbv zeta.
  destruct (isLeap year && (3 <=? month)); lia.
Qed.

Lemma year_day_spec (D : Z) :
  0 <= D ->
  let '(y, yday) := year_day D in
  0 <= y /\ days_before_year y + yday = D /\
  0 <= yday <= 365 /\
  (yday = 365 -> isLeap (y + absoluteZeroYear) = true).
Proof.
  intros HD. unfold year_day. cbv zeta.
  unfold daysPer400Years, daysPer100Years, daysPer4Years.
  rewrite !Z.shiftr_div_pow2 by lia.
  change (2 ^ 2) with 4.
  set (n400 := D / (365 * 400 + 97)).
  set (r400 := D - (365 * 400 + 97) * n400).
  set (q100 := r400 / (365 * 100 + 24)).
  set (n100 := q100 - q100 / 4).
  set (r100 := r400 - (365 * 100 + 24) * n100).
  set (n4 := r100 / (365 * 4 + 1)).
  set (r4 := r100 - (365 * 4 + 1) * n4).
  set (q1 := r4 / 365).
  set (n1 := q1 - q1 / 4).
  assert (H400 : 0 <= n400 /\ 0 <= r400 < 146097).
  { unfold r400, n400. Z.div_mod_to_equations. lia. }
  assert (H100 : 0 <= n100 <= 3 /\ 0 <= r100 /\ (n100 < 3 -> r100 < 36524) /\ (n100 = 3 -> r100 <= 36524)).
  { unfold r100, n100, q100. Z.div_mod_to_equations. lia. }
  assert (H4 : 0 <= n4 <= 24 /\ 0 <= r4 < 1461 /\ (n100 < 3 -> n4 = 24 -> r4 < 1460)).
  { unfold r4, n4. Z.div_mod_to_equations. lia. }
  assert (H1 : 0 <= n1 <= 3 /\ 0 <= r4 - 365 * n1 <= 365 /\ (r4 - 365 * n1 = 365 -> n1 = 3 /\ r4 = 1460)).
  { unfold n1, q1. Z.div_mod_to_equations. lia. }
  assert (E400 : r400 = D - 146097 * n400) by reflexivity.
  assert (E100 : r100 = r400 - 36524 * n100) by reflexivity.
  assert (E4 : r4 = r100 - 1461 * n4) by reflexivity.
  clearbody n400 r400 q100 n100 r100 n4 r4 q1 n1.
  split; [lia|]. split.
  - unfold days_before_year, daysPer400Years, daysPer100Years, daysPer4Years. cbv zeta.
    set (y := 400 * n400 + 100 * n100 + 4 * n4 + n1).
    assert (Q400 : y / 400 = n400).
    { unfold y. Z.div_mod_to_equations. lia. }
    rewrite Q400.
    assert (Q100 : (y - 400 * n400) / 100 = n100).
    { unfold y. Z.div_mod_to_equations. lia. }
    rewrite Q100.
    assert (Q4 : (y - 400 * n400 - 100 * n100) / 4 = n4).
    { unfold y. Z.div_mod_to_equations. lia. }
    rewrite Q4. unfold y. lia.
  - split; [lia|]. intros Hy.
    destruct H1 as [_ [_ H1]]. destruct (H1 Hy) as [-> ->].
    assert (Hc : n4 < 24 \/ n100 = 3) by lia.
    unfold isLeap, absoluteZeroYear.
    rewrite andb_true_iff, orb_true_iff, negb_true_iff, !Z.eqb_eq, Z.eqb_neq.
    Z.div_mod_to_equations. lia.
Qed.

Ltac closed_values :=
  repeat match goal with
         | |- context [daysBefore ?x] =>
             let v := eval vm_compute in (daysBefore x) in
             progress change (daysBefore x) with v
         | |- context [?a =? ?b] =>
             let v := eval vm_compute in (a =? b) in
             match v with
             | true => change (a =? b) with true
             | false => change (a =? b) with false
             end
         | |- context [?a <=? ?b] =>
             let v := eval vm_compute in (a <=? b) in
             match v with
             | true => change (a <=? b) with true
             | false => change (a <=? b) with false
             end
         end.

Lemma month_day_spec (leap : bool) (yday : Z) :
  0 <= yday <= 365 ->
  (yday = 365 -> leap = true) ->
  let '(m, d) := month_day leap yday in
  1 <= m <= 12 /\
  1 <= d <= (if (m =? 2) && leap then 29 else daysBefore m - daysBefore (m - 1)) /\
  day_of_year leap m d = yday.
Proof.
  intros Hy Hl. unfold month_day.
  destruct (leap && (yday =? 31 + 29 - 1)) eqn:E1.
  - apply andb_true_iff in E1 as [-> E1]. apply Z.eqb_eq in E1. subst yday.
    vm_compute. repeat split; discriminate.
  - cbv zeta.
    set (day := if leap && (31 + 29 - 1 <? yday) then yday - 1 else yday).
    assert (Hday : 0 <= day <= 364 /\
                   ((leap = true /\ 59 < yday /\ day = yday - 1 /\ 59 <= day) \/
                    (leap = true /\ yday < 59 /\ day = yday) \/
                    (leap = false /\ day = yday))).
    { unfold day. destruct leap; simpl in *.
      - apply Z.eqb_neq in E1. destruct (59 <? yday) eqn:E2.
        + apply Z.ltb_lt in E2. lia.
        + apply Z.ltb_ge in E2. lia.
      - assert (yday <> 365) by (intros H; specialize (Hl H); discriminate). lia. }
    clearbody day. destruct Hday as [Hd Hcases].
    assert (Hm : day / 31 = 0 \/ day / 31 = 1 \/ day / 31 = 2 \/ day / 31 = 3 \/
                 day / 31 = 4 \/ day / 31 = 5 \/ day / 31 = 6 \/ day / 31 = 7 \/
                 day / 31 = 8 \/ day / 31 = 9 \/ day / 31 = 10 \/ day / 31 = 11).
    { Z.div_mod_to_equations. lia. }
    assert (Hr : 31 * (day / 31) <= day < 31 * (day / 31) + 31).
    { Z.div_mod_to_equations. lia. }
    unfold day_of_year.
    repeat (destruct Hm as [Hm | Hm]); rewrite Hm in *;
      closed_values;
      match goal with
      | |- context [?a <=? day] => destruct (a <=? day) eqn:E2;
          [apply Z.leb_le in E2 | apply Z.leb_gt in E2]
      end;
      closed_values;
      destruct Hcases as [[-> Hc] | [[-> Hc] | [-> Hc]]];
      cbn [andb]; cbv beta iota; lia.
Qed.
Lemma absClock_spec (a : Z) :
  0 <= a ->
  let '(h, mi, s) := absClock a in
  0 <= h < 24 /\ 0 <= mi < 60 /\ 0 <= s < 60 /\
  h * secondsPerHour + mi * secondsPerMinute + s = a mod secondsPerDay.
Proof.
  intros Ha. unfold absClock, secondsPerDay, secondsPerHour, secondsPerMinute.
  cbv zeta. Z.div_mod_to_equations. lia.
Qed.

(** The date and the clock that [absDate] and [absClock] read off a
    number of seconds are a valid civil time, and [time.Date] takes it
    back to the same instant. *)
Lemma absDate_Date (a : Z) :
  0 <= a ->
  let '(year, month, day) := absDate a in
  let '(hour, min, sec) := absClock a in
  Date year month day hour min sec = a - unixToAbsolute /\
  1 <= month <= 12 /\ 1 <= day <= daysIn month year /\
  0 <= hour < 24 /\ 0 <= min < 60 /\ 0 <= sec < 60.
Proof.
  intros Ha. rewrite absDate_halves.
  assert (HD : 0 <= a / secondsPerDay).
  { apply Z.div_pos; [exact Ha | reflexivity]. }
  pose proof (year_day_spec (a / secondsPerDay) HD) as Hyd.
  destruct (year_day (a / secondsPerDay)) as [y yday].
  destruct Hyd as [Hy [Hsum [Hrange Hleap]]].
  pose proof (month_day_spec (isLeap (y + absoluteZeroYear)) yday Hrange Hleap) as Hmd.
  destruct (month_day (isLeap (y + absoluteZeroYear)) yday) as [m d].
  destruct Hmd as [Hm [Hd Hdoy]].
  pose proof (absClock_spec a Ha) as Hc.
  destruct (absClock a) as [[h mi] s].
  destruct Hc as [Hh [Hmi [Hs Hclock]]].
  repeat split; try lia.
  - rewrite Date_halves.
    replace (y + absoluteZeroYear - absoluteZeroYear) with y by lia.
    rewrite Hdoy, Hsum, Hclock.
    rewrite (Z.div_mod a secondsPerDay) at 3 by discriminate. lia.
  - unfold daysIn. lia.
Qed.

(* ------------------------------------------------------------------ *)
(** ** The wire shape of a Time *)

Lemma formatNano9_chars (n : Z) : all_chars ts_char (formatNano9 n) = true.
Proof.
  unfold formatNano9.
  set (buf := list_ascii_of_string (fixed_digits 9 n EmptyString)).
  assert (Hk : forallb is_digit (rev (drop_zeros (rev buf))) = true).
  { rewrite forallb_rev. apply drop_zeros_forallb. rewrite forallb_rev.
    unfold buf. rewrite all_chars_to_list. now apply fixed_digits_digits. }
  destruct (rev (drop_zeros (rev buf))) as [|c kept]; [reflexivity|].
  cbn [all_chars]. rewrite all_chars_of_list.
  apply andb_true_iff. split; [reflexivity|].
  revert Hk. generalize (c :: kept). intros l Hl.
  rewrite forallb_forall in *. intros x Hx. unfold ts_char.
  now rewrite (Hl x Hx).
Qed.

Lemma Format_ts_chars (t : Time) : all_chars ts_char (Format_ts t) = true.
Proof.
  unfold Format_ts.
  now rewrite !all_chars_app, Format_seconds_chars, formatNano9_chars.
Qed.

Lemma escape_Ok (key e : string) :
  escape key (Ok e) = Ok ("{" +++ (quote key +++ ":" +++ e) +++ "}").
Proof. reflexivity. Qed.

Lemma ts_document (s : string) :
  "{" +++ (quote "@ts" +++ ":" +++ String DQ (s +++ String DQ EmptyString)) +++ "}"
  = dq "{'@ts':'" +++ s +++ dq "'}".
Proof. cbn. now rewrite !sapp_assoc. Qed.

Lemma TimeV_MarshalJSON_text (t : Time) :
  TimeV_MarshalJSON t = Ok (dq "{'@ts':'" +++ Format_ts t +++ dq "'}").
Proof.
  unfold TimeV_MarshalJSON. rewrite escape_Ok.
  rewrite (quote_safe (Format_ts t)).
  - f_equal. apply ts_document.
  - apply all_chars_weaken with (p := ts_char);
      [apply ts_char_safe | apply Format_ts_chars].
Qed.

(** C1, as stated, fails on a Time with no nanoseconds: the encoding has
    no fractional digits at all, where nine are claimed.  It also fails on
    a Time that is not held in UTC: the encoding is the clock of the
    Time's location followed by [Z], which is another instant. *)
Lemma TimeV_MarshalJSON_not_fixed_point :
  ~ (exists frac : string,
       fixed_fraction (nsec (mkTime 1592216430 0 0)) frac /\
       TimeV_MarshalJSON (mkTime 1592216430 0 0)
       = Ok (dq "{'@ts':'" +++ Format_seconds (mkTime 1592216430 0 0)
               +++ frac +++ dq "Z'}")) /\
  (TimeV_MarshalJSON east_of_UTC = Ok (dq "{'@ts':'2020-06-15T11:20:30.5Z'}") /\
   Date 2020 6 15 11 20 30 <> unix east_of_UTC).
Proof.
  split.
  - intros [frac [[ds [-> _]] H]]. vm_compute in H. discriminate H.
  - split; [vm_compute; reflexivity | vm_compute; discriminate].
Qed.

(** C1, amended: for every Time held in UTC (an instant that Go's
    calendar reaches, from its absolute zero year on), encoding produces
    the single-key JSON object [{"@ts": s}] where [s] is the instant
    rendered in UTC as date, [T] and time of day, followed by the
    fractional second with its trailing zeros trimmed (at most nine
    digits, and neither digits nor point when the nanoseconds are zero),
    and the suffix [Z]. *)
Theorem TimeV_wire_shape (t : Time) :
  offset t = 0 ->
  0 <= nsec t < 10 ^ 9 ->
  - unixToAbsolute <= unix t < 2 ^ 63 ->
  exists (year month day hour min sec : Z) (frac : string),
    TimeV_MarshalJSON t
    = Ok (dq "{'@ts':'"
            +++ appendInt year 4 +++ "-" +++ appendInt month 2 +++ "-"
            +++ appendInt day 2 +++ "T" +++ appendInt hour 2 +++ ":"
            +++ appendInt min 2 +++ ":" +++ appendInt sec 2
            +++ frac +++ dq "Z'}") /\
    Date year month day hour min sec = unix t /\
    1 <= month <= 12 /\ 1 <= day <= daysIn month year /\
    0 <= hour < 24 /\ 0 <= min < 60 /\ 0 <= sec < 60 /\
    trimmed_fraction (nsec t) frac.
Proof.
  intros Hutc Hns Hrange.
  assert (Ha : abs t = unix t + unixToAbsolute).
  { unfold abs, uint64. rewrite Hutc, Z.add_0_r. apply Z.mod_small.
    assert (H : unixToAbsolute = 9223372028715321600) by reflexivity.
    lia. }
  pose proof (absDate_Date (abs t)) as Hcal.
  rewrite TimeV_MarshalJSON_text.
  unfold Format_ts, Format_seconds, Format_date.
  destruct (absDate (abs t)) as [[year month] day].
  destruct (absClock (abs t)) as [[hour min] sec].
  exists year, month, day, hour, min, sec, (formatNano9 (nsec t)).
  destruct Hcal as [HD Hr]; [lia|].
  split; [|split; [lia|]].
  - f_equal. now rewrite !sapp_assoc.
  - repeat split; try lia. now apply formatNano9_spec.
Qed.

Lemma TimeV_wire_shape_witness :
  exists (year month day hour min sec : Z) (frac : string),
    TimeV_MarshalJSON (mkTime 1592216430 120000000 0)
    = Ok (dq "{'@ts':'"
            +++ appendInt year 4 +++ "-" +++ appendInt month 2 +++ "-"
            +++ appendInt day 2 +++ "T" +++ appendInt hour 2 +++ ":"
            +++ appendInt min 2 +++ ":" +++ appendInt sec 2
            +++ frac +++ dq "Z'}") /\
    Date year month day hour min sec = unix (mkTime 1592216430 120000000 0) /\
    1 <= month <= 12 /\ 1 <= day <= daysIn month year /\
    0 <= hour < 24 /\ 0 <= min < 60 /\ 0 <= sec < 60 /\
    trimmed_fraction (nsec (mkTime 1592216430 120000000 0)) frac.
Proof.
  apply (TimeV_wire_shape (mkTime 1592216430 120000000 0)).
  - reflexivity.
  - simpl. lia.
  - assert (H : unixToAbsolute = 9223372028715321600) by reflexivity.
    simpl. lia.
Defined.

(* ------------------------------------------------------------------ *)
(** ** The encoding is the text of a document *)

Lemma insert_entry_map {A B} (f : A -> B) e l :
  insert_entry (on_value f e) (map (on_value f) l)
  = map (on_value f) (insert_entry e l).
Proof.
  induction l as [|x l IH]; simpl; [reflexivity|].
  destruct e as [k a], x as [k' a']. simpl in *.
  destruct (String.leb k k'); simpl; [reflexivity|].
  now rewrite IH.
Qed.

Lemma sort_entries_map {A B} (f : A -> B) l :
  sort_entries (map (on_value f) l) = map (on_value f) (sort_entries l).
Proof.
  induction l as [|e l IH]; simpl; [reflexivity|].
  now rewrite IH, insert_entry_map.
Qed.

Lemma sequence_Ok {A B} (g : A -> B) l :
  sequence (map (fun x => Ok (g x)) l) = Ok (map g l).
Proof. induction l as [|x l IH]; simpl; [reflexivity | now rewrite IH]. Qed.

Lemma marshal_map_render (M : list (string * json)) :
  marshal_map (map (on_value (fun j => Ok (render j))) M)
  = Ok (render (JObject (sort_entries M))).
Proof.
  unfold marshal_map. rewrite sort_entries_map, map_map.
  rewrite (map_ext _ (fun kv : string * json => Ok (on_value render kv))).
  - rewrite sequence_Ok. simpl. do 3 f_equal.
    rewrite map_map. f_equal. apply map_ext. now intros [k j].
  - now intros [k j].
Qed.

Lemma wire_safe_entries fmt pf (m : list (string * Value)) :
  (fix all (m : list (string * Value)) : Prop :=
     match m with
     | [] => True
     | (k, x) :: rest => clean k = true /\ wire_safe fmt pf x /\ all rest
     end) m <->
  Forall (fun kv => clean (fst kv) = true /\ wire_safe fmt pf (snd kv)) m.
Proof.
  induction m as [|[k x] m IH].
  - split; constructor.
  - split.
    + intros [Hk [Hx Hm]]. constructor; [now split | now apply IH].
    + intros H. inversion H as [|? ? [Hk Hx] Hm]; subst.
      split; [exact Hk|]. split; [exact Hx | now apply IH].
Qed.

Lemma wire_safe_elems fmt pf (l : list Value) :
  (fix all (l : list Value) : Prop :=
     match l with
     | [] => True
     | x :: rest => wire_safe fmt pf x /\ all rest
     end) l <->
  Forall (wire_safe fmt pf) l.
Proof.
  induction l as [|x l IH].
  - split; constructor.
  - split.
    + intros [Hx Hl]. constructor; [exact Hx | now apply IH].
    + intros H. inversion H; subst. split; [assumption | now apply IH].
Qed.

Lemma entries_wire fmt pf (m : list (string * Value)) :
  Forall (fun kv => wire_safe fmt pf (snd kv) ->
                    Marshal fmt (snd kv) = Ok (render (wire fmt (snd kv)))) m ->
  Forall (fun kv => clean (fst kv) = true /\ wire_safe fmt pf (snd kv)) m ->
  entries (Marshal fmt) m
  = map (on_value (fun j => Ok (render j))) (map (on_value (wire fmt)) m).
Proof.
  intros IH Hs. unfold entries. rewrite map_map.
  induction m as [|[k x] m IHm]; simpl; [reflexivity|].
  inversion IH as [|? ? Hx IH']; subst. inversion Hs as [|? ? [_ Hsx] Hs']; subst.
  simpl in *. rewrite (Hx Hsx). f_equal. now apply IHm.
Qed.

Lemma Marshal_wire fmt pf (v : Value) :
  wire_safe fmt pf v -> Marshal fmt v = Ok (render (wire fmt v)).
Proof.
  induction v as [s | n | f | b | t | t | s | m IH | m IH | l IH | | | | | ]
    using Value_nested_ind; intros Hs; try reflexivity.
  - (* DoubleV *)
    destruct Hs as [Hf _]. simpl. destruct f; try discriminate; reflexivity.
  - (* SetRefV *)
    destruct Hs as [_ Hm]. apply wire_safe_entries in Hm.
    cbn [Marshal]. unfold SetRefV_MarshalJSON. cbn [option_map mapEncoder].
    rewrite (entries_wire fmt pf m IH Hm), marshal_map_render. reflexivity.
  - (* ObjectV *)
    destruct Hs as [_ Hm]. apply wire_safe_entries in Hm.
    cbn [Marshal]. unfold ObjectV_MarshalJSON. cbn [option_map mapEncoder].
    rewrite (entries_wire fmt pf m IH Hm), marshal_map_render. reflexivity.
  - (* ArrayV *)
    apply wire_safe_elems in Hs. cbn [Marshal sliceEncoder].
    unfold marshal_array.
    assert (H : map (Marshal fmt) l = map (fun x => Ok (render (wire fmt x))) l).
    { induction l as [|x l IHl]; simpl; [reflexivity|].
      inversion IH; subst. inversion Hs; subst. f_equal; auto. }
    rewrite H, sequence_Ok. simpl. now rewrite map_map.
Qed.

(* ------------------------------------------------------------------ *)
(** ** Integers and their decimal text *)

Lemma digits_value_from (acc : Z) (ds : list ascii) :
  fold_left (fun a c => 10 * a + (code c - 48)) ds acc
  = acc * 10 ^ Z.of_nat (List.length ds) + digits_value ds.
Proof.
  unfold digits_value. revert acc.
  induction ds as [|c ds IH]; intros acc.
  - simpl. lia.
  - cbn [fold_left List.length]. rewrite IH, (IH (10 * 0 + (code c - 48))).
    rewrite Nat2Z.inj_succ, Z.pow_succ_r by lia. lia.
Qed.

Lemma string_value_cons (c : ascii) (s : string) :
  string_value (String c s)
  = (code c - 48) * 10 ^ Z.of_nat (String.length s) + string_value s.
Proof.
  unfold string_value, digits_value. cbn [list_ascii_of_string fold_left].
  rewrite digits_value_from. f_equal. f_equal. f_equal. f_equal.
  induction s; simpl; congruence.
Qed.

Lemma digits_loop_value fuel u acc :
  0 <= u < 10 ^ Z.of_nat fuel -> (0 < fuel)%nat ->
  string_value (digits_loop fuel u acc)
  = u * 10 ^ Z.of_nat (String.length acc) + string_value acc.
Proof.
  revert u acc. induction fuel as [|k IH]; intros u acc Hu Hk; [lia|].
  simpl digits_loop. destruct (10 <=? u) eqn:E.
  - apply Z.leb_le in E.
    assert (Hk' : (0 < k)%nat).
    { destruct k; [|lia]. simpl in Hu. lia. }
    rewrite IH; [| |exact Hk'].
    + rewrite string_value_cons, code_digit by (apply Z.mod_pos_bound; lia).
      cbn [String.length]. rewrite Nat2Z.inj_succ, Z.pow_succ_r by lia.
      rewrite (Z.div_mod u 10) at 3 by lia. lia.
    + rewrite Nat2Z.inj_succ, Z.pow_succ_r in Hu by lia.
      split; [apply Z.div_pos; lia | apply Z.div_lt_upper_bound; lia].
  - apply Z.leb_gt in E.
    rewrite string_value_cons, code_digit by lia. lia.
Qed.

Lemma utoa_value (u : Z) : 0 <= u < 10 ^ 20 -> string_value (utoa u) = u.
Proof.
  intros Hu. unfold utoa. rewrite digits_loop_value; [|exact Hu | lia].
  cbn. lia.
Qed.

Lemma utoa_digits (u : Z) : 0 <= u -> all_chars is_digit (utoa u) = true.
Proof. intros Hu. now apply digits_loop_digits. Qed.

Lemma digits_loop_head fuel u acc :
  0 < u < 10 ^ Z.of_nat fuel ->
  exists d rest, 1 <= d <= 9 /\ digits_loop fuel u acc = String (digit d) rest.
Proof.
  revert u acc. induction fuel as [|k IH]; intros u acc Hu.
  - simpl in Hu. lia.
  - simpl digits_loop. destruct (10 <=? u) eqn:E.
    + apply Z.leb_le in E. apply IH.
      rewrite Nat2Z.inj_succ, Z.pow_succ_r in Hu by lia.
      split; [apply Z.div_str_pos; lia | apply Z.div_lt_upper_bound; lia].
    + apply Z.leb_gt in E. exists u, acc. split; [lia | reflexivity].
Qed.

Lemma span_all (p : ascii -> bool) (s : string) :
  all_chars p s = true -> span p s = (s, EmptyString).
Proof.
  induction s as [|c s IH]; simpl; [reflexivity|].
  rewrite andb_true_iff. intros [Hc Hs]. now rewrite Hc, IH.
Qed.

Lemma digit_eqb_zero (d : Z) : 1 <= d <= 9 -> Ascii.eqb (digit d) "0" = false.
Proof.
  intros Hd. apply Ascii.eqb_neq. intros H.
  apply (f_equal code) in H. rewrite code_digit in H by lia.
  change (code "0") with 48 in H. lia.
Qed.

Lemma digit_eqb_minus (d : Z) : 0 <= d <= 9 -> Ascii.eqb (digit d) "-" = false.
Proof.
  intros Hd. apply Ascii.eqb_neq. intros H.
  apply (f_equal code) in H. rewrite code_digit in H by lia.
  change (code "-") with 45 in H. lia.
Qed.

(** The decimal text of a natural number below [10^20]: [0], or digits
    that start with one other than [0]. *)
Lemma utoa_shape (u : Z) :
  0 <= u < 10 ^ 20 ->
  all_chars is_digit (utoa u) = true /\
  string_value (utoa u) = u /\
  (utoa u = "0" \/
   exists d rest, 1 <= d <= 9 /\ utoa u = String (digit d) rest).
Proof.
  intros Hu. split; [apply utoa_digits; lia|]. split; [now apply utoa_value|].
  destruct (Z.eq_dec u 0) as [-> | Hne].
  - left. reflexivity.
  - right. apply digits_loop_head. change (Z.of_nat 20) with 20. lia.
Qed.

Lemma digits_number_ok (s : string) :
  all_chars is_digit s = true ->
  (s = "0" \/ exists d rest, 1 <= d <= 9 /\ s = String (digit d) rest) ->
  number_ok s = true /\ number_ok (String "-" s) = true.
Proof.
  intros Hd [-> | [d [rest [Hr ->]]]]; [split; reflexivity|].
  assert (H : number_ok (String (digit d) rest) = true).
  { unfold number_ok. rewrite digit_eqb_minus, digit_eqb_zero by lia.
    unfold digits1. rewrite (span_all _ _ Hd). reflexivity. }
  split; [exact H|].
  unfold number_ok in *. change (Ascii.eqb "-" "-") with true. cbv iota.
  rewrite digit_eqb_minus in H by lia. exact H.
Qed.

Lemma in_int64_bounds (n : Z) : in_int64 n = true -> - 2 ^ 63 <= n < 2 ^ 63.
Proof.
  unfold in_int64. rewrite andb_true_iff, Z.leb_le, Z.ltb_lt. tauto.
Qed.

Lemma formatInt_shape (n : Z) :
  in_int64 n = true ->
  number_ok (formatInt n) = true /\
  all_chars is_num_char (formatInt n) = true /\
  integer_literal (formatInt n) = true /\
  atoi (formatInt n) = n.
Proof.
  intros Hn. apply in_int64_bounds in Hn.
  assert (Hu : 0 <= Z.abs n < 10 ^ 20) by lia.
  destruct (utoa_shape (Z.abs n) Hu) as [Hd [Hv Hs]].
  destruct (digits_number_ok _ Hd Hs) as [Hok Hok'].
  unfold formatInt. destruct (n <? 0) eqn:E.
  - apply Z.ltb_lt in E. cbn [String.append]. repeat split.
    + exact Hok'.
    + cbn [all_chars]. apply andb_true_iff. split; [reflexivity|].
      eapply all_chars_weaken; [|exact Hd]. intros c Hc. unfold is_num_char.
      now rewrite Hc.
    + unfold integer_literal. cbn [all_chars]. apply andb_true_iff.
      split; [reflexivity|].
      eapply all_chars_weaken; [|exact Hd]. intros c Hc. now rewrite Hc.
    + unfold atoi. change (Ascii.eqb "-" "-") with true. cbv iota.
      fold (string_value (utoa (Z.abs n))). rewrite Hv. lia.
  - apply Z.ltb_ge in E. cbn [String.append]. repeat split.
    + exact Hok.
    + eapply all_chars_weaken; [|exact Hd]. intros c Hc. unfold is_num_char.
      now rewrite Hc.
    + unfold integer_literal.
      eapply all_chars_weaken; [|exact Hd]. intros c Hc. now rewrite Hc.
    + unfold atoi. destruct Hs as [Hs | [d [rest [Hr Hs]]]]; rewrite Hs.
      * rewrite Hs in Hv. cbn in Hv. cbn. lia.
      * rewrite digit_eqb_minus by lia. rewrite <- Hs.
        fold (string_value (utoa (Z.abs n))). rewrite Hv. lia.
Qed.

(* ------------------------------------------------------------------ *)
(** ** Dates and timestamps read back *)

Lemma string_length_list (s : string) :
  List.length (list_ascii_of_string s) = String.length s.
Proof. induction s; simpl; congruence. Qed.

Lemma take_digits_app (n : nat) (acc : Z) (ds rest : string) :
  String.length ds = n -> all_chars is_digit ds = true ->
  take_digits n acc (ds +++ rest)
  = Some (acc * 10 ^ Z.of_nat n + string_value ds, rest).
Proof.
  revert n acc. induction ds as [|c ds IH]; intros n acc Hn Hd.
  - subst n. cbn. f_equal. f_equal. lia.
  - subst n. cbn [String.length take_digits String.append].
    cbn [all_chars] in Hd. apply andb_true_iff in Hd as [Hc Hd].
    rewrite Hc, (IH _ _ eq_refl Hd), string_value_cons.
    rewrite Nat2Z.inj_succ, Z.pow_succ_r by lia. f_equal. f_equal. lia.
Qed.

Lemma digits_loop_length (fuel w : nat) (u : Z) (acc : string) :
  (1 <= w)%nat -> 0 <= u < 10 ^ Z.of_nat w ->
  (String.length (digits_loop fuel u acc) <= w + String.length acc)%nat.
Proof.
  revert w u acc. induction fuel as [|k IH]; intros w u acc Hw Hu; simpl.
  - lia.
  - destruct (10 <=? u) eqn:E.
    + apply Z.leb_le in E.
      destruct w as [|[|w]]; [lia | simpl in Hu; lia |].
      specialize (IH (S w) (u / 10) (String (digit (u mod 10)) acc)).
      cbn [String.length] in IH.
      assert (H : 0 <= u / 10 < 10 ^ Z.of_nat (S w)).
      { rewrite (Nat2Z.inj_succ (S w)), Z.pow_succ_r in Hu by lia.
        split; [apply Z.div_pos; lia | apply Z.div_lt_upper_bound; lia]. }
      specialize (IH ltac:(lia) H). lia.
    + simpl. lia.
Qed.

Lemma repeat_char_length (c : ascii) (n : nat) :
  String.length (repeat_char c n) = n.
Proof. induction n; simpl; congruence. Qed.

Lemma string_value_zeros (n : nat) (s : string) :
  string_value (repeat_char "0" n +++ s) = string_value s.
Proof.
  induction n as [|n IH]; [reflexivity|].
  cbn [repeat_char String.append]. rewrite string_value_cons, IH.
  change (code "0") with 48. lia.
Qed.

(** Zero padding: below [10^w], [appendInt x w] is [w] digits that
    denote [x]. *)
Lemma appendInt_exact_below (w : nat) (x : Z) :
  (1 <= w <= 20)%nat -> 0 <= x < 10 ^ Z.of_nat w -> appendInt_exact w x = true.
Proof.
  intros Hw Hx.
  assert (H20 : 10 ^ Z.of_nat w <= 10 ^ 20).
  { apply Z.pow_le_mono_r; lia. }
  assert (Hu : 0 <= x < 10 ^ 20) by lia.
  assert (Hlen : (String.length (utoa x) <= w)%nat).
  { pose proof (digits_loop_length 20 w x EmptyString (proj1 Hw) Hx) as H.
    change (String.length EmptyString) with 0%nat in H. unfold utoa. lia. }
  unfold appendInt_exact, appendInt.
  replace (x <? 0) with false by (symmetry; apply Z.ltb_ge; lia).
  rewrite Z.abs_eq by lia. cbn [String.append].
  rewrite slength_app, repeat_char_length, all_chars_app, string_value_zeros.
  rewrite all_chars_repeat by reflexivity.
  rewrite utoa_digits, utoa_value by lia.
  rewrite Z.eqb_refl, !andb_true_r. apply Nat.eqb_eq. lia.
Qed.

Lemma appendInt_exact_4 (x : Z) : 0 <= x <= 9999 -> appendInt_exact 4 x = true.
Proof. intros Hx. apply appendInt_exact_below; [lia | simpl; lia]. Qed.

Lemma appendInt_exact_2 (x : Z) : 0 <= x <= 99 -> appendInt_exact 2 x = true.
Proof. intros Hx. apply appendInt_exact_below; [lia | simpl; lia]. Qed.

Lemma take_digits_appendInt (w : nat) (x : Z) (rest : string) :
  appendInt_exact w x = true ->
  take_digits w 0 (appendInt x w +++ rest) = Some (x, rest).
Proof.
  unfold appendInt_exact. rewrite !andb_true_iff, Nat.eqb_eq, Z.eqb_eq.
  intros [[Hl Hd] Hv]. rewrite (take_digits_app w 0 _ rest Hl Hd), Hv.
  reflexivity.
Qed.

Lemma daysIn_bound (month year : Z) : 1 <= month <= 12 -> daysIn month year <= 31.
Proof.
  intros Hm. unfold daysIn.
  assert (H : month = 1 \/ month = 2 \/ month = 3 \/ month = 4 \/ month = 5 \/
              month = 6 \/ month = 7 \/ month = 8 \/ month = 9 \/ month = 10 \/
              month = 11 \/ month = 12) by lia.
  repeat (destruct H as [H | H]); subst month;
    destruct (isLeap year); vm_compute; discriminate.
Qed.

Lemma expect_head (c : ascii) (rest : string) :
  expect c (String c rest) = Some rest.
Proof. unfold expect. now rewrite Ascii.eqb_refl. Qed.

Lemma read_date_text (year month day : Z) (A B C rest : string) :
  take_digits 4 0 (A +++ String "-" (B +++ String "-" (C +++ rest)))
    = Some (year, String "-" (B +++ String "-" (C +++ rest))) ->
  take_digits 2 0 (B +++ String "-" (C +++ rest))
    = Some (month, String "-" (C +++ rest)) ->
  take_digits 2 0 (C +++ rest) = Some (day, rest) ->
  1 <= month <= 12 -> 1 <= day <= daysIn month year ->
  read_date ((A +++ "-" +++ B +++ "-" +++ C) +++ rest)
  = Some (year, month, day, rest).
Proof.
  intros HA HB HC Hm Hd. unfold read_date.
  rewrite !sapp_assoc.
  change ("-" +++ B +++ "-" +++ C +++ rest)
    with (String "-" (B +++ String "-" (C +++ rest))).
  rewrite HA, expect_head, HB, expect_head, HC.
  replace ((1 <=? month) && (month <=? 12) && (1 <=? day) && (day <=? daysIn month year))
    with true; [reflexivity|].
  symmetry. rewrite !andb_true_iff, !Z.leb_le. lia.
Qed.

Lemma absDate_fields (a year month day : Z) :
  0 <= a -> absDate a = (year, month, day) ->
  1 <= month <= 12 /\ 1 <= day <= daysIn month year.
Proof.
  intros Ha E. pose proof (absDate_Date a Ha) as H. rewrite E in H.
  destruct (absClock a) as [[hour min] sec]. tauto.
Qed.

Lemma read_date_Format (t : Time) (year month day : Z) (rest : string) :
  0 <= abs t ->
  absDate (abs t) = (year, month, day) ->
  0 <= year <= 9999 ->
  read_date (Format_date t +++ rest) = Some (year, month, day, rest).
Proof.
  intros Ha E Hy.
  destruct (absDate_fields _ _ _  _ Ha E) as [Hm Hd].
  pose proof (daysIn_bound month year Hm) as Hb.
  unfold Format_date. rewrite E.
  apply read_date_text.
  - apply take_digits_appendInt, appendInt_exact_4. lia.
  - apply take_digits_appendInt, appendInt_exact_2. lia.
  - apply take_digits_appendInt, appendInt_exact_2. lia.
  - exact Hm.
  - exact Hd.
Qed.

Lemma civil_year_of (t : Time) (year month day : Z) :
  absDate (abs t) = (year, month, day) -> civil_year t = year.
Proof. intros E. unfold civil_year. now rewrite E. Qed.

Lemma wire_time_facts (t : Time) :
  wire_time t = true ->
  offset t = 0 /\ 0 <= nsec t < 10 ^ 9 /\
  abs t = unix t + unixToAbsolute /\ 0 <= abs t /\
  0 <= civil_year t <= 9999.
Proof.
  unfold wire_time.
  rewrite !andb_true_iff, Z.eqb_eq, !Z.leb_le, !Z.ltb_lt.
  intros [[[[[[Ho Hn0] Hn1] Ha0] Ha1] Hy0] Hy1].
  assert (Ha : abs t = unix t + unixToAbsolute).
  { unfold abs, uint64. rewrite Ho, Z.add_0_r. apply Z.mod_small. lia. }
  repeat split; try assumption; lia.
Qed.

Lemma absDate_Date_eq (a year month day hour min sec : Z) :
  0 <= a -> absDate a = (year, month, day) -> absClock a = (hour, min, sec) ->
  Date year month day hour min sec = a - unixToAbsolute /\
  0 <= hour < 24 /\ 0 <= min < 60 /\ 0 <= sec < 60.
Proof.
  intros Ha E1 E2. pose proof (absDate_Date a Ha) as H.
  rewrite E1, E2 in H. tauto.
Qed.

Lemma Time_fields (t : Time) (u n : Z) :
  u = unix t -> n = nsec t -> offset t = 0 -> mkTime u n 0 = t.
Proof. destruct t as [u' n' o']. simpl. now intros -> -> ->. Qed.

Lemma parse_date_Format (t : Time) :
  wire_date t = true -> parse_date (Format_date t) = Some t.
Proof.
  unfold wire_date. rewrite !andb_true_iff, !Z.eqb_eq.
  intros [[Hw Hn] Hmid].
  destruct (wire_time_facts t Hw) as [Ho [_ [Habs [Ha Hy]]]].
  destruct (absDate (abs t)) as [[year month] day] eqn:E.
  rewrite (civil_year_of t _ _ _ E) in Hy.
  destruct (absClock (abs t)) as [[hour min] sec] eqn:Ec.
  destruct (absDate_Date_eq _ _ _ _ _ _ _ Ha E Ec) as [HD [Hh [Hm Hs]]].
  assert (Hz : hour = 0 /\ min = 0 /\ sec = 0).
  { pose proof (absClock_spec (abs t) Ha) as H. rewrite Ec in H.
    destruct H as [_ [_ [_ H]]].
    assert (Hmod : abs t mod secondsPerDay = 0).
    { rewrite Habs, Z.add_mod, Hmid by discriminate. reflexivity. }
    rewrite Hmod in H. unfold secondsPerHour, secondsPerMinute in H. lia. }
  destruct Hz as [-> [-> ->]].
  unfold parse_date.
  rewrite <- (sapp_nil_r (Format_date t)).
  rewrite (read_date_Format t year month day EmptyString Ha E Hy).
  rewrite HD, Habs. f_equal. apply Time_fields; [lia | now rewrite Hn | exact Ho].
Qed.

Lemma read_fraction_digits (ds rest : string) (k : nat) (e acc : Z) :
  (String.length ds <= k)%nat -> Z.of_nat (String.length ds) <= e ->
  all_chars is_digit ds = true ->
  match rest with
  | String c _ => is_digit c = false
  | EmptyString => True
  end ->
  read_fraction k (10 ^ e) acc (ds +++ rest)
  = ((acc * 10 ^ Z.of_nat (String.length ds) + string_value ds)
       * 10 ^ (e - Z.of_nat (String.length ds)), rest).
Proof.
  revert k e acc. induction ds as [|c ds IH]; intros k e acc Hk He Hd Hrest.
  - cbn [String.append String.length]. change (string_value EmptyString) with 0.
    rewrite Z.sub_0_r, Z.mul_1_r, Z.add_0_r.
    destruct k as [|k]; [reflexivity|].
    destruct rest as [|c r]; [reflexivity|]. simpl. now rewrite Hrest.
  - cbn [String.length] in *. destruct k as [|k]; [lia|].
    cbn [all_chars] in Hd. apply andb_true_iff in Hd as [Hc Hd].
    cbn [String.append read_fraction]. rewrite Hc.
    replace (10 ^ e / 10) with (10 ^ (e - 1)).
    + rewrite IH; [|lia|lia|exact Hd|exact Hrest].
      rewrite string_value_cons. f_equal.
      rewrite Nat2Z.inj_succ, Z.pow_succ_r by lia.
      replace (e - 1 - Z.of_nat (String.length ds))
        with (e - Z.succ (Z.of_nat (String.length ds))) by lia.
      lia.
    + replace e with (Z.succ (e - 1)) at 2 by lia.
      rewrite Z.pow_succ_r by lia.
      rewrite Z.mul_comm, Z.div_mul by lia. reflexivity.
Qed.

Lemma string_value_of_list (ds : list ascii) :
  string_value (string_of_list_ascii ds) = digits_value ds.
Proof.
  unfold string_value. now rewrite list_ascii_of_string_of_list_ascii.
Qed.

Lemma read_nanos_formatNano9 (n : Z) :
  0 <= n < 10 ^ 9 -> read_nanos (formatNano9 n +++ "Z") = Some (n, "Z").
Proof.
  intros Hn. destruct (formatNano9_spec n Hn) as [[-> ->] | [Hne [ds H]]].
  - reflexivity.
  - destruct H as [-> [Hd [Hl [Hv _]]]].
    cbn [String.append]. unfold read_nanos.
    change (Ascii.eqb "." ".") with true. cbv iota.
    destruct ds as [|c ds]; [simpl in Hl; lia|].
    assert (Hc : is_digit c = true).
    { simpl in Hd. now apply andb_true_iff in Hd as [Hc _]. }
    cbn [string_of_list_ascii String.append]. rewrite Hc.
    change (String c (string_of_list_ascii ds +++ "Z"))
      with (string_of_list_ascii (c :: ds) +++ "Z").
    assert (Hlen : String.length (string_of_list_ascii (c :: ds))
                   = List.length (c :: ds)).
    { rewrite <- string_length_list.
      now rewrite list_ascii_of_string_of_list_ascii. }
    rewrite (read_fraction_digits _ "Z" 9 9 0).
    + rewrite Hlen, string_value_of_list. f_equal. f_equal. lia.
    + rewrite Hlen. lia.
    + rewrite Hlen. lia.
    + now rewrite all_chars_of_list.
    + reflexivity.
Qed.

Lemma parse_ts_text (year month day hour min sec nanos : Z)
    (D H M S F : string) :
  (forall rest, read_date (D +++ rest) = Some (year, month, day, rest)) ->
  (forall rest, take_digits 2 0 (H +++ rest) = Some (hour, rest)) ->
  (forall rest, take_digits 2 0 (M +++ rest) = Some (min, rest)) ->
  (forall rest, take_digits 2 0 (S +++ rest) = Some (sec, rest)) ->
  0 <= hour < 24 -> 0 <= min < 60 -> 0 <= sec < 60 ->
  read_nanos (F +++ "Z") = Some (nanos, "Z") ->
  parse_ts ((D +++ "T" +++ H +++ ":" +++ M +++ ":" +++ S) +++ F +++ "Z")
  = Some (mkTime (Date year month day hour min sec) nanos 0).
Proof.
  intros HD HH HM HS Hh Hm Hs HF. unfold parse_ts.
  rewrite !sapp_assoc.
  rewrite HD.
  change ("T" +++ H +++ ":" +++ M +++ ":" +++ S +++ F +++ "Z")
    with (String "T" (H +++ ":" +++ M +++ ":" +++ S +++ F +++ "Z")).
  rewrite expect_head, HH.
  change (":" +++ M +++ ":" +++ S +++ F +++ "Z")
    with (String ":" (M +++ ":" +++ S +++ F +++ "Z")).
  rewrite expect_head, HM.
  change (":" +++ S +++ F +++ "Z") with (String ":" (S +++ F +++ "Z")).
  rewrite expect_head, HS.
  replace ((hour <? 24) && (min <? 60) && (sec <? 60)) with true.
  - rewrite HF. reflexivity.
  - symmetry. rewrite !andb_true_iff, !Z.ltb_lt. lia.
Qed.

Lemma parse_ts_Format (t : Time) :
  wire_time t = true -> parse_ts (Format_ts t) = Some t.
Proof.
  intros Hw.
  destruct (wire_time_facts t Hw) as [Ho [Hn [Habs [Ha Hy]]]].
  destruct (absDate (abs t)) as [[year month] day] eqn:E.
  rewrite (civil_year_of t _ _ _ E) in Hy.
  destruct (absClock (abs t)) as [[hour min] sec] eqn:Ec.
  destruct (absDate_Date_eq _ _ _ _ _ _ _ Ha E Ec) as [HD [Hh [Hm Hs]]].
  unfold Format_ts, Format_seconds. rewrite Ec.
  rewrite (parse_ts_text year month day hour min sec (nsec t)).
  - rewrite HD, Habs. f_equal. apply Time_fields; [lia | reflexivity | exact Ho].
  - intros rest. now apply read_date_Format.
  - intros rest. apply take_digits_appendInt, appendInt_exact_2. lia.
  - intros rest. apply take_digits_appendInt, appendInt_exact_2. lia.
  - intros rest. apply take_digits_appendInt, appendInt_exact_2. lia.
  - exact Hh.
  - exact Hm.
  - exact Hs.
  - now apply read_nanos_formatNano9.
Qed.

(* ------------------------------------------------------------------ *)
(** ** String literals read back *)

Lemma read_chars_ascii_piece (c : ascii) (X : string) :
  code c < 128 ->
  read_chars (ascii_piece c +++ X)
  = let? (body, rest) := read_chars X in Some (String c body, rest).
Proof.
  destruct c as [b0 b1 b2 b3 b4 b5 b6 b7].
  destruct b7.
  - intros H. exfalso.
    destruct b0, b1, b2, b3, b4, b5, b6; vm_compute in H; discriminate H.
  - intros _. destruct b0, b1, b2, b3, b4, b5, b6; reflexivity.
Qed.

Lemma byte_of_code (c : ascii) : byte_of (code c) = c.
Proof.
  unfold byte_of, code. rewrite N2Z.id. apply ascii_N_embedding.
Qed.

Lemma code_inj (c d : ascii) : code c = code d -> c = d.
Proof.
  intros H. rewrite <- (byte_of_code c), <- (byte_of_code d). now rewrite H.
Qed.

Lemma ascii_eqb_code (c d : ascii) : Ascii.eqb c d = (code c =? code d).
Proof.
  destruct (Ascii.eqb_spec c d) as [-> | Hne].
  - symmetry. apply Z.eqb_refl.
  - symmetry. apply Z.eqb_neq. intros H. apply Hne. now apply code_inj.
Qed.

Lemma read_chars_high (b : ascii) (X : string) :
  128 <= code b ->
  read_chars (String b X)
  = let? (body, rest) := read_chars X in Some (String b body, rest).
Proof.
  intros Hb. cbn [read_chars].
  rewrite !ascii_eqb_code. change (code DQ) with 34. change (code "\") with 92.
  replace (code b =? 34) with false by (symmetry; apply Z.eqb_neq; lia).
  replace (code b =? 92) with false by (symmetry; apply Z.eqb_neq; lia).
  replace (code b <? 32) with false by (symmetry; apply Z.ltb_ge; lia).
  reflexivity.
Qed.

Lemma string_body_ascii (b : ascii) (r : string) :
  code b < 128 ->
  string_body 0 true (String b r) = ascii_piece b +++ string_body 0 true r.
Proof.
  intros Hb. cbn [string_body].
  replace (code b <? 128) with true by (symmetry; apply Z.ltb_lt; lia).
  reflexivity.
Qed.

Lemma string_body_high (b : ascii) (r : string) (sz : nat) :
  128 <= code b ->
  rune_size (String b r) = Some sz ->
  line_separator (String b r) = None ->
  string_body 0 true (String b r) = String b (string_body (sz - 1) true r).
Proof.
  intros Hb Hsz Hls. cbn [string_body].
  replace (code b <? 128) with false by (symmetry; apply Z.ltb_ge; lia).
  now rewrite Hsz, Hls.
Qed.

Lemma string_body_copy_irrelevant (s : string) :
  string_body 0 false s = string_body 0 true s.
Proof. destruct s; reflexivity. Qed.

Lemma first_range (n : Z) (sz : nat) (lo hi : Z) :
  first n = Some (sz, lo, hi) ->
  128 <= lo /\ (sz = 2 \/ sz = 3 \/ sz = 4)%nat.
Proof.
  unfold first.
  repeat match goal with
         | |- context [if ?c then _ else _] => destruct c
         end; intros [= <- <- <-]; (split; [lia | auto]); discriminate.
Qed.

Lemma rune_size_high (b : ascii) (r : string) (sz : nat) :
  rune_size (String b r) = Some sz ->
  high_prefix (sz - 1) r = true /\ (sz = 2 \/ sz = 3 \/ sz = 4)%nat.
Proof.
  cbn [rune_size].
  destruct (first (code b)) as [[[n lo] hi]|] eqn:F; [|discriminate].
  destruct (first_range _ _ _ _ F) as [Hlo Hn].
  destruct r as [|c1 r1]; [discriminate|].
  destruct ((lo <=? code c1) && (code c1 <=? hi)) eqn:E1; [|discriminate].
  apply andb_true_iff in E1 as [E1 _]. apply Z.leb_le in E1.
  assert (H1 : (128 <=? code c1) = true) by (apply Z.leb_le; lia).
  unfold continuation.
  destruct Hn as [-> | [-> | ->]].
  - intros [= <-]. cbn. rewrite H1. auto.
  - destruct r1 as [|c2 r2]; [discriminate|].
    destruct ((128 <=? code c2) && (code c2 <=? 191)) eqn:E2; [|discriminate].
    apply andb_true_iff in E2 as [E2 _].
    intros [= <-]. cbn. rewrite H1, E2. auto.
  - destruct r1 as [|c2 [|c3 r3]]; try discriminate.
    destruct ((128 <=? code c2) && (code c2 <=? 191)) eqn:E2;
      [|discriminate].
    destruct ((128 <=? code c3) && (code c3 <=? 191)) eqn:E3;
      [|discriminate].
    apply andb_true_iff in E2 as [E2 _]. apply andb_true_iff in E3 as [E3 _].
    intros [= <-]. cbn. rewrite H1, E2, E3. auto.
Qed.

(** The two line separators: the encoder writes them escaped, and the
    reader gives their three bytes back. *)
Lemma line_separator_bytes (s : string) (h : ascii) :
  line_separator s = Some h ->
  exists c2 r3,
    (c2 = byte_of 168 \/ c2 = byte_of 169) /\
    s = String (byte_of 226) (String (byte_of 128) (String c2 r3)).
Proof.
  destruct s as [|c0 [|c1 [|c2 r3]]]; try discriminate.
  cbn [line_separator].
  destruct ((code c0 =? 226) && (code c1 =? 128)
            && ((code c2 =? 168) || (code c2 =? 169))) eqn:E; [|discriminate].
  intros _. apply andb_true_iff in E as [E E2]. apply andb_true_iff in E as [E0 E1].
  apply Z.eqb_eq in E0, E1. apply orb_true_iff in E2.
  exists c2, r3. split.
  - destruct E2 as [E2 | E2]; apply Z.eqb_eq in E2; [left | right];
      apply code_inj; rewrite E2; reflexivity.
  - f_equal; [apply code_inj; rewrite E0; reflexivity|].
    f_equal. apply code_inj. rewrite E1. reflexivity.
Qed.

Lemma read_chars_body (n : nat) :
  forall (s : string) (k : nat) (rest : string),
    (String.length s <= n)%nat ->
    high_prefix k s = true ->
    valid_utf8 k s = true ->
    read_chars (string_body k true s +++ String DQ rest) = Some (s, rest).
Proof.
  induction n as [|n IH]; intros s k rest Hlen Hhigh Hvalid.
  - destruct s; [|simpl in Hlen; lia]. cbn. reflexivity.
  - destruct s as [|b r]; [cbn; reflexivity|].
    cbn [String.length] in Hlen.
    destruct k as [|k].
    + (* at the start of a rune *)
      cbn [valid_utf8] in Hvalid.
      destruct (code b <? 128) eqn:Eb.
      * apply Z.ltb_lt in Eb.
        rewrite string_body_ascii, sapp_assoc, read_chars_ascii_piece by exact Eb.
        rewrite (IH r 0%nat rest); [reflexivity | lia | reflexivity | exact Hvalid].
      * apply Z.ltb_ge in Eb.
        destruct (rune_size (String b r)) as [sz|] eqn:Esz; [|discriminate].
        destruct (rune_size_high _ _ _ Esz) as [Hh Hsz].
        destruct (line_separator (String b r)) as [h|] eqn:Els.
        -- destruct (line_separator_bytes _ _ Els) as [c2 [r3 [Hc2 Hs]]].
           injection Hs as -> ->.
           assert (Hv3 : valid_utf8 0 r3 = true).
           { destruct Hc2 as [-> | ->]; vm_compute in Esz;
               injection Esz as <-; exact Hvalid. }
           assert (Hl3 : (String.length r3 <= n)%nat) by (simpl in Hlen; lia).
           specialize (IH r3 0%nat rest Hl3 eq_refl Hv3).
           destruct Hc2 as [-> | ->].
           ++ change (string_body 0 true
                        (String (byte_of 226) (String (byte_of 128) (String (byte_of 168) r3))))
                with ("\u202" +++ String "8" (string_body 0 false r3)).
              rewrite string_body_copy_irrelevant.
              cbn [String.append read_chars]. cbn. rewrite IH. reflexivity.
           ++ change (string_body 0 true
                        (String (byte_of 226) (String (byte_of 128) (String (byte_of 169) r3))))
                with ("\u202" +++ String "9" (string_body 0 false r3)).
              rewrite string_body_copy_irrelevant.
              cbn [String.append read_chars]. cbn. rewrite IH. reflexivity.
        -- rewrite (string_body_high b r sz Eb Esz Els).
           cbn [String.append]. rewrite read_chars_high by exact Eb.
           rewrite (IH r (sz - 1)%nat rest); [reflexivity | lia | exact Hh | exact Hvalid].
    + (* inside a rune *)
      cbn [high_prefix] in Hhigh. apply andb_true_iff in Hhigh as [Hb Hhigh].
      apply Z.leb_le in Hb. cbn [valid_utf8] in Hvalid.
      cbn [string_body String.append]. rewrite read_chars_high by exact Hb.
      rewrite (IH r k rest); [reflexivity | lia | exact Hhigh | exact Hvalid].
Qed.

Lemma read_chars_quote (s rest : string) :
  clean s = true ->
  read_chars (string_body 0 true s +++ String DQ rest) = Some (s, rest).
Proof.
  intros H. apply (read_chars_body (String.length s)); [lia | reflexivity | exact H].
Qed.

(* ------------------------------------------------------------------ *)
(** ** Documents read back from their text *)

Lemma fuel_of_JArray (l : list json) : fuel_of (JArray l) = S (fuel_of_elems l).
Proof. reflexivity. Qed.

Lemma fuel_of_JObject (m : list (string * json)) :
  fuel_of (JObject m) = S (fuel_of_members m).
Proof.
  simpl. f_equal.
  induction m as [|[k x] m IH]; simpl; [reflexivity|now rewrite IH].
Qed.

Lemma readable_JArray (l : list json) :
  readable (JArray l) <-> Forall readable l.
Proof.
  simpl. induction l as [|x l IH].
  - split; constructor.
  - split.
    + intros [Hx Hl]. constructor; [exact Hx | now apply IH].
    + intros H. inversion H; subst. split; [assumption | now apply IH].
Qed.

Lemma readable_JObject (m : list (string * json)) :
  readable (JObject m) <->
  distinct (map fst m) = true /\
  Forall (fun kv => clean (fst kv) = true /\ readable (snd kv)) m.
Proof.
  simpl. apply and_iff_compat_l.
  induction m as [|[k x] m IH].
  - split; constructor.
  - split.
    + intros [Hk [Hx Hm]]. constructor; [now split | now apply IH].
    + intros H. inversion H as [|? ? [Hk Hx] Hm]; subst.
      split; [exact Hk|]. split; [exact Hx | now apply IH].
Qed.

Lemma render_JObject (m : list (string * json)) :
  render (JObject m) = "{" +++ join "," (map render_member m) +++ "}".
Proof. reflexivity. Qed.

Lemma num_char_code (c : ascii) :
  is_num_char c = true ->
  48 <= code c <= 57 \/ code c = 43 \/ code c = 45 \/ code c = 46
  \/ code c = 101 \/ code c = 69.
Proof.
  unfold is_num_char, is_digit. cbn [existsb list_ascii_of_string].
  rewrite !ascii_eqb_code.
  change (code "+") with 43. change (code "-") with 45.
  change (code ".") with 46. change (code "e") with 101.
  change (code "E") with 69.
  rewrite !orb_true_iff, andb_true_iff, !Z.leb_le, !Z.eqb_eq. intros H.
  repeat match goal with H : _ \/ _ |- _ => destruct H as [H | H] end;
    try discriminate; lia.
Qed.

Lemma value_start_code (c : ascii) :
  value_start c = true ->
  48 <= code c <= 57 \/ code c = 123 \/ code c = 91 \/ code c = 34
  \/ code c = 116 \/ code c = 102 \/ code c = 110 \/ code c = 45.
Proof.
  unfold value_start, is_digit. cbn [existsb].
  rewrite !orb_true_iff, andb_true_iff, !Z.leb_le, !Z.eqb_eq. intros H.
  repeat match goal with H : _ \/ _ |- _ => destruct H as [H | H] end;
    try discriminate; lia.
Qed.

Lemma is_ws_code (c : ascii) :
  code c <> 32 -> code c <> 9 -> code c <> 10 -> code c <> 13 -> is_ws c = false.
Proof.
  intros H1 H2 H3 H4. unfold is_ws.
  rewrite !orb_false_iff, !Z.eqb_neq. tauto.
Qed.

Lemma eqb_code_neq (c d : ascii) : code c <> code d -> Ascii.eqb c d = false.
Proof. intros H. rewrite ascii_eqb_code. now apply Z.eqb_neq. Qed.

Lemma skip_ws_start (c : ascii) (r : string) :
  value_start c = true -> skip_ws (String c r) = String c r.
Proof.
  intros H. apply value_start_code in H. cbn [skip_ws].
  rewrite is_ws_code; [reflexivity | lia | lia | lia | lia].
Qed.

Lemma skip_ws_char (c : ascii) (r : string) :
  is_ws c = false -> skip_ws (String c r) = String c r.
Proof. intros H. cbn [skip_ws]. now rewrite H. Qed.

Lemma substring_all (s : string) : substring 0 (String.length s) s = s.
Proof. induction s as [|c s IH]; simpl; [reflexivity | now rewrite IH]. Qed.

Lemma span_boundary (lit rest : string) :
  all_chars is_num_char lit = true -> boundary rest ->
  span is_num_char (lit +++ rest) = (lit, rest).
Proof.
  intros Hl Hr. induction lit as [|c lit IH].
  - cbn [String.append]. destruct rest as [|c r]; [reflexivity|].
    cbn [span]. simpl in Hr. now rewrite Hr.
  - cbn [all_chars] in Hl. apply andb_true_iff in Hl as [Hc Hl].
    cbn [String.append span]. now rewrite Hc, (IH Hl).
Qed.

Lemma number_ok_head (lit : string) :
  number_ok lit = true ->
  exists c r, lit = String c r /\ (is_digit c = true \/ c = "-"%char).
Proof.
  destruct lit as [|c r]; [discriminate|]. intros H. exists c, r.
  split; [reflexivity|].
  destruct (Ascii.eqb_spec c "-") as [-> | Hne]; [now right | left].
  unfold number_ok in H.
  replace (Ascii.eqb c "-") with false in H
    by (symmetry; now apply Ascii.eqb_neq).
  destruct (Ascii.eqb_spec c "0") as [-> | Hz]; [reflexivity|].
  unfold digits1 in H. cbn [span] in H.
  destruct (is_digit c); [reflexivity | discriminate H].
Qed.

Lemma quote_app (s X : string) :
  quote s +++ X = String DQ (string_body 0 true s +++ String DQ X).
Proof. unfold quote. cbn [String.append]. now rewrite sapp_assoc. Qed.

Lemma render_head (j : json) :
  readable j -> exists c r, render j = String c r /\ value_start c = true.
Proof.
  destruct j as [| [|] | lit | s | l | m]; intros H; simpl render;
    try (eexists; eexists; split; [reflexivity | reflexivity]).
  destruct H as [Hok _]. destruct (number_ok_head lit Hok) as [c [r [-> Hc]]].
  exists c, r. split; [reflexivity|]. unfold value_start.
  destruct Hc as [Hc | ->]; [now rewrite Hc | reflexivity].
Qed.

Lemma read_elems_render (l : list json) :
  l <> [] ->
  Forall (fun x => readable x -> forall n rest,
            (fuel_of x <= n)%nat -> boundary rest ->
            read_value n (render x +++ rest) = Some (x, rest)) l ->
  Forall readable l ->
  forall n rest,
    (fuel_of_elems l <= n)%nat ->
    read_elems n (join "," (map render l) +++ String "]" rest) = Some (l, rest).
Proof.
  intros Hne IH Hr. induction l as [|x l IHl]; [congruence|].
  inversion IH as [|? ? IHx IH']; subst. inversion Hr as [|? ? Hx Hr']; subst.
  intros n rest Hn. cbn [fuel_of_elems fold_right] in Hn.
  destruct n as [|k]; [lia|].
  destruct l as [|y l].
  - cbn [map join read_elems].
    rewrite (IHx Hx k (String "]" rest)); [|cbn [fuel_of_elems fold_right] in Hn; lia | reflexivity].
    cbn. reflexivity.
  - change (join "," (map render (x :: y :: l)))
      with (render x +++ "," +++ join "," (map render (y :: l))).
    rewrite !sapp_assoc. cbn [read_elems].
    change ("," +++ join "," (map render (y :: l)) +++ String "]" rest)
      with (String "," (join "," (map render (y :: l)) +++ String "]" rest)).
    rewrite (IHx Hx k); [|lia | reflexivity].
    cbn [skip_ws]. change (is_ws ",") with false. cbv iota.
    change (Ascii.eqb "," ",") with true. cbv iota.
    rewrite (IHl ltac:(discriminate) IH' Hr' k rest); [reflexivity|].
    fold (fuel_of_elems (y :: l)) in Hn. lia.
Qed.

Lemma read_member_head (k : string) (X : string) :
  clean k = true ->
  forall fuel,
    read_members (S fuel) (quote k +++ String ":" X)
    = let? (v, r3) := read_value fuel X in
      match skip_ws r3 with
      | String c3 r4 =>
          if Ascii.eqb c3 "," then
            let? (ms, rest) := read_members fuel r4 in Some ((k, v) :: ms, rest)
          else if Ascii.eqb c3 "}" then Some ([(k, v)], r4)
          else None
      | EmptyString => None
      end.
Proof.
  intros Hk fuel. rewrite quote_app. cbn [read_members].
  rewrite (skip_ws_char DQ) by reflexivity.
  rewrite Ascii.eqb_refl, (read_chars_quote k _ Hk).
  rewrite (skip_ws_char ":") by reflexivity.
  rewrite Ascii.eqb_refl. reflexivity.
Qed.

Lemma read_members_render (m : list (string * json)) :
  m <> [] ->
  Forall (fun kv => readable (snd kv) -> forall n rest,
            (fuel_of (snd kv) <= n)%nat -> boundary rest ->
            read_value n (render (snd kv) +++ rest) = Some (snd kv, rest)) m ->
  Forall (fun kv => clean (fst kv) = true /\ readable (snd kv)) m ->
  forall n rest,
    (fuel_of_members m <= n)%nat ->
    read_members n (join "," (map render_member m) +++ String "}" rest)
    = Some (m, rest).
Proof.
  intros Hne IH Hr. induction m as [|[k x] m IHm]; [congruence|].
  inversion IH as [|? ? IHx IH']; subst.
  inversion Hr as [|? ? [Hk Hx] Hr']; subst. cbn [fst snd] in *.
  intros n rest Hn. cbn [fuel_of_members fold_right snd] in Hn.
  destruct n as [|fuel]; [lia|].
  destruct m as [|kv m].
  - cbn [map join render_member]. unfold member. cbn [fst snd].
    rewrite !sapp_assoc.
    change (":" +++ render x +++ String "}" rest)
      with (String ":" (render x +++ String "}" rest)).
    rewrite (read_member_head k _ Hk).
    rewrite (IHx Hx fuel (String "}" rest));
      [|cbn [fuel_of_members fold_right] in Hn; lia | reflexivity].
    cbn. reflexivity.
  - change (join "," (map render_member ((k, x) :: kv :: m)))
      with (member (k, render x) +++ "," +++ join "," (map render_member (kv :: m))).
    unfold member at 1. cbn [fst snd]. rewrite !sapp_assoc.
    change (":" +++ render x +++ "," +++ join "," (map render_member (kv :: m))
              +++ String "}" rest)
      with (String ":" (render x +++
              String "," (join "," (map render_member (kv :: m)) +++ String "}" rest))).
    rewrite (read_member_head k _ Hk).
    rewrite (IHx Hx fuel); [|lia | reflexivity].
    rewrite (skip_ws_char ",") by reflexivity.
    rewrite Ascii.eqb_refl.
    rewrite (IHm ltac:(discriminate) IH' Hr' fuel rest); [reflexivity|].
    fold (fuel_of_members (kv :: m)) in Hn. lia.
Qed.

Lemma to_map_distinct {A} (m : list (string * A)) :
  distinct (map fst m) = true -> to_map m = m.
Proof.
  intros Hd. unfold to_map.
  assert (H : forall acc,
             (forall kv, In kv m -> ~ In (fst kv) (map fst acc)) ->
             fold_left (fun a kv => put (fst kv) (snd kv) a) m acc = acc ++ m).
  { apply distinct_NoDup in Hd. induction m as [|[k x] m IH]; intros acc Hacc.
    - simpl. now rewrite app_nil_r.
    - simpl in Hd. inversion Hd as [|? ? Hk Hd']; subst.
      cbn [fold_left fst snd].
      assert (Hput : put k x acc = acc ++ [(k, x)]).
      { assert (Hk' : ~ In k (map fst acc)) by (apply (Hacc (k, x)); now left).
        clear -Hk'. induction acc as [|[k' y] acc IHa]; [reflexivity|].
        simpl in *. destruct (String.eqb_spec k' k) as [-> | Hne]; [tauto|].
        f_equal. apply IHa. tauto. }
      rewrite Hput, IH; [now rewrite <- app_assoc | exact Hd' |].
      intros kv Hin. rewrite map_app, in_app_iff. simpl.
      intros [H | [H | []]].
      + apply (Hacc kv); [now right | exact H].
      + apply Hk. rewrite H. now apply in_map.  }
  apply (H []). intros kv _ [].
Qed.

Lemma literal_text (word : string) (j : json) (rest : string) :
  literal word j (word +++ rest) = Some (j, rest).
Proof.
  unfold literal.
  assert (Hp : String.prefix word (word +++ rest) = true).
  { induction word as [|c w IH]; [now destruct rest|].
    cbn [String.append String.prefix].
    destruct (ascii_dec c c) as [_ | Hne]; [exact IH | congruence]. }
  rewrite Hp, slength_app.
  replace (String.length word + String.length rest - String.length word)%nat
    with (String.length rest) by lia.
  f_equal. f_equal. clear Hp.
  induction word as [|c w IH]; [apply substring_all | exact IH].
Qed.

Lemma read_value_render (j : json) :
  readable j ->
  forall n rest,
    (fuel_of j <= n)%nat -> boundary rest ->
    read_value n (render j +++ rest) = Some (j, rest).
Proof.
  induction j as [| b | lit | s | l IH | m IH] using json_nested_ind;
    intros Hr n rest Hn Hb; (destruct n as [|k]; [simpl in Hn; lia|]).
  - (* null *)
    cbn [render read_value].
    change ("null" +++ rest) with (String "n" ("ull" +++ rest)).
    rewrite (skip_ws_char "n") by reflexivity.
    change (String "n" ("ull" +++ rest)) with ("null" +++ rest).
    cbn [Ascii.eqb Bool.eqb DQ]. cbv iota. apply literal_text.
  - (* booleans *)
    destruct b; cbn [render read_value].
    + change ("true" +++ rest) with (String "t" ("rue" +++ rest)).
      rewrite (skip_ws_char "t") by reflexivity.
      change (String "t" ("rue" +++ rest)) with ("true" +++ rest).
      cbn [Ascii.eqb Bool.eqb DQ]. cbv iota. apply literal_text.
    + change ("false" +++ rest) with (String "f" ("alse" +++ rest)).
      rewrite (skip_ws_char "f") by reflexivity.
      change (String "f" ("alse" +++ rest)) with ("false" +++ rest).
      cbn [Ascii.eqb Bool.eqb DQ]. cbv iota. apply literal_text.
  - (* numbers *)
    destruct Hr as [Hok Hch]. cbn [render].
    destruct (number_ok_head lit Hok) as [c [r [E Hc]]].
    assert (Hnum : is_num_char c = true).
    { subst lit. cbn [all_chars] in Hch. now apply andb_true_iff in Hch. }
    pose proof (num_char_code c Hnum) as Hcode.
    assert (Hspan : span is_num_char (lit +++ rest) = (lit, rest))
      by now apply span_boundary.
    rewrite E in *. cbn [String.append] in *. cbn [read_value].
    rewrite skip_ws_char by (apply is_ws_code; lia).
    rewrite !(eqb_code_neq c) by
      (match goal with
       | |- code c <> code ?d =>
           let v := eval vm_compute in (code d) in change (code d) with v
       end; lia).
    rewrite Hspan, Hok. reflexivity.
  - (* strings *)
    cbn [render]. rewrite quote_app. cbn [read_value].
    rewrite (skip_ws_char DQ) by reflexivity.
    cbn [Ascii.eqb Bool.eqb DQ]. cbv iota.
    change (Ascii.eqb DQ DQ) with true. cbv iota.
    now rewrite (read_chars_quote s rest Hr).
  - (* arrays *)
    apply readable_JArray in Hr. rewrite fuel_of_JArray in Hn.
    destruct l as [|x l].
    + cbn. reflexivity.
    + cbn [render]. rewrite !sapp_assoc.
      change ("[" +++ join "," (map render (x :: l)) +++ "]" +++ rest)
        with (String "[" (join "," (map render (x :: l)) +++ String "]" rest)).
      cbn [read_value]. rewrite (skip_ws_char "[") by reflexivity.
      change (Ascii.eqb "[" "{") with false. change (Ascii.eqb "[" "[") with true.
      cbv iota.
      assert (Hhead : exists c r,
                 join "," (map render (x :: l)) +++ String "]" rest = String c r
                 /\ value_start c = true).
      { inversion Hr as [|? ? Hx _]; subst.
        destruct (render_head x Hx) as [c [r [E Hc]]].
        destruct l; cbn [map join]; rewrite E; cbn [String.append]; eauto. }
      destruct Hhead as [c [r [E Hc]]].
      rewrite E, (skip_ws_start c r Hc), <- E.
      rewrite eqb_code_neq
        by (apply value_start_code in Hc; change (code "]") with 93; lia).
      rewrite (read_elems_render (x :: l) ltac:(discriminate) IH Hr k rest);
        [reflexivity | lia].
  - (* objects *)
    apply readable_JObject in Hr as [Hd Hr]. rewrite fuel_of_JObject in Hn.
    destruct m as [|kv m].
    + cbn. reflexivity.
    + rewrite render_JObject, !sapp_assoc.
      change ("{" +++ join "," (map render_member (kv :: m)) +++ "}" +++ rest)
        with (String "{" (join "," (map render_member (kv :: m)) +++ String "}" rest)).
      cbn [read_value]. rewrite (skip_ws_char "{") by reflexivity.
      change (Ascii.eqb "{" "{") with true. cbv iota.
      assert (Hhead : exists r,
                 join "," (map render_member (kv :: m)) +++ String "}" rest
                 = String DQ r).
      { destruct kv as [k0 x0].
        destruct m; cbn [map join render_member]; unfold member at 1;
          cbn [fst snd]; rewrite !sapp_assoc, quote_app; eauto. }

      destruct Hhead as [r E].
      rewrite E, (skip_ws_char DQ) by reflexivity. rewrite <- E.
      change (Ascii.eqb DQ "}") with false. cbv iota.
      rewrite (read_members_render (kv :: m) ltac:(discriminate) IH Hr k rest);
        [|lia].
      now rewrite (to_map_distinct _ Hd).
Qed.

Lemma join_cons2 (sep x y : string) (l : list string) :
  join sep (x :: y :: l) = x +++ sep +++ join sep (y :: l).
Proof. reflexivity. Qed.

Lemma fuel_of_elems_length (l : list json) :
  Forall (fun x => (fuel_of x <= String.length (render x))%nat) l ->
  (fuel_of_elems l <= String.length (join "," (map render l)) + 1)%nat.
Proof.
  induction 1 as [|x l Hx Hl IH]; [simpl; lia|].
  cbn [fuel_of_elems fold_right]. fold (fuel_of_elems l).
  destruct l as [|y l].
  - cbn [map join fuel_of_elems fold_right]. lia.
  - cbn [map]. rewrite join_cons2, !slength_app. cbn [map] in IH.
    cbn [String.length]. lia.
Qed.

Lemma fuel_of_members_length (m : list (string * json)) :
  Forall (fun kv => (fuel_of (snd kv) <= String.length (render (snd kv)))%nat) m ->
  (fuel_of_members m <= String.length (join "," (map render_member m)) + 1)%nat.
Proof.
  induction 1 as [|[k x] m Hx Hm IH]; [simpl; lia|].
  cbn [fuel_of_members fold_right snd] in *. fold (fuel_of_members m).
  assert (Hmem : (String.length (render x) <= String.length (render_member (k, x)))%nat).
  { unfold render_member, member. cbn [fst snd]. rewrite !slength_app. lia. }
  destruct m as [|kv m].
  - cbn [map join fuel_of_members fold_right]. lia.
  - cbn [map]. rewrite join_cons2, !slength_app. cbn [map] in IH.
    cbn [String.length]. lia.
Qed.

Lemma fuel_of_length (j : json) :
  readable j -> (fuel_of j <= String.length (render j))%nat.
Proof.
  induction j as [| b | lit | s | l IH | m IH] using json_nested_ind; intros Hr.
  - simpl. lia.
  - destruct b; simpl; lia.
  - destruct Hr as [Hok _]. destruct (number_ok_head lit Hok) as [c [r [-> _]]].
    simpl. lia.
  - cbn [render fuel_of]. unfold quote. cbn [String.append String.length]. lia.
  - apply readable_JArray in Hr. rewrite fuel_of_JArray. cbn [render].
    assert (H : Forall (fun x => (fuel_of x <= String.length (render x))%nat) l).
    { rewrite Forall_forall in *. intros x Hx. apply (IH x Hx), (Hr x Hx). }
    pose proof (fuel_of_elems_length l H).
    cbn [String.append String.length]. rewrite slength_app. cbn [String.length]. lia.
  - apply readable_JObject in Hr as [_ Hr]. rewrite fuel_of_JObject, render_JObject.
    assert (H : Forall (fun kv => (fuel_of (snd kv) <= String.length (render (snd kv)))%nat) m).
    { rewrite Forall_forall in *. intros kv Hkv. apply (IH kv Hkv), (Hr kv Hkv). }
    pose proof (fuel_of_members_length m H).
    cbn [String.append String.length]. rewrite slength_app. cbn [String.length]. lia.
Qed.

(** The reader reads the text of a document back. *)
Lemma read_document_render (j : json) :
  readable j -> read_document (render j) = Some j.
Proof.
  intros Hr. unfold read_document.
  pose proof (fuel_of_length j Hr) as Hf.
  rewrite <- (sapp_nil_r (render j)) at 2.
  rewrite (read_value_render j Hr _ EmptyString); [reflexivity | lia | exact I].
Qed.

(* ------------------------------------------------------------------ *)
(** ** The document of a value is readable and is classified back *)

Lemma ascii_clean (s : string) :
  all_chars (fun c => code c <? 128) s = true -> clean s = true.
Proof.
  unfold clean. induction s as [|c s IH]; [reflexivity|].
  cbn [all_chars valid_utf8]. rewrite andb_true_iff. intros [Hc Hs].
  now rewrite Hc, IH.
Qed.

Lemma ts_chars_clean (s : string) : all_chars ts_char s = true -> clean s = true.
Proof.
  intros H. apply ascii_clean. eapply all_chars_weaken; [|exact H].
  intros c Hc. apply ts_char_safe in Hc. unfold safe_char in Hc.
  now apply andb_true_iff in Hc as [Hc _].
Qed.

Lemma on_value_keys {A B} (f : A -> B) (m : list (string * A)) :
  map fst (map (on_value f) m) = map fst m.
Proof. rewrite map_map. apply map_ext. now intros [k a]. Qed.

Lemma readable_sorted_entries fmt pf (m : list (string * Value)) :
  distinct (map fst m) = true ->
  Forall (fun kv => wire_safe fmt pf (snd kv) -> readable (wire fmt (snd kv))) m ->
  Forall (fun kv => clean (fst kv) = true /\ wire_safe fmt pf (snd kv)) m ->
  readable (JObject (sort_entries (map (on_value (wire fmt)) m))).
Proof.
  intros Hd IH Hs. apply readable_JObject. split.
  - apply (distinct_perm (map fst m)); [|exact Hd].
    rewrite <- (on_value_keys (wire fmt) m).
    apply Permutation_map. symmetry. apply sort_entries_perm.
  - apply (Permutation_Forall (Permutation_sym (sort_entries_perm _))).
    rewrite Forall_map.
    rewrite Forall_forall in *. intros [k x] Hin.
    specialize (IH _ Hin). destruct (Hs _ Hin) as [Hk Hx]. cbn [fst snd] in *.
    split; [exact Hk | now apply IH].
Qed.

Lemma single_member_readable (key : string) (j : json) :
  clean key = true -> readable j -> readable (JObject [(key, j)]).
Proof. intros Hk Hj. simpl. auto. Qed.

Lemma readable_wire fmt pf (v : Value) :
  wire_safe fmt pf v -> readable (wire fmt v).
Proof.
  induction v as [s | n | f | b | t | t | s | m IH | m IH | l IH | | | | | ]
    using Value_nested_ind; intros Hs; cbn [wire]; try solve [destruct Hs].
  - exact Hs.
  - destruct (formatInt_shape n Hs) as [H1 [H2 _]]. split; assumption.
  - destruct Hs as [_ [H1 [H2 _]]]. split; assumption.
  - exact I.
  - apply single_member_readable; [reflexivity|].
    apply ts_chars_clean, Format_date_chars.
  - apply single_member_readable; [reflexivity|].
    apply ts_chars_clean, Format_ts_chars.
  - apply single_member_readable; [reflexivity | exact Hs].
  - destruct Hs as [Hd Hm]. apply wire_safe_entries in Hm.
    apply single_member_readable; [reflexivity|].
    now apply (readable_sorted_entries fmt pf).
  - destruct Hs as [Hd Hm]. apply wire_safe_entries in Hm.
    apply single_member_readable; [reflexivity|].
    now apply (readable_sorted_entries fmt pf).
  - apply wire_safe_elems in Hs. apply readable_JArray.
    rewrite Forall_map. rewrite Forall_forall in *.
    intros x Hx. apply (IH x Hx), (Hs x Hx).
  - exact I.
Qed.

Lemma members_value_wire fmt pf (m : list (string * Value)) :
  Forall (fun kv => wire_safe fmt pf (snd kv) ->
                    to_value pf (wire fmt (snd kv)) = Ok (canon (snd kv))) m ->
  Forall (fun kv => clean (fst kv) = true /\ wire_safe fmt pf (snd kv)) m ->
  members_value (to_value pf) (sort_entries (map (on_value (wire fmt)) m))
  = Ok (sort_entries (map (on_value canon) m)).
Proof.
  intros IH Hs. rewrite !sort_entries_map. unfold members_value.
  assert (H : Forall (fun kv => to_value pf (wire fmt (snd kv)) = Ok (canon (snd kv)))
                     (sort_entries m)).
  { apply (Permutation_Forall (Permutation_sym (sort_entries_perm m))).
    rewrite Forall_forall in *. intros kv Hin.
    apply (IH kv Hin), (Hs kv Hin). }
  induction H as [|[k x] l Hx Hl IHl]; [reflexivity|].
  cbn [map on_value sequence snd] in *. rewrite Hx. cbn [bind].
  rewrite IHl. reflexivity.
Qed.

Lemma to_value_wire fmt pf (v : Value) :
  wire_safe fmt pf v -> to_value pf (wire fmt v) = Ok (canon v).
Proof.
  induction v as [s | n | f | b | t | t | s | m IH | m IH | l IH | | | | | ]
    using Value_nested_ind; intros Hs; cbn [wire canon];
    try solve [destruct Hs].
  - reflexivity.
  - destruct (formatInt_shape n Hs) as [_ [_ [H3 H4]]].
    cbn [to_value]. unfold number_value. now rewrite H3, H4, Hs.
  - destruct Hs as [_ [_ [_ [H4 H5]]]].
    cbn [to_value]. unfold number_value. now rewrite H4, H5.
  - reflexivity.
  - cbn [to_value]. change (String.eqb "@date" "@date") with true. cbv iota.
    now rewrite (parse_date_Format t Hs).
  - cbn [to_value]. change (String.eqb "@ts" "@date") with false.
    change (String.eqb "@ts" "@ts") with true. cbv iota.
    now rewrite (parse_ts_Format t Hs).
  - reflexivity.
  - destruct Hs as [Hd Hm]. apply wire_safe_entries in Hm.
    cbn [to_value].
    change (String.eqb "@set" "@date") with false.
    change (String.eqb "@set" "@ts") with false.
    change (String.eqb "@set" "@ref") with false.
    change (String.eqb "@set" "@set") with true. cbv iota.
    change (fun kv : string * Value => let '(k, x) := kv in (k, wire fmt x))
      with (on_value (wire fmt)).
    now rewrite (members_value_wire fmt pf m IH Hm).
  - destruct Hs as [Hd Hm]. apply wire_safe_entries in Hm.
    cbn [to_value].
    change (String.eqb "object" "@date") with false.
    change (String.eqb "object" "@ts") with false.
    change (String.eqb "object" "@ref") with false.
    change (String.eqb "object" "@set") with false.
    change (String.eqb "object" "object") with true. cbv iota.
    change (fun kv : string * Value => let '(k, x) := kv in (k, wire fmt x))
      with (on_value (wire fmt)).
    now rewrite (members_value_wire fmt pf m IH Hm).
  - apply wire_safe_elems in Hs. cbn [to_value].
    assert (H : sequence (map (to_value pf) (map (wire fmt) l)) = Ok (map canon l)).
    { induction l as [|x l IHl]; [reflexivity|].
      inversion IH as [|? ? Hx IH']; subst. inversion Hs as [|? ? Hsx Hs']; subst.
      cbn [map sequence]. rewrite (Hx Hsx). cbn [bind].
      now rewrite (IHl IH' Hs'). }
    now rewrite H.
  - reflexivity.
Qed.

(* ------------------------------------------------------------------ *)
(** ** The round trip *)

Lemma same_entries_refl (m : list (string * Value)) : same_entries m m.
Proof.
  induction m as [|[k v] m IH]; constructor; [apply same_refl | exact IH].
Qed.

Lemma perm_same_entries (m m' : list (string * Value)) :
  Permutation m m' -> same_entries m m'.
Proof.
  induction 1 as [| [k v] l l' _ IH | x y l | l1 l2 l3 _ IH1 _ IH2].
  - constructor.
  - constructor; [apply same_refl | exact IH].
  - apply same_entries_swap.
  - eapply same_entries_trans; eassumption.
Qed.

Lemma same_value_canon (v : Value) : same_value v (canon v).
Proof.
  assert (Hentries : forall m : list (string * Value),
             Forall (fun kv => same_value (snd kv) (canon (snd kv))) m ->
             same_entries m (sort_entries (map (on_value canon) m))).
  { intros m IH.
    apply same_entries_trans with (m2 := map (on_value canon) m).
    - induction IH as [|[k x] m Hx _ IHm]; constructor; assumption.
    - apply perm_same_entries. symmetry. apply sort_entries_perm. }
  induction v as [s | n | f | b | t | t | s | m IH | m IH | l IH | | | | | ]
    using Value_nested_ind; cbn [canon]; try apply same_refl.
  - apply same_SetRefV. now apply Hentries.
  - apply same_ObjectV. now apply Hentries.
  - apply same_ArrayV. induction IH; constructor; assumption.
Qed.

(** C2, as stated, fails: a String that is not valid UTF-8 is encoded
    with the replacement character and decodes to another String; a Date
    that carries a time of day is encoded as its day and decodes to
    midnight; a Double that holds a NaN has no encoding; a Double that
    holds 2, which [strconv] writes as [2], decodes to an Integer; an
    Array that is the nil slice is encoded as [null] and decodes to Null;
    an Object that is the nil map is encoded as [{"object":null}], which
    does not decode to it; and an element that is the nil interface is
    encoded as [null] and decodes to Null. *)
Lemma round_trip_loses :
  ~ (exists fmt pf enc v',
       Marshal fmt stray_byte = Ok enc /\ parseJSON pf enc = Ok v' /\
       same_value stray_byte v') /\
  ~ (exists fmt pf enc v',
       Marshal fmt date_with_clock = Ok enc /\ parseJSON pf enc = Ok v' /\
       same_value date_with_clock v') /\
  ~ (exists fmt enc, Marshal fmt not_a_number = Ok enc) /\
  ~ (exists fmt pf enc v',
       fmt float_two = "2" /\
       Marshal fmt whole_double = Ok enc /\ parseJSON pf enc = Ok v' /\
       same_value whole_double v') /\
  (forall fmt pf,
     Marshal fmt ArrayV_nil = Ok "null" /\ parseJSON pf "null" = Ok NullV) /\
  ~ (exists fmt pf enc v',
       Marshal fmt ArrayV_nil = Ok enc /\ parseJSON pf enc = Ok v' /\
       same_value ArrayV_nil v') /\
  ~ (exists fmt pf enc v',
       Marshal fmt ObjectV_nil = Ok enc /\ parseJSON pf enc = Ok v' /\
       same_value ObjectV_nil v') /\
  ~ (exists fmt pf enc v',
       Marshal fmt (ArrayV [nil_Value]) = Ok enc /\
       parseJSON pf enc = Ok v' /\
       same_value (ArrayV [nil_Value]) v').
Proof.
  split; [|split; [|split; [|split; [|split; [|split; [|split]]]]]].
  - intros [fmt [pf [enc [v' [Henc [Hdec Hsame]]]]]].
    vm_compute in Henc; injection Henc as <-.
    vm_compute in Hdec; injection Hdec as <-. inversion Hsame.
  - intros [fmt [pf [enc [v' [Henc [Hdec Hsame]]]]]].
    vm_compute in Henc; injection Henc as <-.
    vm_compute in Hdec; injection Hdec as <-. inversion Hsame.
  - intros [fmt [enc Henc]]. discriminate Henc.
  - intros [fmt [pf [enc [v' [Hfmt [Henc [Hdec Hsame]]]]]]].
    cbn in Henc. rewrite Hfmt in Henc. injection Henc as <-.
    vm_compute in Hdec; injection Hdec as <-. inversion Hsame.
  - intros fmt pf. split; reflexivity.
  - intros [fmt [pf [enc [v' [Henc [Hdec Hsame]]]]]].
    vm_compute in Henc; injection Henc as <-.
    vm_compute in Hdec; injection Hdec as <-. inversion Hsame.
  - intros [fmt [pf [enc [v' [Henc [Hdec Hsame]]]]]].
    vm_compute in Henc; injection Henc as <-.
    vm_compute in Hdec; try discriminate Hdec.
    injection Hdec as <-. inversion Hsame.
  - intros [fmt [pf [enc [v' [Henc [Hdec Hsame]]]]]].
    vm_compute in Henc; injection Henc as <-.
    vm_compute in Hdec; injection Hdec as <-.
    inversion Hsame as [| | | l l' Helems]; subst.
    inversion Helems as [|x x' r r' Hx Hr]; subst. inversion Hx.
Qed.

(** C2, amended: for every value that the wire format can carry, that
    is, whose Strings, References and map keys are valid UTF-8, whose
    Integers are in the 64-bit range, whose Doubles are finite and have a
    text that is not that of a 64-bit integer and reads back as the same
    Double, whose Dates are midnight UTC of a day of a year from 0000 to
    9999, whose Times are held in UTC with a year from 0000 to 9999, whose
    maps have distinct keys, and which holds no nil slice, no nil map and
    no nil element, decoding the bytes produced by encoding
    the value yields a value structurally equal to it: the same value, with
    the entries of its maps in the order of their keys. *)
Theorem wire_round_trip
    (formatFloat : spec_float -> string)
    (parseFloat : string -> option spec_float) (v : Value) :
  wire_safe formatFloat parseFloat v ->
  exists enc : string,
    Marshal formatFloat v = Ok enc /\
    parseJSON parseFloat enc = Ok (canon v) /\
    same_value v (canon v).
Proof.
  intros Hs. exists (render (wire formatFloat v)). split; [|split].
  - now apply (Marshal_wire formatFloat parseFloat).
  - unfold parseJSON.
    rewrite (read_document_render _ (readable_wire _ _ _ Hs)).
    now apply (to_value_wire formatFloat parseFloat).
  - apply same_value_canon.
Qed.

Lemma wire_round_trip_witness :
  (forall fmt pf, wire_safe fmt pf representatives) /\
  (forall fmt pf, exists enc : string,
     Marshal fmt representatives = Ok enc /\
     parseJSON pf enc = Ok (canon representatives) /\
     same_value representatives (canon representatives)) /\
  (forall fmt pf,
     fmt float_two_and_a_half = "2.5" ->
     pf "2.5" = Some float_two_and_a_half ->
     wire_safe fmt pf fractional_double /\
     exists enc : string,
       Marshal fmt fractional_double = Ok enc /\
       parseJSON pf enc = Ok (canon fractional_double) /\
       same_value fractional_double (canon fractional_double)).
Proof.
  assert (H : forall fmt pf, wire_safe fmt pf representatives).
  { intros fmt pf. vm_compute. repeat split. }
  split; [exact H|]. split.
  - intros fmt pf. apply (wire_round_trip fmt pf representatives (H fmt pf)).
  - intros fmt pf Hfmt Hpf.
    assert (Hd : wire_safe fmt pf fractional_double).
    { cbn [wire_safe fractional_double]. unfold wire_float.
      rewrite Hfmt. repeat split; assumption. }
    split; [exact Hd|].
    apply (wire_round_trip fmt pf fractional_double Hd).
Defined.

Example representatives_text (fmt : spec_float -> string) :
  Marshal fmt representatives
  = Ok (dq ("[{'object':{}},[],-42,{'@ts':'2020-06-15T10:20:30.123456789Z'},"
            +++ "{'@date':'2020-12-31'},{'@date':'2000-02-29'},"
            +++ "{'object':{'age':30,'name':'Bob','tags':['a\u003"
            +++ "cb',null,true]}},"
            +++ "{'@set':{'match':{'@ref':'indexes/spells_by_element'},'terms':'fire'}}]")).
Proof. vm_compute. reflexivity. Qed.

(* ------------------------------------------------------------------ *)
(** ** The encoder fails on Doubles that are not finite, and only on them *)

Lemma sequence_all_Ok {A} (l : list (result A)) :
  Forall (fun r => exists a, r = Ok a) l -> exists az, sequence l = Ok az.
Proof.
  induction 1 as [|r l [a ->] _ [az IH]]; simpl; [eauto|].
  rewrite IH. simpl. eauto.
Qed.

Lemma sequence_some_Err {A} (l : list (result A)) :
  Exists (fun r => exists e, r = Err e) l ->
  exists e, In (Err e) l /\ sequence l = Err e.
Proof.
  induction l as [|r l IH]; intros H; [inversion H|].
  destruct r as [a | e].
  - inversion H as [? ? [e He] | ? ? Hl]; subst; [discriminate|].
    destruct (IH Hl) as [e [Hin Hs]]. exists e. split; [now right|].
    simpl. now rewrite Hs.
  - exists e. split; [now left | reflexivity].
Qed.
Lemma marshal_map_all_Ok (E : list (string * result string)) :
  Forall (fun kr => exists a, snd kr = Ok a) E ->
  exists enc, marshal_map E = Ok enc.
Proof.
  intros H. unfold marshal_map.
  destruct (sequence_all_Ok
              (map (fun e : string * result string => do x <- snd e; Ok (fst e, x))
                   (sort_entries E))) as [az Haz].
  - apply Forall_forall. intros r Hr. apply in_map_iff in Hr.
    destruct Hr as [[k x] [<- Hin]].
    apply (Permutation_in _ (sort_entries_perm E)) in Hin.
    rewrite Forall_forall in H. destruct (H _ Hin) as [a Ha].
    simpl in Ha. subst x. simpl. eauto.
  - rewrite Haz. simpl. eauto.
Qed.

Lemma marshal_map_some_Err (E : list (string * result string)) :
  Exists (fun kr => exists e, snd kr = Err e) E ->
  exists k e, In (k, Err e) E /\ marshal_map E = Err e.
Proof.
  intros H. unfold marshal_map.
  destruct (sequence_some_Err
              (map (fun e : string * result string => do x <- snd e; Ok (fst e, x))
                   (sort_entries E))) as [e [Hin Hs]].
  - apply Exists_exists in H. destruct H as [[k x] [Hin [e He]]].
    simpl in He. subst x.
    apply Exists_exists. exists (Err e). split; [|eauto].
    apply in_map_iff. exists (k, Err e). split; [reflexivity|].
    apply (Permutation_in _ (Permutation_sym (sort_entries_perm E))). exact Hin.
  - apply in_map_iff in Hin. destruct Hin as [[k x] [Hx Hin]].
    destruct x as [a | e']; simpl in Hx; [discriminate|].
    injection Hx as ->.
    exists k, e. split.
    + apply (Permutation_in _ (sort_entries_perm E)). exact Hin.
    + now rewrite Hs.
Qed.

Lemma escape_result (key : string) (r : result string) :
  escape key r = do e <- r; Ok ("{" +++ (quote key +++ ":" +++ e) +++ "}").
Proof. destruct r; reflexivity. Qed.

Lemma marshalerEncoder_Ok (type : Variant) (r : result string) (b : string) :
  marshalerEncoder type r = Ok b -> r = Ok b.
Proof. destruct r; simpl; [trivial | discriminate]. Qed.


Lemma entries_encode_or_refuse fmt (m : list (string * Value)) :
  Forall (fun kv => encodes_or_refuses fmt (snd kv)) m ->
  (forallb (fun e => all_finite (snd e)) m = true ->
   exists enc, marshal_map (entries (Marshal fmt) m) = Ok enc) /\
  (forallb (fun e => all_finite (snd e)) m = false ->
   exists f err,
     finite f = false /\
     marshal_map (entries (Marshal fmt) m) = Err err /\
     cause err = UnsupportedValueError f).
Proof.
  intros IH. rewrite Forall_forall in IH. split; intros H.
  - apply marshal_map_all_Ok. apply Forall_forall. intros [k r] Hin.
    unfold entries in Hin. apply in_map_iff in Hin.
    destruct Hin as [[k' x] [Hx Hin]]. injection Hx as -> <-.
    rewrite forallb_forall in H.
    destruct (IH _ Hin) as [Hok _]. simpl in *.
    apply Hok. exact (H _ Hin).
  - destruct (marshal_map_some_Err (entries (Marshal fmt) m)) as [k [e [Hin He]]].
    + assert (Hex : exists kv, In kv m /\ all_finite (snd kv) = false).
      { clear IH. induction m as [|kv m IHm]; simpl in H; [discriminate|].
        apply andb_false_iff in H. destruct H as [H | H].
        - exists kv. split; [now left | exact H].
        - destruct (IHm H) as [kv' [Hin' H']]. exists kv'. split; [now right | exact H']. }
      destruct Hex as [[k x] [Hin Hx]].
      destruct (IH _ Hin) as [_ Herr].
      destruct (Herr Hx) as [f [e0 [_ [Hf _]]]].
      apply Exists_exists. exists (k, Marshal fmt x). split.
      * unfold entries. apply in_map_iff. exists (k, x). split; [reflexivity | exact Hin].
      * simpl in *. eauto.
    + unfold entries in Hin. apply in_map_iff in Hin.
      destruct Hin as [[k' x] [Hx Hin]]. injection Hx as -> Hx.
      destruct (IH _ Hin) as [Hok Herr]. simpl in *.
      destruct (all_finite x) eqn:Ex.
      * destruct (Hok eq_refl) as [enc Henc]. congruence.
      * destruct (Herr eq_refl) as [f [e0 [Hf [Hm Hc]]]].
        exists f, e. split; [exact Hf|]. split; [exact He|].
        assert (E : e = e0) by congruence. now rewrite E.
Qed.

(** X1: encoding a value succeeds when every Double in it, at any depth,
    is finite, and fails otherwise: the error has at its root the
    encoder's error for a Double that is not finite (a NaN or an
    infinity), under the marshaler's errors that [json.Marshal] puts
    around the error of a [MarshalJSON] method. *)
Theorem Marshal_refuses_non_finite (fmt : spec_float -> string) (v : Value) :
  (all_finite v = true -> exists enc, Marshal fmt v = Ok enc) /\
  (all_finite v = false ->
   exists f err,
     finite f = false /\ Marshal fmt v = Err err /\
     cause err = UnsupportedValueError f).
Proof.
  change (encodes_or_refuses fmt v).
  induction v as [s | n | f | b | t | t | s | m IH | m IH | l IH | | | | | ]
    using Value_nested_ind; unfold encodes_or_refuses;
    cbn [all_finite Marshal];
    unfold DateV_MarshalJSON, TimeV_MarshalJSON, RefV_MarshalJSON, NullV_MarshalJSON;
    rewrite ?escape_Ok; cbn [marshalerEncoder];
    try solve [split; [intros _; eauto | discriminate]];
    try solve [split; [intros _; eexists; reflexivity | discriminate]].
  - unfold floatEncoder. split; intros H.
    + destruct f; try discriminate H; cbn; eauto.
    + exists f, (UnsupportedValueError f). split; [exact H|].
      split; [|reflexivity]. destruct f; try discriminate H; reflexivity.
  - destruct (entries_encode_or_refuse fmt m IH) as [Hok Herr].
    unfold SetRefV_MarshalJSON. cbn [option_map mapEncoder].
    rewrite escape_result. split; intros H.
    + destruct (Hok H) as [enc ->]. cbn [bind marshalerEncoder]. eauto.
    + destruct (Herr H) as [f [e [Hf [-> Hc]]]]. cbn [bind marshalerEncoder].
      exists f, (MarshalerError VSetReference e). auto.
  - destruct (entries_encode_or_refuse fmt m IH) as [Hok Herr].
    unfold ObjectV_MarshalJSON. cbn [option_map mapEncoder].
    rewrite escape_result. split; intros H.
    + destruct (Hok H) as [enc ->]. cbn [bind marshalerEncoder]. eauto.
    + destruct (Herr H) as [f [e [Hf [-> Hc]]]]. cbn [bind marshalerEncoder].
      exists f, (MarshalerError VObject e). auto.
  - cbn [sliceEncoder]. unfold marshal_array. split; intros H.
    + destruct (sequence_all_Ok (map (Marshal fmt) l)) as [az ->]; [|cbn [bind]; eauto].
      apply Forall_forall. intros r Hr. apply in_map_iff in Hr.
      destruct Hr as [x [<- Hin]]. rewrite Forall_forall in IH.
      rewrite forallb_forall in H. destruct (IH _ Hin) as [Hok _].
      apply Hok. exact (H _ Hin).
    + destruct (sequence_some_Err (map (Marshal fmt) l)) as [e [Hin He]].
      * assert (Hex : exists x, In x l /\ all_finite x = false).
        { clear IH. induction l as [|x l IHl]; simpl in H; [discriminate|].
          apply andb_false_iff in H. destruct H as [H | H].
          - exists x. split; [now left | exact H].
          - destruct (IHl H) as [x' [Hin' H']]. exists x'. split; [now right | exact H']. }
        destruct Hex as [x [Hin Hx]]. rewrite Forall_forall in IH.
        destruct (IH _ Hin) as [_ Herr].
        destruct (Herr Hx) as [f [e0 [_ [Hf _]]]].
        apply Exists_exists. exists (Marshal fmt x). split; [now apply in_map | eauto].
      * apply in_map_iff in Hin. destruct Hin as [x [Hx Hin]].
        rewrite Forall_forall in IH. destruct (IH _ Hin) as [Hok Herr].
        destruct (all_finite x) eqn:Ex.
        -- destruct (Hok eq_refl) as [enc Henc]. congruence.
        -- destruct (Herr eq_refl) as [f [e0 [Hf [Hm Hc]]]].
           exists f, e. split; [exact Hf|]. rewrite He. cbn [bind].
           split; [reflexivity|].
           assert (E : e = e0) by congruence. now rewrite E.
Qed.

Lemma Marshal_refuses_non_finite_witness :
  all_finite (ObjectV [("a", ArrayV [DoubleV S754_nan])]) = false /\
  (forall fmt,
     Marshal fmt (ObjectV [("a", ArrayV [DoubleV S754_nan])])
     = Err (MarshalerError VObject (UnsupportedValueError S754_nan))) /\
  (forall fmt,
     Marshal fmt (SetRefV [("a", ObjectV [("b", DoubleV S754_nan)])])
     = Err (MarshalerError VSetReference
              (MarshalerError VObject (UnsupportedValueError S754_nan)))) /\
  (forall fmt, exists f err,
     finite f = false /\
     Marshal fmt (ObjectV [("a", ArrayV [DoubleV S754_nan])]) = Err err /\
     cause err = UnsupportedValueError f).
Proof.
  split; [reflexivity|]. split; [intros fmt; reflexivity|].
  split; [intros fmt; reflexivity|]. intros fmt.
  apply (proj2 (Marshal_refuses_non_finite fmt
                  (ObjectV [("a", ArrayV [DoubleV S754_nan])]))).
  reflexivity.
Defined.

(* ------------------------------------------------------------------ *)
(** ** The encoder is injective *)

Lemma wire_injective fmt pf (v v' : Value) :
  wire_safe fmt pf v -> wire_safe fmt pf v' ->
  Marshal fmt v = Marshal fmt v' -> wire fmt v = wire fmt v'.
Proof.
  intros Hv Hv' H.
  rewrite (Marshal_wire fmt pf v Hv), (Marshal_wire fmt pf v' Hv') in H.
  injection H as H.
  pose proof (read_document_render _ (readable_wire fmt pf v Hv)) as R.
  pose proof (read_document_render _ (readable_wire fmt pf v' Hv')) as R'.
  rewrite H in R. congruence.
Qed.

(** X2: on the values that the wire format can carry, which hold no nil
    slice, no nil map and no nil element (these are written as [null],
    as Null is), encoding is injective up to the order of map entries:
    two values with the same encoding are equal once the entries of
    their maps are listed in key order. *)
Theorem Marshal_injective
    (formatFloat : spec_float -> string)
    (parseFloat : string -> option spec_float) (v v' : Value) :
  wire_safe formatFloat parseFloat v ->
  wire_safe formatFloat parseFloat v' ->
  Marshal formatFloat v = Marshal formatFloat v' ->
  canon v = canon v'.
Proof.
  intros Hv Hv' H.
  pose proof (wire_injective _ _ _ _ Hv Hv' H) as Hw.
  pose proof (to_value_wire formatFloat parseFloat v Hv) as T.
  pose proof (to_value_wire formatFloat parseFloat v' Hv') as T'.
  rewrite Hw in T. congruence.
Qed.

Lemma Marshal_injective_witness :
  (forall fmt pf, wire_safe fmt pf bob) /\
  (forall fmt pf, wire_safe fmt pf bob_by_age) /\
  (forall fmt, Marshal fmt bob = Marshal fmt bob_by_age) /\
  canon bob = canon bob_by_age /\
  (forall fmt pf, ~ wire_safe fmt pf ArrayV_nil) /\
  (forall fmt, Marshal fmt ArrayV_nil = Marshal fmt NullV) /\
  canon ArrayV_nil <> canon NullV.
Proof.
  assert (H : forall fmt pf, wire_safe fmt pf bob)
    by (intros; vm_compute; repeat split).
  assert (H' : forall fmt pf, wire_safe fmt pf bob_by_age)
    by (intros; vm_compute; repeat split).
  split; [exact H|]. split; [exact H'|]. split; [intros; vm_compute; reflexivity|].
  split.
  - apply (Marshal_injective (fun _ => "0") (fun _ => None) bob bob_by_age
             (H _ _) (H' _ _)).
    vm_compute. reflexivity.
  - split; [intros fmt pf F; exact F|].
    split; [intros fmt; reflexivity | discriminate].
Defined.

(** X3: an Integer in the 64-bit range is written exactly: its encoding
    is a JSON number made of an optional minus and digits only, which reads
    back as the same integer. *)
Theorem LongV_exact (fmt : spec_float -> string) (n : Z) :
  in_int64 n = true ->
  exists lit : string,
    Marshal fmt (LongV n) = Ok lit /\
    integer_literal lit = true /\ number_ok lit = true /\ atoi lit = n.
Proof.
  intros H. exists (formatInt n).
  destruct (formatInt_shape n H) as [Hok [_ [Hint Hval]]].
  repeat split; assumption.
Qed.

Lemma LongV_exact_witness :
  in_int64 (- 9223372036854775808) = true /\
  (forall fmt, Marshal fmt (LongV (- 9223372036854775808))
               = Ok "-9223372036854775808") /\
  exists lit : string,
    Marshal (fun _ => "0") (LongV (- 9223372036854775808)) = Ok lit /\
    integer_literal lit = true /\ number_ok lit = true /\
    atoi lit = - 9223372036854775808.
Proof.
  split; [reflexivity|]. split; [intros; vm_compute; reflexivity|].
  apply (LongV_exact (fun _ => "0") (- 9223372036854775808)). reflexivity.
Defined.
(* ------------------------------------------------------------------ *)
(** ** The wire shape of a Date *)

Lemma date_document (s : string) :
  "{" +++ (quote "@date" +++ ":" +++ String DQ (s +++ String DQ EmptyString)) +++ "}"
  = dq "{'@date':'" +++ s +++ dq "'}".
Proof. cbn. now rewrite !sapp_assoc. Qed.

Lemma DateV_MarshalJSON_text (t : Time) :
  DateV_MarshalJSON t = Ok (dq "{'@date':'" +++ Format_date t +++ dq "'}").
Proof.
  unfold DateV_MarshalJSON. rewrite escape_Ok.
  rewrite (quote_safe (Format_date t)).
  - f_equal. apply date_document.
  - apply all_chars_weaken with (p := ts_char);
      [apply ts_char_safe | apply Format_date_chars].
Qed.

Lemma unixToAbsolute_value : unixToAbsolute = 106751991073094 * secondsPerDay.
Proof. reflexivity. Qed.

Lemma abs_UTC (t : Time) :
  offset t = 0 -> - unixToAbsolute <= unix t < 2 ^ 63 ->
  abs t = unix t + unixToAbsolute /\ 0 <= abs t.
Proof.
  intros Hutc Hr.
  assert (H : unixToAbsolute = 9223372028715321600) by reflexivity.
  assert (Ha : abs t = unix t + unixToAbsolute).
  { unfold abs, uint64. rewrite Hutc, Z.add_0_r. apply Z.mod_small. lia. }
  split; [exact Ha | lia].
Qed.

Lemma Date_midnight (year month day hour min sec : Z) :
  Date year month day 0 0 0
  = Date year month day hour min sec
    - (hour * secondsPerHour + min * secondsPerMinute + sec).
Proof. rewrite !Date_halves. lia. Qed.

Lemma abs_day_UTC (t : Time) :
  offset t = 0 -> - unixToAbsolute <= unix t < 2 ^ 63 ->
  abs t mod secondsPerDay = unix t mod secondsPerDay /\
  abs t / secondsPerDay = unix t / secondsPerDay + 106751991073094.
Proof.
  intros Hutc Hr. destruct (abs_UTC t Hutc Hr) as [-> _].
  rewrite unixToAbsolute_value. split.
  - apply Z.mod_add. discriminate.
  - apply Z.div_add. discriminate.
Qed.

Lemma appendInt_length (w : nat) (x : Z) :
  appendInt_exact w x = true -> String.length (appendInt x w) = w.
Proof.
  unfold appendInt_exact. intros H.
  apply andb_true_iff in H. destruct H as [H _].
  apply andb_true_iff in H. destruct H as [H _].
  now apply Nat.eqb_eq.
Qed.

(** X4: for every Date held in UTC (from the absolute zero year of Go's
    calendar on), encoding produces the single-key JSON object
    [{"@date": s}] where [s] is year, month and day of the civil day that
    the instant falls in: the time of day is dropped.  For a year from
    0000 to 9999, [s] has exactly ten characters. *)
Theorem DateV_wire_shape (t : Time) :
  offset t = 0 ->
  - unixToAbsolute <= unix t < 2 ^ 63 ->
  exists year month day : Z,
    DateV_MarshalJSON t
    = Ok (dq "{'@date':'"
            +++ appendInt year 4 +++ "-" +++ appendInt month 2 +++ "-"
            +++ appendInt day 2 +++ dq "'}") /\
    Date year month day 0 0 0 = unix t - unix t mod secondsPerDay /\
    1 <= month <= 12 /\ 1 <= day <= daysIn month year /\
    (0 <= year <= 9999 ->
     String.length (appendInt year 4 +++ "-" +++ appendInt month 2 +++ "-"
                      +++ appendInt day 2) = 10%nat).
Proof.
  intros Hutc Hr.
  destruct (abs_UTC t Hutc Hr) as [Ha H0].
  destruct (abs_day_UTC t Hutc Hr) as [Hm _].
  rewrite DateV_MarshalJSON_text. unfold Format_date.
  destruct (absDate (abs t)) as [[year month] day] eqn:ED.
  destruct (absClock (abs t)) as [[hour min] sec] eqn:EC.
  exists year, month, day.
  destruct (absDate_Date_eq _ _ _ _ _ _ _ H0 ED EC) as [HD _].
  destruct (absDate_fields _ _ _ _ H0 ED) as [Hmo Hda].
  pose proof (absClock_spec (abs t) H0) as HC. rewrite EC in HC.
  destruct HC as [_ [_ [_ HC]]].
  split; [|split; [|split; [exact Hmo | split; [exact Hda|]]]].
  - f_equal. now rewrite !sapp_assoc.
  - rewrite (Date_midnight _ _ _ hour min sec), HD, HC, Hm, Ha. lia.
  - intros Hy.
    assert (Hd31 : daysIn month year <= 31) by now apply daysIn_bound.
    rewrite !slength_app.
    rewrite (appendInt_length 4 year) by (apply appendInt_exact_4; lia).
    rewrite (appendInt_length 2 month) by (apply appendInt_exact_2; lia).
    rewrite (appendInt_length 2 day) by (apply appendInt_exact_2; lia).
    reflexivity.
Qed.

Lemma DateV_wire_shape_witness :
  exists year month day : Z,
    DateV_MarshalJSON date_with_clock_time
    = Ok (dq "{'@date':'"
            +++ appendInt year 4 +++ "-" +++ appendInt month 2 +++ "-"
            +++ appendInt day 2 +++ dq "'}") /\
    Date year month day 0 0 0
    = unix date_with_clock_time - unix date_with_clock_time mod secondsPerDay /\
    1 <= month <= 12 /\ 1 <= day <= daysIn month year /\
    (0 <= year <= 9999 ->
     String.length (appendInt year 4 +++ "-" +++ appendInt month 2 +++ "-"
                      +++ appendInt day 2) = 10%nat).
Proof.
  apply (DateV_wire_shape date_with_clock_time).
  - reflexivity.
  - assert (H : unixToAbsolute = 9223372028715321600) by reflexivity.
    cbn [unix date_with_clock_time]. lia.
Defined.
(* ------------------------------------------------------------------ *)
(** ** Dates of the same day *)

Lemma Ok_inj {A} (a b : A) : Ok a = Ok b -> a = b.
Proof. now intros [= ->]. Qed.

Lemma sapp_inv_l (p a b : string) : p +++ a = p +++ b -> a = b.
Proof.
  induction p as [|c p IH]; cbn [String.append]; intros H;
    [exact H | injection H as H; auto].
Qed.

Lemma absDate_of_day (a a' : Z) :
  a / secondsPerDay = a' / secondsPerDay -> absDate a = absDate a'.
Proof. intros H. rewrite !absDate_halves, H. reflexivity. Qed.

Lemma day_of_absDate (a a' : Z) :
  0 <= a -> 0 <= a' -> absDate a = absDate a' ->
  a / secondsPerDay = a' / secondsPerDay.
Proof.
  intros H0 H0' H.
  destruct (absDate a) as [[year month] day] eqn:ED.
  destruct (absClock a) as [[hour min] sec] eqn:EC.
  destruct (absClock a') as [[hour' min'] sec'] eqn:EC'.
  symmetry in H.
  destruct (absDate_Date_eq _ _ _ _ _ _ _ H0 ED EC) as [HD _].
  destruct (absDate_Date_eq _ _ _ _ _ _ _ H0' H EC') as [HD' _].
  pose proof (absClock_spec a H0) as HC. rewrite EC in HC.
  pose proof (absClock_spec a' H0') as HC'. rewrite EC' in HC'.
  destruct HC as [_ [_ [_ HC]]]. destruct HC' as [_ [_ [_ HC']]].
  rewrite (Date_halves year month day hour min sec) in HD.
  rewrite (Date_halves year month day hour' min' sec') in HD'.
  assert (Hs : secondsPerDay = 86400) by reflexivity.
  rewrite Hs in *.
  pose proof (Z.div_mod a 86400 ltac:(discriminate)) as Ea.
  pose proof (Z.div_mod a' 86400 ltac:(discriminate)) as Ea'.
  lia.
Qed.

(** X5: two Dates held in UTC, with years from 0000 to 9999, have the same
    encoding exactly when they fall on the same day. *)
Theorem DateV_same_day (t t' : Time) :
  wire_time t = true -> wire_time t' = true ->
  (DateV_MarshalJSON t = DateV_MarshalJSON t'
   <-> unix t / secondsPerDay = unix t' / secondsPerDay).
Proof.
  intros Ht Ht'.
  destruct (wire_time_facts t Ht) as [_ [_ [Ha [H0 Hy]]]].
  destruct (wire_time_facts t' Ht') as [_ [_ [Ha' [H0' Hy']]]].
  assert (Hdays : abs t / secondsPerDay = abs t' / secondsPerDay
                  <-> unix t / secondsPerDay = unix t' / secondsPerDay).
  { rewrite Ha, Ha', unixToAbsolute_value.
    rewrite !Z.div_add by discriminate. lia. }
  rewrite <- Hdays. rewrite !DateV_MarshalJSON_text. split; intros H.
  - apply Ok_inj, sapp_inv_l in H.
    destruct (absDate (abs t)) as [[year month] day] eqn:ED.
    destruct (absDate (abs t')) as [[year' month'] day'] eqn:ED'.
    rewrite (civil_year_of t _ _ _ ED) in Hy.
    rewrite (civil_year_of t' _ _ _ ED') in Hy'.
    pose proof (read_date_Format t year month day (dq "'}") H0 ED Hy) as R.
    pose proof (read_date_Format t' year' month' day' (dq "'}") H0' ED' Hy') as R'.
    rewrite H in R. rewrite R in R'. injection R' as -> -> ->.
    apply day_of_absDate; congruence.
  - unfold Format_date. now rewrite (absDate_of_day _ _ H).
Qed.

Lemma DateV_same_day_witness :
  wire_time (mkTime 1592216430 0 0) = true /\
  wire_time (mkTime 1592179200 500 0) = true /\
  1592216430 / secondsPerDay = 1592179200 / secondsPerDay /\
  DateV_MarshalJSON (mkTime 1592216430 0 0)
  = DateV_MarshalJSON (mkTime 1592179200 500 0).
Proof.
  split; [vm_compute; reflexivity|]. split; [vm_compute; reflexivity|].
  split; [reflexivity|].
  apply (DateV_same_day (mkTime 1592216430 0 0) (mkTime 1592179200 500 0));
    vm_compute; reflexivity.
Defined.
(* ------------------------------------------------------------------ *)
(** ** The location of a Time *)

(** X6: the location of a Time is not written.  A Time or Date held at an
    offset from UTC encodes exactly as the one held in UTC whose instant is
    that many seconds later: the encoding shows the local clock, followed
    by the literal [Z] for a Time. *)
Theorem location_folded_into_clock (u n off : Z) :
  TimeV_MarshalJSON (mkTime u n off) = TimeV_MarshalJSON (mkTime (u + off) n 0) /\
  DateV_MarshalJSON (mkTime u n off) = DateV_MarshalJSON (mkTime (u + off) n 0).
Proof.
  assert (Habs : abs (mkTime u n off) = abs (mkTime (u + off) n 0)).
  { unfold abs. cbn [unix offset]. f_equal. lia. }
  rewrite !TimeV_MarshalJSON_text, !DateV_MarshalJSON_text.
  unfold Format_ts, Format_seconds, Format_date. rewrite Habs. cbn [nsec].
  split; reflexivity.
Qed.

(* ------------------------------------------------------------------ *)
(** ** The first bytes of an encoding *)

Lemma prefix_head_neq (a b : ascii) (s1 s2 : string) :
  a <> b -> prefix (String a s1) (String b s2) = false.
Proof. intros H. simpl. destruct (ascii_dec a b); [contradiction | reflexivity]. Qed.

Lemma prefix_app (p s : string) : prefix p (p +++ s) = true.
Proof.
  induction p as [|c p IH]; simpl; [now destruct s|].
  destruct (ascii_dec c c); [exact IH | contradiction].
Qed.

Lemma wire_variant_head (c : ascii) (rest : string) :
  c <> "{"%char ->
  wire_variant (String c rest)
  = if Ascii.eqb c "["%char then Some VArray
    else if Ascii.eqb c DQ then Some VString
    else if Ascii.eqb c "n"%char then Some VNull
    else if Ascii.eqb c "t"%char || Ascii.eqb c "f"%char then Some VBoolean
    else if is_digit c || Ascii.eqb c "-"%char then Some VInteger
    else None.
Proof.
  intros H. unfold wire_variant.
  change (dq "{'@date':") with (String "{"%char (dq "'@date':")).
  change (dq "{'@ts':") with (String "{"%char (dq "'@ts':")).
  change (dq "{'@ref':") with (String "{"%char (dq "'@ref':")).
  change (dq "{'@set':") with (String "{"%char (dq "'@set':")).
  change (dq "{'object':") with (String "{"%char (dq "'object':")).
  rewrite !prefix_head_neq by (intros E; apply H; now symmetry).
  reflexivity.
Qed.

Lemma digits_loop_head_digit (fuel : nat) (u : Z) (acc : string) :
  0 <= u ->
  (exists d rest, acc = String d rest /\ is_digit d = true) \/ (0 < fuel)%nat ->
  exists d rest, digits_loop fuel u acc = String d rest /\ is_digit d = true.
Proof.
  revert u acc. induction fuel as [|k IH]; intros u acc Hu H; simpl.
  - destruct H as [H | H]; [exact H | lia].
  - destruct (10 <=? u) eqn:E.
    + apply IH.
      * apply Z.div_pos; lia.
      * left. eexists _, _. split; [reflexivity|].
        apply digit_is_digit. apply Z.mod_pos_bound. lia.
    + apply Z.leb_gt in E. eexists _, _. split; [reflexivity|].
      apply digit_is_digit. lia.
Qed.

Lemma is_digit_not_brace (d : ascii) : is_digit d = true -> d <> "{"%char.
Proof. intros H ->. discriminate H. Qed.

Lemma wire_variant_digit (d : ascii) (rest : string) :
  is_digit d = true -> wire_variant (String d rest) = Some VInteger.
Proof.
  intros H. rewrite wire_variant_head by now apply is_digit_not_brace.
  rewrite H.
  unfold is_digit in H. apply andb_true_iff in H. destruct H as [H1 H2].
  apply Z.leb_le in H1. apply Z.leb_le in H2.
  rewrite !ascii_eqb_code.
  change (code "[") with 91. change (code DQ) with 34.
  change (code "n") with 110. change (code "t") with 116.
  change (code "f") with 102.
  replace (code d =? 91) with false by (symmetry; apply Z.eqb_neq; lia).
  replace (code d =? 34) with false by (symmetry; apply Z.eqb_neq; lia).
  replace (code d =? 110) with false by (symmetry; apply Z.eqb_neq; lia).
  replace (code d =? 116) with false by (symmetry; apply Z.eqb_neq; lia).
  replace (code d =? 102) with false by (symmetry; apply Z.eqb_neq; lia).
  reflexivity.
Qed.

(** X7: the first bytes of an encoding announce the variant of the value,
    for every value but a Double (its text is that of [strconv]), an
    Array that is the nil slice and the nil interface (both are written
    as [null], which announces Null): two such values of different
    variants never have the same encoding, and an Object whose only key
    is a reserved tag is told from the tagged value by its [object]
    wrapper. *)
Theorem Marshal_announces_variant
    (fmt : spec_float -> string) (v : Value) (enc : string) :
  Marshal fmt v = Ok enc ->
  variant v <> Some VDouble ->
  v <> ArrayV_nil ->
  v <> nil_Value ->
  wire_variant enc = variant v.
Proof.
  intros H Hv Harr Hnil.
  destruct v as [s | n | f | b | t | t | s | m | m | l | | | | | ];
    cbn [Marshal variant] in *;
    try apply marshalerEncoder_Ok in H;
    try (exfalso; apply Harr; reflexivity);
    try (exfalso; apply Hnil; reflexivity).
  - injection H as <-. reflexivity.
  - injection H as <-. unfold formatInt.
    destruct (n <? 0); [reflexivity|].
    destruct (digits_loop_head_digit 20 (Z.abs n) EmptyString) as [d [rest [E Hd]]];
      [lia | right; lia |].
    unfold utoa. rewrite E. cbn [String.append]. now apply wire_variant_digit.
  - exfalso. apply Hv. reflexivity.
  - injection H as <-. destruct b; reflexivity.
  - rewrite DateV_MarshalJSON_text in H. injection H as <-. reflexivity.
  - rewrite TimeV_MarshalJSON_text in H. injection H as <-. reflexivity.
  - unfold RefV_MarshalJSON in H. rewrite escape_Ok in H. injection H as <-.
    reflexivity.
  - unfold SetRefV_MarshalJSON in H. cbn [option_map mapEncoder] in H.
    rewrite escape_result in H.
    destruct (marshal_map (entries (Marshal fmt) m)) as [inner | e];
      [|discriminate H].
    injection H as <-.
    change (wire_variant (dq "{'@set':" +++ (inner +++ "}")) = Some VSetReference).
    unfold wire_variant. rewrite prefix_app. reflexivity.
  - unfold ObjectV_MarshalJSON in H. cbn [option_map mapEncoder] in H.
    rewrite escape_result in H.
    destruct (marshal_map (entries (Marshal fmt) m)) as [inner | e];
      [|discriminate H].
    injection H as <-.
    change (wire_variant (dq "{'object':" +++ (inner +++ "}")) = Some VObject).
    unfold wire_variant. rewrite prefix_app. reflexivity.
  - cbn [sliceEncoder] in H. unfold marshal_array in H.
    destruct (sequence (map (Marshal fmt) l)) as [encoded | e]; [|discriminate H].
    injection H as <-. reflexivity.
  - injection H as <-. reflexivity.
  - injection H as <-. reflexivity.
  - injection H as <-. reflexivity.
Qed.

Lemma Marshal_announces_variant_witness :
  (forall fmt, Marshal fmt (ObjectV [("@ref", StringV "classes/spells/1")])
               = Ok (dq "{'object':{'@ref':'classes/spells/1'}}")) /\
  variant (ObjectV [("@ref", StringV "classes/spells/1")]) <> Some VDouble /\
  wire_variant (dq "{'object':{'@ref':'classes/spells/1'}}") = Some VObject /\
  (forall fmt, Marshal fmt (RefV "classes/spells/1")
               = Ok (dq "{'@ref':'classes/spells/1'}")) /\
  wire_variant (dq "{'@ref':'classes/spells/1'}") = Some VReference /\
  (forall fmt, Marshal fmt ObjectV_nil = Ok (dq "{'object':null}")) /\
  wire_variant (dq "{'object':null}") = Some VObject /\
  (forall fmt, Marshal fmt ArrayV_nil = Ok "null" /\
               Marshal fmt nil_Value = Ok "null") /\
  wire_variant "null" = Some VNull.
Proof.
  split; [intros; vm_compute; reflexivity|]. split; [discriminate|].
  split.
  - apply (Marshal_announces_variant (fun _ => EmptyString)
             (ObjectV [("@ref", StringV "classes/spells/1")])).
    + vm_compute. reflexivity.
    + discriminate.
    + discriminate.
    + discriminate.
  - split; [intros; vm_compute; reflexivity|].
    split.
    + apply (Marshal_announces_variant (fun _ => EmptyString)
               (RefV "classes/spells/1")).
      * vm_compute. reflexivity.
      * discriminate.
      * discriminate.
      * discriminate.
    + split; [intros; reflexivity|].
      split.
      * apply (Marshal_announces_variant (fun _ => EmptyString) ObjectV_nil).
        -- reflexivity.
        -- discriminate.
        -- discriminate.
        -- discriminate.
      * split; [intros; split; reflexivity | reflexivity].
Defined.
(* ------------------------------------------------------------------ *)
(** ** The bytes of an encoding *)

Lemma hex_plain (n : Z) : plain_byte (hex n) = true.
Proof.
  unfold hex.
  destruct (nth_in_or_default (Z.to_nat n)
              (list_ascii_of_string "0123456789abcdef") "0"%char) as [H | ->];
    [|reflexivity].
  revert H. generalize (nth (Z.to_nat n) (list_ascii_of_string "0123456789abcdef") "0"%char).
  intros c H. simpl in H.
  repeat (destruct H as [<- | H]; [reflexivity|]). contradiction.
Qed.

Lemma htmlSafe_plain (b : ascii) : htmlSafe (code b) = true -> plain_byte b = true.
Proof.
  unfold htmlSafe, plain_byte. intros H.
  repeat (apply andb_true_iff in H; destruct H as [H ?]).
  repeat (apply andb_true_iff; split); assumption.
Qed.

Lemma escape_byte_plain (b : ascii) : all_chars plain_byte (escape_byte b) = true.
Proof.
  unfold escape_byte.
  destruct ((code b =? 92) || (code b =? 34)) eqn:E.
  - cbn [all_chars]. rewrite andb_true_r.
    apply orb_true_iff in E. unfold plain_byte.
    destruct E as [E | E]; apply Z.eqb_eq in E; rewrite E; reflexivity.
  - destruct (code b =? 10); [reflexivity|].
    destruct (code b =? 13); [reflexivity|].
    destruct (code b =? 9); [reflexivity|].
    cbn [String.append all_chars]. now rewrite !hex_plain.
Qed.

Lemma line_separator_plain (s : string) (h : ascii) :
  line_separator s = Some h -> plain_byte h = true.
Proof.
  unfold line_separator.
  destruct s as [|c0 [|c1 [|c2 r]]]; try discriminate.
  destruct (_ && _); [|discriminate].
  intros [= <-]. apply hex_plain.
Qed.

Lemma high_plain (b : ascii) : 128 <= code b -> plain_byte b = true.
Proof.
  intros H. unfold plain_byte.
  replace (32 <=? code b) with true by (symmetry; apply Z.leb_le; lia).
  replace (code b =? 38) with false by (symmetry; apply Z.eqb_neq; lia).
  replace (code b =? 60) with false by (symmetry; apply Z.eqb_neq; lia).
  replace (code b =? 62) with false by (symmetry; apply Z.eqb_neq; lia).
  reflexivity.
Qed.

Lemma string_body_plain (s : string) :
  forall (k : nat) (copy : bool),
    high_prefix k s = true ->
    all_chars plain_byte (string_body k copy s) = true.
Proof.
  induction s as [|b r IH]; intros k copy Hk; [reflexivity|].
  destruct k as [|k].
  - cbn [string_body]. destruct (code b <? 128) eqn:Eb.
    + rewrite all_chars_app, (IH 0%nat true eq_refl), andb_true_r.
      destruct (htmlSafe (code b)) eqn:Es.
      * cbn [all_chars]. now rewrite (htmlSafe_plain b Es).
      * apply escape_byte_plain.
    + apply Z.ltb_ge in Eb.
      destruct (rune_size (String b r)) as [sz|] eqn:Er.
      * destruct (rune_size_high b r sz Er) as [Hh _].
        destruct (line_separator (String b r)) as [h|] eqn:El.
        -- cbn [String.append all_chars].
           rewrite (line_separator_plain _ _ El), (IH _ false Hh).
           reflexivity.
        -- cbn [all_chars]. now rewrite (high_plain b Eb), (IH _ true Hh).
      * rewrite all_chars_app, (IH 0%nat true eq_refl). reflexivity.
  - cbn [high_prefix] in Hk. apply andb_true_iff in Hk. destruct Hk as [Hb Hk].
    apply Z.leb_le in Hb.
    cbn [string_body]. rewrite all_chars_app, (IH k copy Hk), andb_true_r.
    destruct copy; [|reflexivity].
    cbn [all_chars]. now rewrite (high_plain b Hb).
Qed.
Lemma quote_plain (s : string) : all_chars plain_byte (quote s) = true.
Proof.
  unfold quote. rewrite all_chars_app. cbn [all_chars].
  now rewrite (string_body_plain s 0%nat true eq_refl).
Qed.

Lemma is_digit_plain (c : ascii) : is_digit c = true -> plain_byte c = true.
Proof.
  intros H. apply is_digit_safe in H. unfold safe_char in H.
  apply andb_true_iff in H. destruct H as [_ H]. now apply htmlSafe_plain.
Qed.

Lemma formatInt_plain (n : Z) : all_chars plain_byte (formatInt n) = true.
Proof.
  unfold formatInt. rewrite all_chars_app.
  replace (all_chars plain_byte (utoa (Z.abs n))) with true.
  - now destruct (n <? 0).
  - symmetry. apply all_chars_weaken with (p := is_digit);
      [apply is_digit_plain | apply utoa_digits; lia].
Qed.

Lemma sequence_Ok_inv {A} (l : list (result A)) (az : list A) :
  sequence l = Ok az -> Forall2 (fun r a => r = Ok a) l az.
Proof.
  revert az. induction l as [|r l IH]; intros az H; simpl in H.
  - injection H as <-. constructor.
  - destruct r as [a | e]; [|discriminate H]. simpl in H.
    destruct (sequence l) as [az' | e]; [|discriminate H].
    injection H as <-. constructor; [reflexivity | now apply IH].
Qed.

Lemma Forall2_right {A B} (R : A -> B -> Prop) (P : B -> Prop) l l' :
  Forall2 R l l' -> (forall a b, In a l -> R a b -> P b) -> Forall P l'.
Proof.
  induction 1 as [|a b l l' Hab _ IH]; intros H; constructor.
  - apply (H a b); [now left | exact Hab].
  - apply IH. intros a' b' Hin. apply H. now right.
Qed.

Section Pieces.

Variable P : string -> Prop.
Variable fmt : spec_float -> string.
Hypothesis P_app : forall a b, P a -> P b -> P (a +++ b).
Hypothesis P_quote : forall s, P (quote s).
Hypothesis P_int : forall n, P (formatInt n).
Hypothesis P_float : forall f, P (fmt f).
Hypothesis P_words :
  Forall P ["{"; "}"; "["; "]"; ","; ":"; "true"; "false"; "null"; EmptyString].

Lemma P_word (w : string) :
  In w ["{"; "}"; "["; "]"; ","; ":"; "true"; "false"; "null"; EmptyString] -> P w.
Proof. rewrite Forall_forall in P_words. apply P_words. Qed.

Lemma join_pieces (l : list string) : Forall P l -> P (join "," l).
Proof.
  intros H. induction H as [|x l Hx Hl IH]; [apply P_word; simpl; tauto|].
  destruct l as [|y l]; [exact Hx|].
  change (join "," (x :: y :: l)) with (x +++ "," +++ join "," (y :: l)).
  apply P_app; [exact Hx|]. apply P_app; [apply P_word; simpl; tauto | exact IH].
Qed.

Lemma marshal_map_pieces (E : list (string * result string)) (enc : string) :
  (forall k x, In (k, Ok x) E -> P x) ->
  marshal_map E = Ok enc -> P enc.
Proof.
  intros HE H. unfold marshal_map in H.
  destruct (sequence _) as [encoded|] eqn:Es; [|discriminate H].
  injection H as <-. apply sequence_Ok_inv in Es.
  change (P ("{" +++ join "," (map member encoded) +++ "}")).
  apply P_app; [apply P_word; simpl; tauto|].
  apply P_app; [|apply P_word; simpl; tauto].
  apply join_pieces. apply Forall_map.
  apply (Forall2_right _ _ _ _ Es). intros r [k x] Hin Hr.
  apply in_map_iff in Hin. destruct Hin as [[k' r'] [<- Hin]].
  simpl in Hr. destruct r' as [x'|]; [|discriminate Hr].
  injection Hr as <- <-.
  apply (Permutation_in _ (sort_entries_perm E)) in Hin.
  unfold member. cbn [fst snd].
  apply P_app; [apply P_quote|].
  apply P_app; [apply P_word; simpl; tauto | exact (HE _ _ Hin)].
Qed.

Lemma escape_pieces (key : string) (r : result string) (enc : string) :
  (forall x, r = Ok x -> P x) -> escape key r = Ok enc -> P enc.
Proof.
  intros Hr. unfold escape. apply marshal_map_pieces.
  intros k x [[= <- ->] | []]. now apply Hr.
Qed.

Lemma entries_pieces (m : list (string * Value)) (enc : string) :
  Forall (fun kv => forall x, Marshal fmt (snd kv) = Ok x -> P x) m ->
  marshal_map (entries (Marshal fmt) m) = Ok enc -> P enc.
Proof.
  intros IH. apply marshal_map_pieces. intros k x Hin.
  unfold entries in Hin. apply in_map_iff in Hin.
  destruct Hin as [[k' y] [[= <- Hy] Hin]].
  rewrite Forall_forall in IH. exact (IH _ Hin x Hy).
Qed.

Lemma Marshal_pieces (v : Value) (enc : string) : Marshal fmt v = Ok enc -> P enc.
Proof.
  revert enc.
  induction v as [s | n | f | b | t | t | s | m IH | m IH | l IH | | | | | ]
    using Value_nested_ind; intros enc H; cbn [Marshal] in H;
    try apply marshalerEncoder_Ok in H.
  - injection H as <-. apply P_quote.
  - injection H as <-. apply P_int.
  - unfold floatEncoder in H. destruct f; try discriminate H;
      injection H as <-; apply P_float.
  - injection H as <-. destruct b; apply P_word; simpl; tauto.
  - unfold DateV_MarshalJSON in H. refine (escape_pieces _ _ _ _ H).
    intros x [= <-]. apply P_quote.
  - unfold TimeV_MarshalJSON in H. refine (escape_pieces _ _ _ _ H).
    intros x [= <-]. apply P_quote.
  - unfold RefV_MarshalJSON in H. refine (escape_pieces _ _ _ _ H).
    intros x [= <-]. apply P_quote.
  - unfold SetRefV_MarshalJSON in H. cbn [option_map mapEncoder] in H.
    refine (escape_pieces _ _ _ _ H).
    intros x. now apply entries_pieces.
  - unfold ObjectV_MarshalJSON in H. cbn [option_map mapEncoder] in H.
    refine (escape_pieces _ _ _ _ H).
    intros x. now apply entries_pieces.
  - cbn [sliceEncoder] in H. unfold marshal_array in H.
    destruct (sequence (map (Marshal fmt) l)) as [encoded|] eqn:Es; [|discriminate H].
    injection H as <-. apply sequence_Ok_inv in Es.
    change (P ("[" +++ join "," encoded +++ "]")).
    apply P_app; [apply P_word; simpl; tauto|].
    apply P_app; [|apply P_word; simpl; tauto].
    apply join_pieces.
    apply (Forall2_right _ _ _ _ Es). intros r x Hin Hr.
    apply in_map_iff in Hin. destruct Hin as [y [<- Hin]].
    rewrite Forall_forall in IH. exact (IH _ Hin x Hr).
  - injection H as <-. apply P_word; simpl; tauto.
  - unfold SetRefV_MarshalJSON in H. cbn [option_map mapEncoder] in H.
    refine (escape_pieces _ _ _ _ H).
    intros x [= <-]. apply P_word; simpl; tauto.
  - unfold ObjectV_MarshalJSON in H. cbn [option_map mapEncoder] in H.
    refine (escape_pieces _ _ _ _ H).
    intros x [= <-]. apply P_word; simpl; tauto.
  - injection H as <-. apply P_word; simpl; tauto.
  - injection H as <-. apply P_word; simpl; tauto.
Qed.

End Pieces.

(** X8: an encoding holds no byte below the space and none of [<], [>]
    and [&], whatever bytes the Strings, References and keys of the value
    hold (given that the text of a Double is plain, as that of [strconv]
    is). *)
Theorem Marshal_plain (fmt : spec_float -> string) (v : Value) (enc : string) :
  (forall f, all_chars plain_byte (fmt f) = true) ->
  Marshal fmt v = Ok enc ->
  all_chars plain_byte enc = true.
Proof.
  intros Hfmt.
  apply (Marshal_pieces (fun s => all_chars plain_byte s = true) fmt).
  - intros a b Ha Hb. now rewrite all_chars_app, Ha, Hb.
  - apply quote_plain.
  - apply formatInt_plain.
  - exact Hfmt.
  - repeat constructor.
Qed.

Lemma Marshal_plain_witness :
  (forall f, all_chars plain_byte ((fun _ : spec_float => "0") f) = true) /\
  Marshal (fun _ => "0") hostile_text = Ok hostile_text_encoding /\
  all_chars plain_byte hostile_text_encoding = true.
Proof.
  split; [reflexivity|]. split; [vm_compute; reflexivity|].
  apply (Marshal_plain (fun _ => "0") hostile_text hostile_text_encoding).
  - reflexivity.
  - vm_compute. reflexivity.
Defined.
(* ------------------------------------------------------------------ *)
(** ** An encoding is valid UTF-8 *)

Lemma rune_size_agree (b : ascii) (p Y Y' : string) (sz : nat) :
  rune_size (String b (p +++ Y)) = Some sz ->
  String.length p = (sz - 1)%nat ->
  rune_size (String b (p +++ Y')) = Some sz.
Proof.
  cbn [rune_size].
  destruct (first (code b)) as [[[n lo] hi]|] eqn:F; [|discriminate].
  destruct (first_range _ _ _ _ F) as [_ Hn].
  destruct p as [|c1 p].
  { cbn [String.append String.length]. destruct Y as [|y Y]; [discriminate|].
    destruct (_ && _); [|discriminate].
    destruct Hn as [-> | [-> | ->]].
    - intros [= <-]. discriminate.
    - destruct Y as [|y2 Y]; [discriminate|]. destruct (continuation _); [|discriminate].
      intros [= <-]. discriminate.
    - destruct Y as [|y2 [|y3 Y]]; try discriminate.
      destruct (_ && _); [|discriminate]. intros [= <-]. discriminate. }
  cbn [String.append String.length].
  destruct (_ && _); [|discriminate].
  destruct Hn as [-> | [-> | ->]].
  - intros H _. exact H.
  - destruct p as [|c2 p].
    { cbn [String.append String.length]. destruct Y as [|y2 Y]; [discriminate|].
      destruct (continuation _); [|discriminate]. intros [= <-]. discriminate. }
    cbn [String.append]. intros H _. exact H.
  - destruct p as [|c2 [|c3 p]].
    + cbn [String.append String.length]. destruct Y as [|y2 [|y3 Y]]; try discriminate.
      destruct (_ && _); [|discriminate]. intros [= <-]. discriminate.
    + cbn [String.append String.length]. destruct Y as [|y3 Y]; [discriminate|].
      destruct (_ && _); [|discriminate]. intros [= <-]. discriminate.
    + cbn [String.append]. intros H _. exact H.
Qed.

Lemma rune_size_app (s t : string) (sz : nat) :
  rune_size s = Some sz -> rune_size (s +++ t) = Some sz.
Proof.
  destruct s as [|b r]; [discriminate|]. intros H.
  destruct (rune_size_high b r sz H) as [Hh Hsz].
  assert (D : exists p Y, r = p +++ Y /\ String.length p = (sz - 1)%nat).
  { clear H. revert Hh. generalize (sz - 1)%nat as k. clear Hsz sz.
    intros k. revert r. induction k as [|k IH]; intros r Hh.
    - exists EmptyString, r. split; reflexivity.
    - destruct r as [|c r]; [discriminate Hh|]. cbn [high_prefix] in Hh.
      apply andb_true_iff in Hh. destruct Hh as [_ Hh].
      destruct (IH r Hh) as [p [Y [-> L]]].
      exists (String c p), Y. split; [reflexivity | simpl; now rewrite L]. }
  destruct D as [p [Y [-> L]]].
  cbn [String.append]. rewrite sapp_assoc.
  apply (rune_size_agree b p Y (Y +++ t) sz H L).
Qed.

Lemma valid_utf8_app (a b : string) :
  forall k : nat,
    valid_utf8 k a = true -> valid_utf8 0 b = true ->
    valid_utf8 k (a +++ b) = true.
Proof.
  induction a as [|c a IH]; intros k Ha Hb.
  - cbn [valid_utf8] in Ha. apply Nat.eqb_eq in Ha. subst k. exact Hb.
  - cbn [String.append]. destruct k as [|k].
    + cbn [valid_utf8] in *. destruct (code c <? 128); [now apply IH|].
      destruct (rune_size (String c a)) as [sz|] eqn:R; [|discriminate Ha].
      change (String c (a +++ b)) with (String c a +++ b).
      rewrite (rune_size_app _ b _ R). now apply IH.
    + cbn [valid_utf8] in *. now apply IH.
Qed.

Lemma clean_app (a b : string) :
  clean a = true -> clean b = true -> clean (a +++ b) = true.
Proof. apply valid_utf8_app. Qed.

Lemma pending_bytes (k : nat) (r : string) :
  high_prefix k r = true ->
  exists p Y, r = p +++ Y /\ String.length p = k /\
              forall copy, string_body k copy r
                           = (if copy then p else EmptyString) +++ string_body 0 copy Y.
Proof.
  revert r. induction k as [|k IH]; intros r Hh.
  - exists EmptyString, r. repeat split. intros []; reflexivity.
  - destruct r as [|c r]; [discriminate Hh|]. cbn [high_prefix] in Hh.
    apply andb_true_iff in Hh. destruct Hh as [_ Hh].
    destruct (IH r Hh) as [p [Y [-> [L Hb]]]].
    exists (String c p), Y. split; [reflexivity|]. split; [simpl; now rewrite L|].
    intros copy. cbn [string_body]. rewrite Hb. now destruct copy.
Qed.

Lemma hex_ascii (n : Z) : (code (hex n) <? 128) = true.
Proof.
  unfold hex.
  destruct (nth_in_or_default (Z.to_nat n)
              (list_ascii_of_string "0123456789abcdef") "0"%char) as [H | ->];
    [|reflexivity].
  revert H. generalize (nth (Z.to_nat n) (list_ascii_of_string "0123456789abcdef") "0"%char).
  intros c H. simpl in H.
  repeat (destruct H as [<- | H]; [reflexivity|]). contradiction.
Qed.

Lemma escape_byte_ascii (b : ascii) :
  code b < 128 -> all_chars (fun c => code c <? 128) (escape_byte b) = true.
Proof.
  intros Hb. unfold escape_byte.
  destruct ((code b =? 92) || (code b =? 34)).
  - cbn [all_chars]. rewrite andb_true_r. cbn [andb].
    apply Z.ltb_lt. exact Hb.
  - destruct (code b =? 10); [reflexivity|].
    destruct (code b =? 13); [reflexivity|].
    destruct (code b =? 9); [reflexivity|].
    cbn [String.append all_chars].
    now rewrite !hex_ascii.
Qed.
Lemma valid_utf8_skip (p X : string) :
  valid_utf8 (String.length p) (p +++ X) = valid_utf8 0 X.
Proof. induction p as [|c p IH]; [reflexivity | exact IH]. Qed.

Lemma sapp_length_le (p Y : string) : (String.length Y <= String.length (p +++ Y))%nat.
Proof. rewrite slength_app. lia. Qed.

Lemma string_body_valid (n : nat) :
  forall s : string,
    (String.length s <= n)%nat ->
    valid_utf8 0 (string_body 0 true s) = true.
Proof.
  induction n as [|n IH]; intros s Hn.
  - destruct s; [reflexivity | simpl in Hn; lia].
  - destruct s as [|b r]; [reflexivity|]. simpl in Hn.
    cbn [string_body]. destruct (code b <? 128) eqn:Eb.
    + apply clean_app; [|apply IH; lia].
      destruct (htmlSafe (code b)).
      * apply ascii_clean. cbn [all_chars]. now rewrite Eb.
      * apply ascii_clean. apply escape_byte_ascii. now apply Z.ltb_lt.
    + destruct (rune_size (String b r)) as [sz|] eqn:Er.
      * destruct (rune_size_high b r sz Er) as [Hh _].
        destruct (pending_bytes _ r Hh) as [p [Y [-> [L Hb]]]].
        pose proof (sapp_length_le p Y) as HY.
        destruct (line_separator (String b (p +++ Y))) as [h|] eqn:El.
        -- rewrite Hb. cbn [String.append].
           change (String "\" (String "u" (String "2" (String "0" (String "2"
                     (String h (string_body 0 false Y)))))))
             with (("\u202" +++ String h EmptyString) +++ string_body 0 false Y).
           apply clean_app.
           ++ apply ascii_clean. cbn [String.append all_chars].
              rewrite andb_true_r. cbn [andb].
              unfold line_separator in El.
              destruct p as [|c1 [|c2 p]]; cbn [String.append] in El.
              ** destruct Y as [|y1 [|y2 Y]]; try discriminate El.
                 destruct (_ && _); [|discriminate El]. injection El as <-.
                 apply hex_ascii.
              ** destruct Y as [|y2 Y]; try discriminate El.
                 destruct (_ && _); [|discriminate El]. injection El as <-.
                 apply hex_ascii.
              ** destruct (_ && _); [|discriminate El]. injection El as <-.
                 apply hex_ascii.
           ++ rewrite string_body_copy_irrelevant. apply IH. lia.
        -- rewrite Hb. cbn [valid_utf8]. rewrite Eb.
           rewrite (rune_size_agree b p Y (string_body 0 true Y) sz Er L).
           rewrite <- L, valid_utf8_skip. apply IH. lia.
      * idtac.
        apply clean_app; [reflexivity | apply IH; lia].
Qed.
Lemma quote_clean (s : string) : clean (quote s) = true.
Proof.
  unfold quote.
  change (String DQ (string_body 0 true s))
    with (String DQ EmptyString +++ string_body 0 true s).
  rewrite sapp_assoc.
  apply clean_app; [reflexivity|].
  apply clean_app; [|reflexivity].
  apply (string_body_valid (String.length s)). lia.
Qed.

Lemma formatInt_clean (n : Z) : clean (formatInt n) = true.
Proof.
  apply ascii_clean. unfold formatInt. rewrite all_chars_app.
  replace (all_chars (fun c => code c <? 128) (utoa (Z.abs n))) with true.
  - now destruct (n <? 0).
  - symmetry. apply all_chars_weaken with (p := is_digit); [|apply utoa_digits; lia].
    intros c H. unfold is_digit in H. apply andb_true_iff in H.
    destruct H as [_ H]. apply Z.leb_le in H. apply Z.ltb_lt. lia.
Qed.

(** X9: an encoding is valid UTF-8, whatever bytes the Strings, the
    References and the keys of the value hold (given that the text of a
    Double is valid UTF-8, as that of [strconv] is). *)
Theorem Marshal_valid_utf8 (fmt : spec_float -> string) (v : Value) (enc : string) :
  (forall f, clean (fmt f) = true) ->
  Marshal fmt v = Ok enc ->
  clean enc = true.
Proof.
  intros Hfmt.
  apply (Marshal_pieces (fun s => clean s = true) fmt).
  - apply clean_app.
  - apply quote_clean.
  - apply formatInt_clean.
  - exact Hfmt.
  - repeat constructor.
Qed.

Lemma Marshal_valid_utf8_witness :
  (forall f, clean ((fun _ : spec_float => "0") f) = true) /\
  clean (String (byte_of 255) EmptyString) = false /\
  exists enc : string,
    Marshal (fun _ => "0")
      (ArrayV [stray_byte; RefV "classes/spells/1";
               ObjectV [(String (byte_of 255) EmptyString, nil_Value)]])
    = Ok enc /\
    clean enc = true.
Proof.
  split; [reflexivity|]. split; [reflexivity|].
  eexists. split; [vm_compute; reflexivity|].
  eapply (Marshal_valid_utf8 (fun _ => "0")
            (ArrayV [stray_byte; RefV "classes/spells/1";
                     ObjectV [(String (byte_of 255) EmptyString, nil_Value)]])).
  - reflexivity.
  - vm_compute. reflexivity.
Defined.
(* ------------------------------------------------------------------ *)
(** ** The credentials of a client *)

Lemma string_ind3 (P : string -> Prop) :
  P EmptyString ->
  (forall a, P (String a EmptyString)) ->
  (forall a b, P (String a (String b EmptyString))) ->
  (forall a b c r, P r -> P (String a (String b (String c r)))) ->
  forall s, P s.
Proof.
  intros H0 H1 H2 H3. fix IH 1.
  intros [|a [|b [|c r]]]; [exact H0 | apply H1 | apply H2 | apply H3, IH].
Qed.

Lemma encode_in (i : Z) : In (GoBase64.encode i) (list_ascii_of_string GoBase64.encodeStd).
Proof.
  unfold GoBase64.encode.
  destruct (nth_in_or_default (Z.to_nat i)
              (list_ascii_of_string GoBase64.encodeStd) "A"%char) as [H | ->];
    [exact H | simpl; tauto].
Qed.

Lemma encode_base64_char (i : Z) : base64_char (GoBase64.encode i) = true.
Proof.
  unfold base64_char. apply orb_true_iff. left.
  apply existsb_exists. exists (GoBase64.encode i).
  split; [apply encode_in | apply Ascii.eqb_refl].
Qed.

Lemma Encode_chars (s : string) : all_chars base64_char (GoBase64.Encode s) = true.
Proof.
  induction s as [ | a | a b | a b c r IH] using string_ind3;
    cbn [GoBase64.Encode all_chars]; rewrite ?encode_base64_char;
    try reflexivity.
  exact IH.
Qed.

Lemma Encode_length (s : string) :
  String.length (GoBase64.Encode s) = (4 * ((String.length s + 2) / 3))%nat.
Proof.
  induction s as [ | a | a b | a b c r IH] using string_ind3;
    try reflexivity.
  cbn [GoBase64.Encode String.length]. rewrite IH.
  replace (S (S (S (String.length r))) + 2)%nat
    with (1 * 3 + (String.length r + 2))%nat by lia.
  rewrite Nat.div_add_l by discriminate. lia.
Qed.

Lemma base64_char_printable (c : ascii) : base64_char c = true -> printable c = true.
Proof.
  unfold base64_char. intros H. apply orb_true_iff in H. destruct H as [H | H].
  - apply existsb_exists in H. destruct H as [x [Hin Hx]].
    apply Ascii.eqb_eq in Hx. subst x. simpl in Hin.
    repeat (destruct Hin as [<- | Hin]; [reflexivity|]). contradiction.
  - apply Ascii.eqb_eq in H. subst c. reflexivity.
Qed.

(** X10: the credentials that [basicAuth] makes are the word [Basic], a
    space, the base64 text of the secret (four characters for every three
    bytes, padded) and a colon; they hold printable ASCII characters only,
    whatever bytes the secret holds. *)
Theorem basicAuth_header (secret : string) :
  (exists encoded : string,
     basicAuth secret = "Basic " +++ encoded +++ ":" /\
     all_chars base64_char encoded = true /\
     String.length encoded = (4 * ((String.length secret + 2) / 3))%nat) /\
  all_chars printable (basicAuth secret) = true.
Proof.
  split.
  - exists (GoBase64.EncodeToString secret).
    split; [reflexivity|]. split; [apply Encode_chars | apply Encode_length].
  - unfold basicAuth, GoBase64.EncodeToString. cbv zeta. rewrite !all_chars_app.
    rewrite (all_chars_weaken base64_char printable _ base64_char_printable
               (Encode_chars secret)).
    reflexivity.
Qed.

Lemma lor_shiftl (x y k : Z) :
  0 <= k -> 0 <= y < 2 ^ k -> Z.lor (Z.shiftl x k) y = x * 2 ^ k + y.
Proof.
  intros Hk Hy. rewrite <- (Z.shiftl_mul_pow2 x k Hk).
  rewrite <- Z.add_lor_land.
  replace (Z.land (Z.shiftl x k) y) with 0; [lia|].
  symmetry. apply Z.bits_inj'. intros n Hn.
  rewrite Z.land_spec, Z.bits_0, Z.shiftl_spec by exact Hn.
  destruct (Z.ltb_spec n k) as [L | L].
  - rewrite Z.testbit_neg_r by lia. reflexivity.
  - assert (E : Z.testbit y n = false).
    { destruct (Z.eq_dec y 0) as [-> | Hy0]; [apply Z.bits_0|].
      apply Z.bits_above_log2; [lia|].
      assert (Z.log2 y < k) by (apply Z.log2_lt_pow2; lia). lia. }
    rewrite E. apply andb_false_r.
Qed.

Lemma code_range (c : ascii) : 0 <= code c < 256.
Proof.
  unfold code. pose proof (N_ascii_bounded c) as H. lia.
Qed.

Lemma group_value (a b c : ascii) :
  Z.lor (Z.lor (Z.shiftl (code a) 16) (Z.shiftl (code b) 8)) (code c)
  = code a * 65536 + code b * 256 + code c.
Proof.
  pose proof (code_range a). pose proof (code_range b). pose proof (code_range c).
  rewrite (Z.shiftl_mul_pow2 (code b) 8) by lia.
  rewrite (lor_shiftl (code a) (code b * 2 ^ 8) 16) by lia.
  replace (code a * 2 ^ 16 + code b * 2 ^ 8)
    with (Z.shiftl (code a * 256 + code b) 8)
    by (rewrite Z.shiftl_mul_pow2 by lia; lia).
  rewrite lor_shiftl by lia. lia.
Qed.

Lemma pair_value (a b : ascii) :
  Z.lor (Z.shiftl (code a) 16) (Z.shiftl (code b) 8)
  = code a * 65536 + code b * 256.
Proof.
  pose proof (code_range a). pose proof (code_range b).
  rewrite (Z.shiftl_mul_pow2 (code b) 8) by lia.
  rewrite (lor_shiftl (code a) (code b * 2 ^ 8) 16) by lia. lia.
Qed.

Lemma six_bits (v k : Z) :
  0 <= k -> Z.land (Z.shiftr v k) 63 = (v / 2 ^ k) mod 64.
Proof.
  intros Hk. rewrite Z.shiftr_div_pow2 by exact Hk.
  change 63 with (Z.ones 6). now rewrite Z.land_ones.
Qed.

Lemma six_bits_0 (v : Z) : Z.land v 63 = v mod 64.
Proof. change 63 with (Z.ones 6). now rewrite Z.land_ones. Qed.

Lemma sextet_encode (i : Z) :
  0 <= i < 64 -> sextet (GoBase64.encode i) = Some i.
Proof.
  intros H. rewrite <- (Z2Nat.id i) by lia.
  assert (Hn : (Z.to_nat i < 64)%nat) by lia.
  revert Hn. generalize (Z.to_nat i). intros n Hn.
  do 64 (destruct n as [|n]; [reflexivity|]). lia.
Qed.

Lemma encode_not_padding (i : Z) :
  Ascii.eqb (GoBase64.encode i) GoBase64.StdPadding = false.
Proof.
  pose proof (encode_in i) as H.
  revert H. generalize (GoBase64.encode i). intros c H. simpl in H.
  repeat (destruct H as [<- | H]; [reflexivity|]). contradiction.
Qed.
Lemma group_digits (V : Z) :
  0 <= V < 16777216 ->
  ((((V / 2 ^ 18) mod 64) * 64 + (V / 2 ^ 12) mod 64) * 64 + (V / 2 ^ 6) mod 64) * 64
  + V mod 64 = V.
Proof.
  intros H. change (2 ^ 18) with 262144. change (2 ^ 12) with 4096.
  change (2 ^ 6) with 64.
  Z.div_mod_to_equations. lia.
Qed.

Lemma group_bytes (A B C : Z) :
  0 <= A < 256 -> 0 <= B < 256 -> 0 <= C < 256 ->
  (A * 65536 + B * 256 + C) / 65536 = A /\
  ((A * 65536 + B * 256 + C) / 256) mod 256 = B /\
  (A * 65536 + B * 256 + C) mod 256 = C.
Proof. intros HA HB HC. Z.div_mod_to_equations. lia. Qed.

Lemma sextet_digit (V k : Z) :
  sextet (GoBase64.encode ((V / 2 ^ k) mod 64)) = Some ((V / 2 ^ k) mod 64).
Proof. apply sextet_encode. apply Z.mod_pos_bound. lia. Qed.

Lemma sextet_digit_0 (V : Z) :
  sextet (GoBase64.encode (V mod 64)) = Some (V mod 64).
Proof. apply sextet_encode. apply Z.mod_pos_bound. lia. Qed.

Lemma base64_decode_Encode (s : string) :
  base64_decode (GoBase64.Encode s) = Some s.
Proof.
  induction s as [ | a | a b | a b c r IH] using string_ind3.
  - reflexivity.
  - pose proof (code_range a) as Ha.
    cbn [GoBase64.Encode]. cbv zeta.
    rewrite (Z.shiftl_mul_pow2 (code a) 16) by lia.
    rewrite !six_bits by lia.
    set (V := code a * 2 ^ 16).
    cbn [base64_decode]. rewrite !sextet_digit. rewrite !Ascii.eqb_refl.
    f_equal. f_equal.
    rewrite <- (byte_of_code a). f_equal.
    assert (HV : V = code a * 65536) by reflexivity.
    change (2 ^ 18) with 262144. change (2 ^ 12) with 4096.
    Z.div_mod_to_equations. lia.
  - pose proof (code_range a) as Ha. pose proof (code_range b) as Hb.
    cbn [GoBase64.Encode]. cbv zeta.
    rewrite pair_value. rewrite !six_bits by lia.
    set (V := code a * 65536 + code b * 256).
    cbn [base64_decode]. rewrite !sextet_digit.
    rewrite Ascii.eqb_refl, encode_not_padding.
    assert (HV : ((V / 2 ^ 18) mod 64 * 64 + (V / 2 ^ 12) mod 64) * 64
                 + (V / 2 ^ 6) mod 64 = V / 64).
    { change (2 ^ 18) with 262144. change (2 ^ 12) with 4096.
      change (2 ^ 6) with 64. unfold V.
      Z.div_mod_to_equations. lia. }
    rewrite HV.
    replace (V / 64 * 64) with (code a * 65536 + code b * 256 + 0)
      by (unfold V; Z.div_mod_to_equations; lia).
    destruct (group_bytes (code a) (code b) 0 Ha Hb ltac:(lia)) as [E0 [E1 _]].
    rewrite E0, E1, !byte_of_code. reflexivity.
  - pose proof (code_range a) as Ha. pose proof (code_range b) as Hb.
    pose proof (code_range c) as Hc.
    cbn [GoBase64.Encode]. cbv zeta.
    rewrite group_value. rewrite !six_bits by lia. rewrite six_bits_0.
    set (V := code a * 65536 + code b * 256 + code c).
    cbn [base64_decode]. rewrite !sextet_digit, sextet_digit_0.
    rewrite encode_not_padding, IH.
    rewrite (group_digits V) by (unfold V; lia).
    destruct (group_bytes (code a) (code b) (code c) Ha Hb Hc) as [E0 [E1 E2]].
    unfold V. rewrite E0, E1, E2, !byte_of_code. reflexivity.
Qed.

Lemma sapp_inv_r (a b s : string) : a +++ s = b +++ s -> a = b.
Proof.
  revert b. induction a as [|x a IH]; intros [|y b] H.
  - reflexivity.
  - exfalso. apply (f_equal String.length) in H.
    cbn [String.append String.length] in H. rewrite slength_app in H. lia.
  - exfalso. apply (f_equal String.length) in H.
    cbn [String.append String.length] in H. rewrite slength_app in H. lia.
  - cbn [String.append] in H. injection H as -> H. f_equal. now apply IH.
Qed.

Lemma basicAuth_inj (secret secret' : string) :
  basicAuth secret = basicAuth secret' -> secret = secret'.
Proof.
  unfold basicAuth, GoBase64.EncodeToString. cbv zeta. intros H.
  injection H as H. apply sapp_inv_r in H.
  pose proof (base64_decode_Encode secret) as D.
  rewrite H, base64_decode_Encode in D. now injection D.
Qed.
(** X11: the credentials carry the secret: reading the base64 text back
    gives the secret, and two secrets with the same credentials are
    equal. *)
Theorem basicAuth_carries_secret :
  (forall secret : string,
     exists encoded : string,
       basicAuth secret = "Basic " +++ encoded +++ ":" /\
       base64_decode encoded = Some secret) /\
  (forall secret secret' : string,
     basicAuth secret = basicAuth secret' -> secret = secret').
Proof.
  split.
  - intros secret. exists (GoBase64.EncodeToString secret).
    split; [reflexivity | apply base64_decode_Encode].
  - exact basicAuth_inj.
Qed.

Example basicAuth_secret : basicAuth "secret" = "Basic c2VjcmV0:".
Proof. reflexivity. Qed.

Example basicAuth_padding :
  basicAuth "ab" = "Basic YWI=:" /\ basicAuth "a" = "Basic YQ==:" /\
  basicAuth EmptyString = "Basic :".
Proof. repeat split. Qed.

(* ------------------------------------------------------------------ *)
(** ** The constructors of the client *)

Lemma configure_fields (settings : list Setting) :
  forall client : FaunaClient.t,
    FaunaClient.basicAuth
      (fold_left (fun cli config => config cli) (map config_of settings) client)
    = FaunaClient.basicAuth client /\
    (existsb sets_endpoint settings = false ->
     FaunaClient.endpoint
       (fold_left (fun cli config => config cli) (map config_of settings) client)
     = FaunaClient.endpoint client) /\
    (existsb sets_http settings = false ->
     FaunaClient.http
       (fold_left (fun cli config => config cli) (map config_of settings) client)
     = FaunaClient.http client).
Proof.
  induction settings as [|s settings IH]; intros client; [repeat split|].
  cbn [map fold_left existsb].
  destruct (IH (config_of s client)) as [Ha [He Hh]].
  split; [|split].
  - rewrite Ha. now destruct s.
  - intros H. apply orb_false_iff in H. destruct H as [Hs H].
    rewrite (He H). destruct s; [discriminate Hs | reflexivity].
  - intros H. apply orb_false_iff in H. destruct H as [Hs H].
    rewrite (Hh H). destruct s; [reflexivity | discriminate Hs].
Qed.

Lemma configure_app (pre post : list Setting) (client : FaunaClient.t) :
  fold_left (fun cli config => config cli) (map config_of (pre ++ post)) client
  = fold_left (fun cli config => config cli) (map config_of post)
      (fold_left (fun cli config => config cli) (map config_of pre) client).
Proof. now rewrite map_app, fold_left_app. Qed.

Lemma NewFaunaClient_fields (secret : string) (configs : list ClientConfig) :
  let client :=
    fold_left (fun cli config => config cli) configs
      (FaunaClient.mk (basicAuth secret) EmptyString None) in
  FaunaClient.basicAuth (NewFaunaClient secret configs)
  = FaunaClient.basicAuth client /\
  FaunaClient.endpoint (NewFaunaClient secret configs)
  = (if String.eqb (FaunaClient.endpoint client) EmptyString
     then defaultEndpoint else FaunaClient.endpoint client) /\
  FaunaClient.http (NewFaunaClient secret configs)
  = Some (match FaunaClient.http client with
          | Some http => http
          | None => default_http
          end).
Proof.
  intros client. subst client. unfold NewFaunaClient. cbv zeta.
  match goal with
  | |- context [fold_left ?f ?l ?a] => generalize (fold_left f l a)
  end.
  intros [a e h]. cbn [FaunaClient.basicAuth FaunaClient.endpoint FaunaClient.http].
  destruct (String.eqb e EmptyString); destruct h;
    cbn [FaunaClient.basicAuth FaunaClient.endpoint FaunaClient.http];
    repeat split.
Qed.

(** X12: whatever the configurations do, the client that
    [NewFaunaClient] returns has an endpoint that is not empty and an HTTP
    client that is not nil. *)
Theorem NewFaunaClient_well_formed (secret : string) (configs : list ClientConfig) :
  FaunaClient.endpoint (NewFaunaClient secret configs) <> EmptyString /\
  FaunaClient.http (NewFaunaClient secret configs) <> None.
Proof.
  destruct (NewFaunaClient_fields secret configs) as [_ [-> ->]].
  split; [|discriminate].
  destruct (String.eqb _ EmptyString) eqn:E; [discriminate|].
  now apply String.eqb_neq.
Qed.

(** X13: with the configurations [Endpoint] and [HTTP], the client keeps
    the credentials of its secret; its endpoint is that of the last
    [Endpoint], and the default one when there is none or when the last
    one is empty; its HTTP client is that of the last [HTTP], and a new
    one with a timeout of 60 seconds when there is none or when the last
    one is nil. *)
Theorem NewFaunaClient_settings :
  (forall secret settings,
     FaunaClient.basicAuth (NewFaunaClient secret (map config_of settings))
     = basicAuth secret) /\
  (forall secret settings,
     existsb sets_endpoint settings = false ->
     FaunaClient.endpoint (NewFaunaClient secret (map config_of settings))
     = defaultEndpoint) /\
  (forall secret pre url post,
     existsb sets_endpoint post = false ->
     FaunaClient.endpoint
       (NewFaunaClient secret (map config_of (pre ++ SetEndpoint url :: post)))
     = if String.eqb url EmptyString then defaultEndpoint else url) /\
  (forall secret settings,
     existsb sets_http settings = false ->
     FaunaClient.http (NewFaunaClient secret (map config_of settings))
     = Some default_http) /\
  (forall secret pre http post,
     existsb sets_http post = false ->
     FaunaClient.http
       (NewFaunaClient secret (map config_of (pre ++ SetHTTP http :: post)))
     = Some (match http with
             | Some client => client
             | None => default_http
             end)).
Proof.
  split; [|split; [|split; [|split]]].
  - intros secret settings.
    destruct (NewFaunaClient_fields secret (map config_of settings)) as [-> _].
    now destruct (configure_fields settings
                    (FaunaClient.mk (basicAuth secret) EmptyString None)) as [-> _].
  - intros secret settings H.
    destruct (NewFaunaClient_fields secret (map config_of settings)) as [_ [-> _]].
    destruct (configure_fields settings
                (FaunaClient.mk (basicAuth secret) EmptyString None)) as [_ [He _]].
    rewrite (He H). reflexivity.
  - intros secret pre url post H.
    destruct (NewFaunaClient_fields secret
                (map config_of (pre ++ SetEndpoint url :: post))) as [_ [-> _]].
    rewrite configure_app. cbn [map fold_left].
    destruct (configure_fields post
                (config_of (SetEndpoint url)
                   (fold_left (fun cli config => config cli) (map config_of pre)
                      (FaunaClient.mk (basicAuth secret) EmptyString None))))
      as [_ [He _]].
    rewrite (He H). reflexivity.
  - intros secret settings H.
    destruct (NewFaunaClient_fields secret (map config_of settings)) as [_ [_ ->]].
    destruct (configure_fields settings
                (FaunaClient.mk (basicAuth secret) EmptyString None)) as [_ [_ Hh]].
    rewrite (Hh H). reflexivity.
  - intros secret pre http post H.
    destruct (NewFaunaClient_fields secret
                (map config_of (pre ++ SetHTTP http :: post))) as [_ [_ ->]].
    rewrite configure_app. cbn [map fold_left].
    destruct (configure_fields post
                (config_of (SetHTTP http)
                   (fold_left (fun cli config => config cli) (map config_of pre)
                      (FaunaClient.mk (basicAuth secret) EmptyString None))))
      as [_ [_ Hh]].
    rewrite (Hh H). reflexivity.
Qed.
(* ------------------------------------------------------------------ *)
(** ** Sessions *)

Lemma sessions_fields (secrets : list string) :
  forall client : FaunaClient.t,
    FaunaClient.endpoint (fold_left NewSessionClient secrets client)
    = FaunaClient.endpoint client /\
    FaunaClient.http (fold_left NewSessionClient secrets client)
    = FaunaClient.http client.
Proof.
  induction secrets as [|s secrets IH]; intros client; [split; reflexivity|].
  cbn [fold_left]. destruct (IH (NewSessionClient client s)) as [-> ->].
  split; reflexivity.
Qed.

(** X14: a session client made from a client, through any number of
    sessions, has the endpoint and the HTTP client of the first client and
    the credentials of the last secret. *)
Theorem NewSessionClient_chain
    (client : FaunaClient.t) (secrets : list string) (secret : string) :
  FaunaClient.endpoint (fold_left NewSessionClient (secrets ++ [secret]) client)
  = FaunaClient.endpoint client /\
  FaunaClient.http (fold_left NewSessionClient (secrets ++ [secret]) client)
  = FaunaClient.http client /\
  FaunaClient.basicAuth (fold_left NewSessionClient (secrets ++ [secret]) client)
  = basicAuth secret.
Proof.
  destruct (sessions_fields (secrets ++ [secret]) client) as [-> ->].
  split; [reflexivity|]. split; [reflexivity|].
  rewrite fold_left_app. reflexivity.
Qed.

(* ------------------------------------------------------------------ *)
(** ** The requests of a client *)

Lemma built_fields (secret : string) (client : FaunaClient.t) :
  built secret client ->
  FaunaClient.basicAuth client = basicAuth secret /\
  FaunaClient.endpoint client <> EmptyString /\
  FaunaClient.http client <> None.
Proof.
  induction 1 as [secret settings | parent client secret _ [_ [He Hh]]].
  - destruct (NewFaunaClient_fields secret (map config_of settings)) as [-> [-> ->]].
    split; [|split; [|discriminate]].
    + now destruct (configure_fields settings
                      (FaunaClient.mk (basicAuth secret) EmptyString None)) as [-> _].
    + destruct (String.eqb _ EmptyString) eqn:E; [discriminate|].
      now apply String.eqb_neq.
  - repeat split; assumption.
Qed.

Lemma prepareRequest_Ok fmt url_Parse (client : FaunaClient.t) (expr : Value)
    (request : GoHTTP.Request) :
  prepareRequest fmt url_Parse client expr = Ok request ->
  GoHTTP.Method request = "POST" /\
  GoHTTP.URL request = FaunaClient.endpoint client /\
  GoHTTP.Headers request = request_header (FaunaClient.basicAuth client) /\
  Marshal fmt expr = Ok (GoHTTP.Body request) /\
  url_Parse (FaunaClient.endpoint client) = None.
Proof.
  unfold prepareRequest, NewRequest.
  destruct (Marshal fmt expr) as [body | e]; [|discriminate].
  destruct (url_Parse (FaunaClient.endpoint client)) as [e|]; [discriminate|].
  intros [= <-]. repeat split.
Qed.

Lemma client_Query_sent fmt url_Parse Do parseFloat checkForResponseErrors
    (client : FaunaClient.t) (expr : Value) :
  fst (client_Query fmt url_Parse Do parseFloat checkForResponseErrors client expr)
  = fst (performRequest fmt url_Parse Do client expr) /\
  (snd (performRequest fmt url_Parse Do client expr) <> Panicked ->
   snd (client_Query fmt url_Parse Do parseFloat checkForResponseErrors client expr)
   <> Panicked).
Proof.
  unfold client_Query.
  destruct (performRequest fmt url_Parse Do client expr) as [sent [[response | e] | ]];
    cbn [fst snd]; split; try reflexivity; try discriminate.
  intros H. now contradiction H.
Qed.

(** X15: a query on a client made by [NewFaunaClient] with the
    configurations [Endpoint] and [HTTP], or on a session of such a client,
    never panics and hands at most one request to the network: a [POST] to
    the client's endpoint, which is not empty and is a URL, with the
    credentials of the client's own secret as the only [Authorization]
    value, the JSON content type, and the encoding of the expression as its
    body. *)
Theorem built_client_requests
    (fmt : spec_float -> string) (url_Parse : string -> option error)
    (Do : GoHTTP.Client -> GoHTTP.Request -> result Response)
    (parseFloat : string -> option spec_float)
    (checkForResponseErrors : Response -> option error)
    (secret : string) (client : FaunaClient.t) (expr : Value) :
  built secret client ->
  snd (client_Query fmt url_Parse Do parseFloat checkForResponseErrors client expr)
  <> Panicked /\
  (List.length
     (fst (client_Query fmt url_Parse Do parseFloat checkForResponseErrors
             client expr)) <= 1)%nat /\
  forall request : GoHTTP.Request,
    In request
       (fst (client_Query fmt url_Parse Do parseFloat checkForResponseErrors
               client expr)) ->
    GoHTTP.Method request = "POST" /\
    GoHTTP.URL request = FaunaClient.endpoint client /\
    GoHTTP.URL request <> EmptyString /\
    url_Parse (GoHTTP.URL request) = None /\
    GoHTTP.Headers request = request_header (basicAuth secret) /\
    Marshal fmt expr = Ok (GoHTTP.Body request).
Proof.
  intros Hb. destruct (built_fields secret client Hb) as [Ha [He Hh]].
  destruct (client_Query_sent fmt url_Parse Do parseFloat checkForResponseErrors
              client expr) as [-> Hp].
  assert (P : snd (performRequest fmt url_Parse Do client expr) <> Panicked /\
              (List.length (fst (performRequest fmt url_Parse Do client expr)) <= 1)%nat /\
              forall request : GoHTTP.Request,
                In request (fst (performRequest fmt url_Parse Do client expr)) ->
                GoHTTP.Method request = "POST" /\
                GoHTTP.URL request = FaunaClient.endpoint client /\
                GoHTTP.URL request <> EmptyString /\
                url_Parse (GoHTTP.URL request) = None /\
                GoHTTP.Headers request = request_header (basicAuth secret) /\
                Marshal fmt expr = Ok (GoHTTP.Body request)).
  { unfold performRequest.
    destruct (prepareRequest fmt url_Parse client expr) as [request | e] eqn:P.
    - destruct (FaunaClient.http client) as [http|]; [|contradiction].
      cbn [fst snd]. split; [discriminate|]. split; [simpl; lia|].
      intros r [<- | []].
      destruct (prepareRequest_Ok _ _ _ _ _ P) as [Hm [Hu [Hhd [Hbody Hurl]]]].
      rewrite Hu, Hhd, Ha. repeat split; assumption.
    - cbn [fst snd]. split; [discriminate|]. split; [simpl; lia|].
      intros r []. }
  destruct P as [P1 [P2 P3]]. split; [now apply Hp|]. split; assumption.
Qed.

Lemma built_client_requests_witness :
  built "secret"
    (NewSessionClient
       (NewFaunaClient "root" (map config_of [SetEndpoint "http://localhost:8443"]))
       "secret") /\
  client_Query (fun _ => "0") (fun _ => None)
    (fun _ _ => Ok (mkResponse 200 (dq "{'resource':null}")))
    (fun _ => None) (fun _ => None)
    (NewSessionClient
       (NewFaunaClient "root" (map config_of [SetEndpoint "http://localhost:8443"]))
       "secret")
    (RefV "classes/spells/1")
  = ([GoHTTP.mkRequest "POST" "http://localhost:8443"
        (request_header "Basic c2VjcmV0:") (dq "{'@ref':'classes/spells/1'}")],
     Returned (Ok NullV)) /\
  snd (client_Query (fun _ => "0") (fun _ => None)
         (fun _ _ => Ok (mkResponse 200 (dq "{'resource':null}")))
         (fun _ => None) (fun _ => None)
         (NewSessionClient
            (NewFaunaClient "root" (map config_of [SetEndpoint "http://localhost:8443"]))
            "secret")
         (RefV "classes/spells/1")) <> Panicked.
Proof.
  assert (Hb : built "secret"
                 (NewSessionClient
                    (NewFaunaClient "root"
                       (map config_of [SetEndpoint "http://localhost:8443"]))
                    "secret")).
  { apply (built_session "root"). apply built_new. }
  split; [exact Hb|]. split; [vm_compute; reflexivity|].
  apply (built_client_requests (fun _ => "0") (fun _ => None)
           (fun _ _ => Ok (mkResponse 200 (dq "{'resource':null}")))
           (fun _ => None) (fun _ => None)
           "secret" _ (RefV "classes/spells/1") Hb).
Defined.

(** X16: nothing is handed to the network when the request cannot be
    prepared.  When the encoder refuses the expression, [performRequest]
    and [Query] return the encoder's error; when the endpoint is not a
    URL, they return the error of the URL.  This holds for every client,
    also one whose HTTP client is nil. *)
Theorem nothing_sent_on_failure
    (fmt : spec_float -> string) (url_Parse : string -> option error)
    (Do : GoHTTP.Client -> GoHTTP.Request -> result Response)
    (parseFloat : string -> option spec_float)
    (checkForResponseErrors : Response -> option error)
    (client : FaunaClient.t) (expr : Value) :
  (forall err,
     Marshal fmt expr = Err err ->
     performRequest fmt url_Parse Do client expr = ([], Returned (Err err)) /\
     client_Query fmt url_Parse Do parseFloat checkForResponseErrors client expr
     = ([], Returned (Err err))) /\
  (forall body err,
     Marshal fmt expr = Ok body ->
     url_Parse (FaunaClient.endpoint client) = Some err ->
     performRequest fmt url_Parse Do client expr = ([], Returned (Err err)) /\
     client_Query fmt url_Parse Do parseFloat checkForResponseErrors client expr
     = ([], Returned (Err err))).
Proof.
  split.
  - intros err Hm.
    unfold client_Query, performRequest, prepareRequest. rewrite Hm.
    split; reflexivity.
  - intros body err Hm Hu.
    unfold client_Query, performRequest, prepareRequest, NewRequest.
    rewrite Hm, Hu. split; reflexivity.
Qed.

Lemma nothing_sent_on_failure_witness :
  (forall fmt, Marshal fmt (ArrayV [LongV 1; not_a_number])
               = Err (UnsupportedValueError S754_nan)) /\
  performRequest (fun _ => "0") (fun _ => None)
    (fun _ _ => Ok (mkResponse 200 (dq "{'resource':null}")))
    (FaunaClient.mk (basicAuth "secret") defaultEndpoint None)
    (ArrayV [LongV 1; not_a_number])
  = ([], Returned (Err (UnsupportedValueError S754_nan))) /\
  client_Query (fun _ => "0") (fun _ => None)
    (fun _ _ => Ok (mkResponse 200 (dq "{'resource':null}")))
    (fun _ => None) (fun _ => None)
    (FaunaClient.mk (basicAuth "secret") defaultEndpoint None)
    (ArrayV [LongV 1; not_a_number])
  = ([], Returned (Err (UnsupportedValueError S754_nan))).
Proof.
  split; [intros; reflexivity|].
  apply (proj1 (nothing_sent_on_failure (fun _ => "0") (fun _ => None)
                  (fun _ _ => Ok (mkResponse 200 (dq "{'resource':null}")))
                  (fun _ => None) (fun _ => None)
                  (FaunaClient.mk (basicAuth "secret") defaultEndpoint None)
                  (ArrayV [LongV 1; not_a_number]))).
  reflexivity.
Defined.

